(** * Declaration checking (lib/Sema/TypeCheckDecl.cpp)

    A shallow embedding of the declaration-level semantic analysis:
    inheritance-clause resolution, explicit conformances and ObjC
    propagation, implicit constructor synthesis with the
    default-initializability decision procedure, pattern bindings and
    attribute validation, followed by the properties established for them.

    Conventions of the embedding.
    - A [Decl *] is a [DeclID] (pointer identity); declarations that a
      function only reads are passed by value.
    - Types are canonical types: sugar is not represented, so
      [getCanonicalType], [getAs] and [castTo] look at the head
      constructor of a [Ty].
    - The diagnostics engine is a list of the diagnostics this file
      issues, oldest first.
    - Collaborators implemented in other files (type validation, name
      lookup, the conformance checker, pattern and expression checking)
      are operations of type classes. *)

From Stdlib Require Import String.
From stdpp Require Import gmap strings list.

Set Default Proof Using "Type".
Open Scope string_scope.
Open Scope list_scope.
Open Scope stdpp_scope.

(** * Part I: the embedding *)

(** ** Abstract syntax *)

Abbreviation Identifier := string.
Abbreviation DeclID := positive.

(** [TupleTypeElt]: name, type and whether the element carries a default
    value ([hasInit()]). *)
Record TupleTypeElt (T : Type) : Type := mkTupleTypeElt {
  eltName : Identifier;
  eltType : T;
  eltHasInit : bool
}.
Arguments mkTupleTypeElt {T} _ _ _.
Arguments eltName {T} _.
Arguments eltType {T} _.
Arguments eltHasInit {T} _.

Inductive Ownership := Unowned | Weak.

(** Canonical type kinds (TypeKind).  [ErrorType], [UnboundGenericType]
    and [TypeVariableType] are the unchecked kinds. *)
#[warnings="-register-all"]
Inductive Ty : Type :=
| ErrorType
| UnboundGenericType (d : DeclID)
| TypeVariableType (n : N)
| BuiltinFloat (bits : N)
| BuiltinInteger (bits : N)
| BuiltinObjCPointer
| BuiltinObjectPointer
| BuiltinRawPointer
| BuiltinVector (elt : Ty) (n : N)
| TupleType (fields : list (TupleTypeElt Ty))
| UnionType (d : DeclID)
| StructType (d : DeclID)
| ClassType (d : DeclID)
| BoundGenericUnionType (d : DeclID) (args : list Ty)
| BoundGenericStructType (d : DeclID) (args : list Ty)
| BoundGenericClassType (d : DeclID) (args : list Ty)
| MetaTypeType (instance : Ty)
| ModuleType (m : DeclID)
| ArchetypeType (a : N)
| FunctionType (input result : Ty)
| PolymorphicFunctionType (input result : Ty) (params : N)
| ArrayType (base : Ty) (size : N)
| LValueType (object : Ty)
| ProtocolType (p : DeclID)
| ProtocolCompositionType (protocols : list DeclID)
| ReferenceStorageType (o : Ownership) (referent : Ty).

#[global] Instance Ownership_eq_dec : EqDecision Ownership.
Proof. solve_decision. Defined.

Definition TupleTypeElt_eq_dec {T} (dec : ∀ a b : T, {a = b} + {a ≠ b}) :
  ∀ a b : TupleTypeElt T, {a = b} + {a ≠ b}.
Proof.
  intros [n1 t1 b1] [n2 t2 b2].
  destruct (decide (n1 = n2)); [|right; congruence].
  destruct (dec t1 t2); [|right; congruence].
  destruct (decide (b1 = b2)); [|right; congruence].
  left; congruence.
Defined.

(** Canonical types are compared by identity ([CanType] keys). *)
Fixpoint Ty_eq_dec (a b : Ty) {struct a} : {a = b} + {a ≠ b}.
Proof.
  decide equality; try solve [apply (decide _)].
  - apply List.list_eq_dec. apply TupleTypeElt_eq_dec. exact Ty_eq_dec.
  - apply List.list_eq_dec; exact Ty_eq_dec.
  - apply List.list_eq_dec; exact Ty_eq_dec.
  - apply List.list_eq_dec; exact Ty_eq_dec.
Defined.
#[global] Instance Ty_EqDecision : EqDecision Ty := Ty_eq_dec.

(** Expressions the checker builds, and expressions that come from the
    parser. *)
#[warnings="-register-all"]
Inductive Expr : Type :=
| ZeroValueExpr (ty : Ty)
| TupleExpr (elts : list Expr) (names : list Identifier)
| MetatypeExpr (ty : Ty)
| CallExpr (fn arg : Expr)
| ParsedExpr (id : N).

(** ** Declarations and patterns *)

(** [DeclAttributes].  [ownership] is the weak/unowned qualifier, [cc]
    the calling convention. *)
Record DeclAttributes := mkDeclAttributes {
  ObjC : bool;
  ownership : option Ownership;
  IBOutlet : bool;
  IBAction : bool;
  Infix : bool;
  ExplicitPostfix : bool;
  ExplicitPrefix : bool;
  Assignment : bool;
  Conversion : bool;
  ForceInline : bool;
  Byref : bool;
  AutoClosure : bool;
  ObjCBlock : bool;
  ClassProtocol : bool;
  cc : option N;
  Thin : bool;
  NoReturn : bool
}.

Definition noAttributes : DeclAttributes :=
  mkDeclAttributes false None false false false false false false false
                   false false false false false None false false.

(** What the checker asks of a [FuncDecl]. *)
Record FuncInfo := mkFuncInfo {
  isStatic : bool;
  isUnaryOperator : bool;
  isBinaryOperator : bool;
  isGetterOrSetter : bool;
  getNumParamPatterns : nat;
  hasGenericParams : bool
}.

Inductive ValueDeclKind :=
| VarDecl (property : bool)
| FuncDecl (fd : FuncInfo)
| ClassDecl
| StructDecl
| UnionDecl
| ProtocolDecl (requiresClass : bool)
| TypeAliasDecl
| SubscriptDecl
| ConstructorDecl
| DestructorDecl
| UnionElementDecl.

(** A [ValueDecl].  The type is null until one is assigned; the
    declaration context is a pointer. *)
Record ValueDecl := mkValueDecl {
  vdKind : ValueDeclKind;
  getName : Identifier;
  getAttrs : DeclAttributes;
  getType : option Ty;
  getDeclContext : DeclID;
  IsObjC : bool;
  isInstanceMember : bool
}.

Definition isVarDecl (vd : ValueDecl) : bool :=
  match vdKind vd with VarDecl _ => true | _ => false end.

Definition isProperty (vd : ValueDecl) : bool :=
  match vdKind vd with VarDecl property => property | _ => false end.

(** [new (context) VarDecl(SourceLoc(), name, type, dc)]. *)
Definition newVarDecl (name : Identifier) (ty : option Ty) (dc : DeclID)
    : ValueDecl :=
  mkValueDecl (VarDecl false) name noAttributes ty dc false false.

(** Patterns.  A [TypedPattern] carries the type of its annotation once
    that is known. *)
#[warnings="-register-all"]
Inductive Pattern : Type :=
| TuplePattern (fields : list Pattern)
| ParenPattern (sub : Pattern)
| TypedPattern (sub : Pattern) (ty : option Ty)
| NominalTypePattern (sub : Pattern)
| UnionElementPattern (sub : option Pattern)
| VarPattern (sub : Pattern)
| NamedPattern (decl : ValueDecl)
| AnyPattern
| IsaPattern
| ExprPattern.

(** Modelled from the spec: Pattern::collectVariables is declared outside
    this file; it yields the variables a pattern binds, which for a
    member binding of a struct are the members it declares. *)
Fixpoint collectVariables (p : Pattern) : list ValueDecl :=
  match p with
  | TuplePattern fields => flat_map collectVariables fields
  | ParenPattern sub | TypedPattern sub _ | NominalTypePattern sub
  | VarPattern sub => collectVariables sub
  | UnionElementPattern (Some sub) => collectVariables sub
  | UnionElementPattern None => []
  | NamedPattern decl => [decl]
  | AnyPattern | IsaPattern | ExprPattern => []
  end.

(** A [PatternBindingDecl]: the pattern with the type it was given (null
    before it is checked), the initializer, the context and the invalid
    bit. *)
Record PatternBindingDecl := mkPatternBindingDecl {
  getPattern : Pattern;
  getPatternType : option Ty;
  getInit : option Expr;
  pbdDeclContext : DeclID;
  pbdInvalid : bool
}.

(** ** Default initializability (TypeChecker::isDefaultInitializable) *)

(** What [isDefaultInitializable] inspects of a member found by
    constructor lookup: whether it is a [ConstructorDecl], and then its
    [getArgumentType()]. *)
Inductive LookupMember :=
| ConstructorMember (argumentType : Ty)
| OtherMember.

(** Name lookup (TypeChecker::lookupConstructors, implemented outside
    this file).  [None] is a lookup result that converts to [false]. *)
Class NameLookup := {
  lookupConstructors : Ty → option (list LookupMember)
}.

Module DefaultInit.
Section WithLookup.
Context `{NameLookup}.

(** The inner loop over [paramTuple->getFields()]: is some element
    missing an initializer? *)
Fixpoint missingInit (fields : list (TupleTypeElt Ty)) : bool :=
  match fields with
  | [] => false
  | elt :: rest => if eltHasInit elt then missingInit rest else true
  end.

(** The loop over the lookup result.  [None]: the loop left the function
    with [return false] (two candidates); [Some b]: the loop ended with
    [foundDefaultConstructor = b]. *)
Fixpoint findDefaultConstructor (ctors : list LookupMember)
    (foundDefaultConstructor : bool) : option bool :=
  match ctors with
  | [] => Some foundDefaultConstructor
  | OtherMember :: rest => findDefaultConstructor rest foundDefaultConstructor
  | ConstructorMember argTy :: rest =>
      match argTy with
      | TupleType fields =>
          if missingInit fields
          then findDefaultConstructor rest foundDefaultConstructor
          else if foundDefaultConstructor then None
          else findDefaultConstructor rest true
      | _ => findDefaultConstructor rest foundDefaultConstructor
      end
  end.

(** The code after the switch: look for a default constructor. *)
Definition lookForDefaultConstructor (ty : Ty) (initializer : bool)
    : bool * option Expr :=
  match lookupConstructors ty with
  | None => (false, None)
  | Some ctors =>
      match findDefaultConstructor ctors false with
      | None => (false, None)
      | Some foundDefaultConstructor =>
          if negb foundDefaultConstructor || negb initializer
          then (foundDefaultConstructor, None)
          else
            let arg := TupleExpr [] [] in
            let metatype := MetatypeExpr (MetaTypeType ty) in
            (true, Some (CallExpr metatype arg))
      end
  end.

Definition zeroValue (ty : Ty) (initializer : bool) : bool * option Expr :=
  (true, if initializer then Some (ZeroValueExpr ty) else None).

(** End of the tuple case: a [TupleExpr], or the sole initializer when
    it is unnamed. *)
Definition buildTupleInitializer (eltInits : list Expr)
    (eltNames : list Identifier) : Expr :=
  match eltInits, eltNames with
  | [e], n :: _ => if decide (n = "") then e else TupleExpr eltInits eltNames
  | _, _ => TupleExpr eltInits eltNames
  end.

(** [initializer] tells whether the caller passed a non-null
    [Expr **initializer]; the second component is what is stored
    through it.  [None]: an assertion of the tuple case fails. *)
Fixpoint isDefaultInitializable (ty : Ty) (initializer : bool) {struct ty}
    : option (bool * option Expr) :=
  match ty with
  | ArchetypeType _ | BoundGenericStructType _ _ | BoundGenericUnionType _ _
  | UnionType _ | StructType _ =>
      Some (lookForDefaultConstructor ty initializer)
  | ArrayType _ _ => Some (false, None)
  | BoundGenericClassType _ _ | ClassType _ =>
      Some (zeroValue ty initializer)
  | ProtocolType _ | ProtocolCompositionType _ => Some (false, None)
  | BuiltinFloat _ | BuiltinInteger _ | BuiltinObjCPointer
  | BuiltinObjectPointer | BuiltinRawPointer | BuiltinVector _ _ =>
      Some (zeroValue ty initializer)
  | TupleType fields =>
      (fix elements (fs : list (TupleTypeElt Ty)) (eltInits : list Expr)
           (eltNames : list Identifier) {struct fs}
           : option (bool * option Expr) :=
         match fs with
         | [] =>
             Some (true,
                   if initializer
                   then Some (buildTupleInitializer eltInits eltNames)
                   else None)
         | elt :: rest =>
             if eltHasInit elt
             then None (* assert(!elt.hasInit()) *)
             else
               match isDefaultInitializable (eltType elt) initializer with
               | None => None
               | Some (false, _) => Some (false, None)
               | Some (true, eltInit) =>
                   if initializer then
                     match eltInit with
                     | Some e =>
                         elements rest (eltInits ++ [e])
                                  (eltNames ++ [eltName elt])
                     | None => None (* assert(eltInit) *)
                     end
                   else elements rest eltInits eltNames
               end
         end) fields [] []
  | FunctionType _ _ | LValueType _ | PolymorphicFunctionType _ _ _
  | MetaTypeType _ | ModuleType _ => Some (false, None)
  | ReferenceStorageType _ referent =>
      isDefaultInitializable referent initializer
  | ErrorType | UnboundGenericType _ | TypeVariableType _ =>
      Some (false, None)
  end.

(** The tuple loop, named, for stating its properties. *)
Fixpoint tupleElements (initializer : bool) (fs : list (TupleTypeElt Ty))
    (eltInits : list Expr) (eltNames : list Identifier)
    : option (bool * option Expr) :=
  match fs with
  | [] =>
      Some (true,
            if initializer
            then Some (buildTupleInitializer eltInits eltNames)
            else None)
  | elt :: rest =>
      if eltHasInit elt then None
      else
        match isDefaultInitializable (eltType elt) initializer with
        | None => None
        | Some (false, _) => Some (false, None)
        | Some (true, eltInit) =>
            if initializer then
              match eltInit with
              | Some e =>
                  tupleElements initializer rest (eltInits ++ [e])
                                (eltNames ++ [eltName elt])
              | None => None
              end
            else tupleElements initializer rest eltInits eltNames
        end
  end.

(** The answer of a call that returns. *)
Definition answers (ty : Ty) (initializer : bool) (answer : bool) : Prop :=
  fst <$> isDefaultInitializable ty initializer = Some answer.

(** What the assertion of the tuple case asks of a type, all the way
    down: no tuple element carries a default value. *)
Fixpoint withoutElementInitializers (ty : Ty) : bool :=
  match ty with
  | TupleType fields =>
      (fix elements (fs : list (TupleTypeElt Ty)) : bool :=
         match fs with
         | [] => true
         | elt :: rest =>
             negb (eltHasInit elt)
             && withoutElementInitializers (eltType elt) && elements rest
         end) fields
  | ReferenceStorageType _ referent => withoutElementInitializers referent
  | _ => true
  end.

(** The kinds that break out of the switch to look for constructors. *)
Definition looksForConstructors (ty : Ty) : bool :=
  match ty with
  | ArchetypeType _ | BoundGenericStructType _ _ | BoundGenericUnionType _ _
  | UnionType _ | StructType _ => true
  | _ => false
  end.

(** A visible constructor accepts an empty argument list when its
    parameter type is a tuple all of whose elements have a default. *)
Definition acceptsEmptyArgumentList (m : LookupMember) : bool :=
  match m with
  | ConstructorMember (TupleType fields) => forallb eltHasInit fields
  | _ => false
  end.

Definition visibleConstructors (ty : Ty) : list LookupMember :=
  default [] (lookupConstructors ty).

Definition defaultConstructorCount (ty : Ty) : nat :=
  length (List.filter acceptsEmptyArgumentList (visibleConstructors ty)).

(** The witness of a tuple, from the witnesses of its elements. *)
Definition tupleWitness (fields : list (TupleTypeElt Ty)) (ws : list Expr)
    : Expr :=
  match fields, ws with
  | [elt], [w] =>
      if decide (eltName elt = "") then w
      else TupleExpr ws (eltName <$> fields)
  | _, _ => TupleExpr ws (eltName <$> fields)
  end.

End WithLookup.
End DefaultInit.

(** ** Protocol conformances *)

(** [ProtocolConformance]: the witness map (requirement to witness
    declaration) and the conformances to the inherited protocols; a null
    conformance pointer is [None]. *)
#[warnings="-register-all"]
Inductive ProtocolConformance : Type :=
  mkConformance
    (getWitnesses : list (DeclID * DeclID))
    (getInheritedConformances : list (DeclID * option ProtocolConformance)).

Definition getWitnesses (c : ProtocolConformance) : list (DeclID * DeclID) :=
  match c with mkConformance ws _ => ws end.

Definition getInheritedConformances (c : ProtocolConformance)
    : list (DeclID * option ProtocolConformance) :=
  match c with mkConformance _ inh => inh end.

(** ** Diagnostics issued by this file *)

Inductive Diag : Type :=
| duplicate_inheritance (inheritedTy : Ty)
| multiple_inheritance (superclassTy inheritedTy : Ty)
| extension_class_inheritance (declaredTy inheritedTy : Ty)
| non_class_inheritance (declaredTy inheritedTy : Ty)
| superclass_not_first (inheritedTy : Ty)
| inheritance_from_non_protocol_or_class (inheritedTy : Ty)
| inheritance_from_non_protocol (inheritedTy : Ty)
| operator_not_func
| custom_operator_addressof
| invalid_objc_decl
| objc_protocol_not_class_protocol
| invalid_ownership_decl (ownershipKind : Ownership)
| invalid_ownership_opaque_type (ownershipKind : Ownership) (ty : Ty)
| invalid_ownership_type (ownershipKind : Ownership) (ty : Ty)
| invalid_iboutlet
| invalid_ibaction_decl
| invalid_ibaction_result (resultTy : Ty)
| infix_not_an_operator
| invalid_infix_input
| postfix_not_an_operator
| invalid_postfix_input
| prefix_not_an_operator
| invalid_prefix_input
| invalid_decl_attribute (name : string)
| assignment_without_byref
| conversion_not_instance_method (name : Identifier)
| conversion_params (name : Identifier)
| force_inline_not_function
| force_inline_curry_not_supported
| force_inline_generic_not_supported
| class_protocol_not_protocol
| var_type_not_materializable (ty : Ty)
| decl_no_default_init (ty : Ty)
| while_converting_var_init (ty : Ty).

(** ** Inheritance clauses and explicit conformances *)

(** A written type with the type it was resolved to ([TypeLoc]).  The
    type is null until the entry has been validated. *)
Record TypeLoc := mkTypeLoc {
  tlRepr : N;
  tlType : option Ty
}.

(** Type validation (TypeChecker::validateType, lib/Sema/TypeCheckType).
    [None] stands for the [true] the C++ function returns on an error;
    otherwise the entry holds the resolved type.  The outcome is
    determined by what was written. *)
Class TypeValidator := {
  validateType : N → option Ty
}.

(** The conformance checker (TypeChecker::conformsToProtocol): whether
    the type conforms, and the conformance stored through the out
    parameter (possibly null). *)
Class ConformanceChecker := {
  conformsToProtocol : Ty → DeclID → bool * option ProtocolConformance
}.

Module Inheritance.

Inductive DeclKind :=
| ExtensionDecl | StructDecl | UnionDecl | ClassDecl | ProtocolDecl
| TypeAliasDecl.

#[global] Instance DeclKind_eq_dec : EqDecision DeclKind.
Proof. solve_decision. Defined.

(** The part of a type declaration or extension that inheritance
    resolution reads and writes. *)
Record Decl := mkDecl {
  declKind : DeclKind;
  isGenericParameter : bool;       (* TypeAliasDecl::isGenericParameter *)
  inProtocolContext : bool;        (* isa<ProtocolDecl>(getDeclContext()) *)
  getDeclaredType : Ty;            (* declared type, or extended type *)
  getInherited : list TypeLoc;
  getProtocols : list DeclID;
  getSuperclass : option Ty;
  getConformances : list (option ProtocolConformance)
}.

Definition setInherited (d : Decl) (inh : list TypeLoc) : Decl :=
  mkDecl (declKind d) (isGenericParameter d) (inProtocolContext d)
         (getDeclaredType d) inh (getProtocols d) (getSuperclass d)
         (getConformances d).

Definition setProtocols (d : Decl) (ps : list DeclID) : Decl :=
  mkDecl (declKind d) (isGenericParameter d) (inProtocolContext d)
         (getDeclaredType d) (getInherited d) ps (getSuperclass d)
         (getConformances d).

Definition setSuperclass (d : Decl) (ty : Ty) : Decl :=
  mkDecl (declKind d) (isGenericParameter d) (inProtocolContext d)
         (getDeclaredType d) (getInherited d) (getProtocols d) (Some ty)
         (getConformances d).

Definition setConformances (d : Decl)
    (cs : list (option ProtocolConformance)) : Decl :=
  mkDecl (declKind d) (isGenericParameter d) (inProtocolContext d)
         (getDeclaredType d) (getInherited d) (getProtocols d)
         (getSuperclass d) cs.

Definition isNominalTypeDecl (d : Decl) : bool :=
  match declKind d with
  | StructDecl | UnionDecl | ClassDecl | ProtocolDecl => true
  | _ => false
  end.

Definition canInheritClass (decl : Decl) : bool :=
  match declKind decl with
  | ClassDecl => true
  | TypeAliasDecl => isGenericParameter decl
  | _ => false
  end.

Definition nonEmpty {A} (l : list A) : bool :=
  match l with [] => false | _ => true end.

Definition alreadyCheckedInheritanceClause (decl : Decl) : bool :=
  match declKind decl with
  | ExtensionDecl => nonEmpty (getProtocols decl)
  | StructDecl | UnionDecl | ClassDecl | ProtocolDecl =>
      if nonEmpty (getProtocols decl) then true
      else match declKind decl with
           | ClassDecl => bool_decide (is_Some (getSuperclass decl))
           | _ => false
           end
  | TypeAliasDecl =>
      if nonEmpty (getProtocols decl) then true
      else isGenericParameter decl
           && bool_decide (is_Some (getSuperclass decl))
  end.

(** Modelled from the spec: TypeBase::isExistentialType is declared
    outside this file; an existential is a protocol or a protocol
    composition, and it yields its set of protocols. *)
Definition isExistentialType (ty : Ty) : option (list DeclID) :=
  match ty with
  | ProtocolType p => Some [p]
  | ProtocolCompositionType ps => Some ps
  | _ => None
  end.

Definition getClassOrBoundGenericClass (ty : Ty) : option DeclID :=
  match ty with
  | ClassType d | BoundGenericClassType d _ => Some d
  | _ => None
  end.

(** [llvm::SmallSetVector::insert] of a range. *)
Definition setVectorInsert (v : list DeclID) (ps : list DeclID)
    : list DeclID :=
  foldl (λ v p, if decide (p ∈ v) then v else v ++ [p]) v ps.

(** The locals of [checkInheritanceClause] that live across iterations. *)
Record ClauseState := mkClauseState {
  superclassTy : option Ty;
  allProtocols : list DeclID;
  inheritedTypes : list Ty;        (* keys of the DenseMap *)
  clauseDiags : list Diag
}.

Section WithValidator.
Context `{TypeValidator}.

(** One iteration of the loop over the inheritance clause, for entry
    number [i].  Returns the entry as validation leaves it. *)
Definition checkInherited (decl : Decl) (i : nat) (inherited : TypeLoc)
    (st : ClauseState) : TypeLoc * ClauseState :=
  match validateType (tlRepr inherited) with
  | None =>
      (* inherited.setInvalidType(tc.Context) *)
      (mkTypeLoc (tlRepr inherited) (Some ErrorType), st)
  | Some inheritedTy =>
      let inherited := mkTypeLoc (tlRepr inherited) (Some inheritedTy) in
      let diagnose dg :=
        mkClauseState (superclassTy st) (allProtocols st)
                      (inheritedTypes st) (clauseDiags st ++ [dg]) in
      if decide (inheritedTy ∈ inheritedTypes st) then
        (inherited, diagnose (duplicate_inheritance inheritedTy))
      else
        let st := mkClauseState (superclassTy st) (allProtocols st)
                                (inheritedTypes st ++ [inheritedTy])
                                (clauseDiags st) in
        let diagnose dg :=
          mkClauseState (superclassTy st) (allProtocols st)
                        (inheritedTypes st) (clauseDiags st ++ [dg]) in
        match isExistentialType inheritedTy with
        | Some protocols =>
            (inherited,
             mkClauseState (superclassTy st)
                           (setVectorInsert (allProtocols st) protocols)
                           (inheritedTypes st) (clauseDiags st))
        | None =>
            match getClassOrBoundGenericClass inheritedTy with
            | Some _ =>
                match superclassTy st with
                | Some superTy =>
                    (inherited,
                     diagnose (multiple_inheritance superTy inheritedTy))
                | None =>
                    if negb (canInheritClass decl) then
                      (inherited,
                       diagnose
                         (match declKind decl with
                          | ExtensionDecl =>
                              extension_class_inheritance
                                (getDeclaredType decl) inheritedTy
                          | _ =>
                              non_class_inheritance
                                (getDeclaredType decl) inheritedTy
                          end))
                    else
                      let st :=
                        if decide (0 < i)
                        then diagnose (superclass_not_first inheritedTy)
                        else st in
                      (inherited,
                       mkClauseState (Some inheritedTy) (allProtocols st)
                                     (inheritedTypes st) (clauseDiags st))
                end
            | None =>
                match inheritedTy with
                | ErrorType => (inherited, st)
                | _ =>
                    (inherited,
                     diagnose
                       (if canInheritClass decl
                        then inheritance_from_non_protocol_or_class
                               inheritedTy
                        else inheritance_from_non_protocol inheritedTy))
                end
            end
        end
  end.

(** The loop [for (i = 0; i != n; ++i)], from entry [i] on. *)
Fixpoint checkInheritedFrom (decl : Decl) (i : nat) (clause : list TypeLoc)
    (st : ClauseState) : list TypeLoc * ClauseState :=
  match clause with
  | [] => ([], st)
  | inherited :: rest =>
      let '(inherited, st) := checkInherited decl i inherited st in
      let '(rest, st) := checkInheritedFrom decl (S i) rest st in
      (inherited :: rest, st)
  end.

Definition needsNullConformances (decl : Decl) : bool :=
  match declKind decl with
  | ProtocolDecl => true
  | TypeAliasDecl => inProtocolContext decl || isGenericParameter decl
  | _ => false
  end.

Definition checkInheritanceClause (decl : Decl) : Decl * list Diag :=
  if alreadyCheckedInheritanceClause decl then (decl, [])
  else
    let '(clause, st) :=
      checkInheritedFrom decl 0 (getInherited decl)
                         (mkClauseState None [] [] []) in
    let decl := setInherited decl clause in
    let result :=
      if negb (nonEmpty (allProtocols st))
         && negb (bool_decide (is_Some (superclassTy st)))
      then decl
      else
        match declKind decl with
        | ExtensionDecl =>
            (* assert(!superclassTy) *)
            setProtocols decl (allProtocols st)
        | _ =>
            let decl := setProtocols decl (allProtocols st) in
            let decl :=
              (* a class, or else cast<TypeAliasDecl>: the superclass is
                 only set when canInheritClass holds *)
              match superclassTy st with
              | Some ty => setSuperclass decl ty
              | None => decl
              end in
            if needsNullConformances decl
            then setConformances decl
                   (replicate (length (allProtocols st)) None)
            else decl
        end in
    (result, clauseDiags st).

End WithValidator.

Section WithConformanceChecker.
Context `{ConformanceChecker}.

(** The locals of [gatherExplicitConformances]; [recorded] collects the
    protocols passed to [ASTContext::recordConformance] for this
    declaration. *)
Record GatherState := mkGatherState {
  knownProtocols : gset DeclID;
  gatheredProtocols : list DeclID;
  gatheredConformances : list (option ProtocolConformance);
  recorded : list DeclID
}.

(** The inner loop [for (auto proto : protocols)]. *)
Fixpoint gatherProtocols (D : Decl) (T : Ty) (protocols : list DeclID)
    (st : GatherState) : GatherState :=
  match protocols with
  | [] => st
  | proto :: rest =>
      if decide (proto ∈ knownProtocols st)
      then gatherProtocols D T rest st
      else
        let '(conforms, conformance) := conformsToProtocol T proto in
        let rec :=
          if conforms
             && (isNominalTypeDecl D
                 || bool_decide (declKind D = ExtensionDecl))
          then recorded st ++ [proto]
          else recorded st in
        gatherProtocols D T rest
          (mkGatherState ({[proto]} ∪ knownProtocols st)
                         (gatheredProtocols st ++ [proto])
                         (gatheredConformances st ++ [conformance])
                         rec)
  end.

(** The outer loop over [D->getInherited()].  [None]: an entry whose
    type is still null was dereferenced. *)
Fixpoint gatherInherited (D : Decl) (T : Ty) (clause : list TypeLoc)
    (st : GatherState) : option GatherState :=
  match clause with
  | [] => Some st
  | inherited :: rest =>
      match tlType inherited with
      | None => None
      | Some ty =>
          match isExistentialType ty with
          | Some protocols =>
              gatherInherited D T rest (gatherProtocols D T protocols st)
          | None => gatherInherited D T rest st
          end
      end
  end.

(** Returns the declaration and the conformances recorded in the
    context.  [None] also when the assertion fails that a protocol list
    of the same size is the list already set. *)
Definition gatherExplicitConformances (D : Decl) (T : Ty)
    : option (Decl * list DeclID) :=
  match gatherInherited D T (getInherited D) (mkGatherState ∅ [] [] []) with
  | None => None
  | Some st =>
      D ←
        (if decide (length (getProtocols D) = length (gatheredProtocols st))
         then
           (* Do nothing: we've already set the list of protocols. *)
           if decide (getProtocols D = gatheredProtocols st)
           then Some D
           else None (* assert(std::equal(...)): Protocol list changed? *)
         else Some (setProtocols D (gatheredProtocols st)));
      Some (setConformances D (gatheredConformances st), recorded st)
  end.

End WithConformanceChecker.

(** The gathering state mirrors a protocol vector: the pointer set holds
    its elements and the conformances are the checker's answers, index
    by index. *)
Definition mirrors `{ConformanceChecker} (T : Ty) (ps : list DeclID)
    (g : GatherState) : Prop :=
  gatheredProtocols g = ps
  ∧ (∀ p, p ∈ knownProtocols g ↔ p ∈ ps)
  ∧ gatheredConformances g = (λ p, (conformsToProtocol T p).2) <$> ps.

(** What the resolution loop has seen is covered by its protocol
    vector. *)
Definition covered (st : ClauseState) : Prop :=
  ∀ ty protocols p,
    ty ∈ inheritedTypes st → isExistentialType ty = Some protocols →
    p ∈ protocols → p ∈ allProtocols st.

(** What inheritance resolution records on a declaration. *)
Definition recordedState (d : Decl)
    : list DeclID * option Ty * list (option ProtocolConformance) :=
  (getProtocols d, getSuperclass d, getConformances d).

End Inheritance.

(** ** ObjC conformances (DeclChecker::checkObjCConformance) *)

Module ObjC.

(** The state is the set of declarations whose IsObjC bit is set;
    protocols and witnesses are declarations alike. *)
Definition setIsObjC (d : DeclID) (isObjC : gset DeclID) : gset DeclID :=
  {[d]} ∪ isObjC.

(** The body of [checkObjCConformance] once the conformance is known to
    be non-null. *)
Fixpoint checkNonNullConformance (protocol : DeclID)
    (conformance : ProtocolConformance) (isObjC : gset DeclID)
    : gset DeclID :=
  match conformance with
  | mkConformance witnesses inheritedConformances =>
      let isObjC :=
        if decide (protocol ∈ isObjC)
        then foldl (λ s mapping, setIsObjC mapping.2 s) isObjC witnesses
        else isObjC in
      foldl (λ s inherited,
               match inherited.2 with
               | None => s
               | Some c => checkNonNullConformance inherited.1 c s
               end)
            isObjC inheritedConformances
  end.

Definition checkObjCConformance (protocol : DeclID)
    (conformance : option ProtocolConformance) (isObjC : gset DeclID)
    : gset DeclID :=
  match conformance with
  | None => isObjC
  | Some c => checkNonNullConformance protocol c isObjC
  end.

(** [None]: the assertion that both arrays have the same size fails. *)
Definition checkObjCConformances (protocols : list DeclID)
    (conformances : list (option ProtocolConformance))
    (isObjC : gset DeclID) : option (gset DeclID) :=
  if decide (length protocols = length conformances) then
    Some (foldl (λ s pc, checkObjCConformance pc.1 pc.2 s) isObjC
                (zip protocols conformances))
  else None.

(** [nested p c q c']: the conformance [c'] to protocol [q] is [c]
    itself or is reached from it through inherited conformances. *)
Inductive nested
    : DeclID → ProtocolConformance → DeclID → ProtocolConformance → Prop :=
| nested_here p c : nested p c p c
| nested_inherited p c q c' r c'' :
    (q, Some c') ∈ getInheritedConformances c →
    nested q c' r c'' → nested p c r c''.

End ObjC.

(** ** Implicit constructors *)

Module ImplicitCtor.

Inductive ImplicitConstructorKind := Default | Memberwise.

Record ConstructorDeclInfo := mkConstructorDecl {
  getArguments : Pattern;
  isImplicit : bool;
  getBody : option (list N)      (* the elements of the BraceStmt *)
}.

Record StructDeclInfo := mkStructDecl {
  getMembers : list DeclID;
  hasClangNode : bool
}.

(** The declarations the AST context holds.  A constructor is always a
    [ConstructorDeclNode]; the other value declarations are
    [ValueDeclNode]s. *)
Inductive Decl :=
| ValueDeclNode (vd : ValueDecl)
| ConstructorDeclNode (ctor : ConstructorDeclInfo)
| PatternBindingDeclNode (pbd : PatternBindingDecl)
| StructDeclNode (sd : StructDeclInfo)
| OtherDeclNode.

Record TypeChecker := mkTypeChecker {
  decls : gmap DeclID Decl;
  ExternalDefinitions : list DeclID;
  structsNeedingImplicitDefaultConstructor : gset DeclID;
  structsWithImplicitDefaultConstructor : list DeclID;
  implicitlyDefinedFunctions : list DeclID;
  Diags : list Diag
}.

Definition setDecls (tc : TypeChecker) (ds : gmap DeclID Decl)
    : TypeChecker :=
  mkTypeChecker ds (ExternalDefinitions tc)
    (structsNeedingImplicitDefaultConstructor tc)
    (structsWithImplicitDefaultConstructor tc)
    (implicitlyDefinedFunctions tc) (Diags tc).

Definition isaConstructorDecl (tc : TypeChecker) (member : DeclID) : bool :=
  match decls tc !! member with
  | Some (ConstructorDeclNode _) => true
  | _ => false
  end.

Definition dyn_cast_VarDecl (tc : TypeChecker) (member : DeclID)
    : option ValueDecl :=
  match decls tc !! member with
  | Some (ValueDeclNode vd) => if isVarDecl vd then Some vd else None
  | _ => None
  end.

Definition dyn_cast_PatternBindingDecl (tc : TypeChecker) (member : DeclID)
    : option PatternBindingDecl :=
  match decls tc !! member with
  | Some (PatternBindingDeclNode pbd) => Some pbd
  | _ => None
  end.

(** Dereferencing a [StructDecl *]. *)
Definition getStruct (tc : TypeChecker) (structDecl : DeclID)
    : option StructDeclInfo :=
  match decls tc !! structDecl with
  | Some (StructDeclNode sd) => Some sd
  | _ => None
  end.

(** Modelled from the spec: ValueDecl::getTypeOfRValue is declared
    outside this file; the parameter of the memberwise constructor is
    typed identically to the member, so it is the member's type. *)
Definition getTypeOfRValue (var : ValueDecl) : option Ty := getType var.

(** The loop over the members that builds [patternElts]; [ctor] is the
    constructor the new variables end up in ([setDeclContext]). *)
Fixpoint memberwiseElements (tc : TypeChecker) (ctor : DeclID)
    (members : list DeclID) : list Pattern :=
  match members with
  | [] => []
  | member :: rest =>
      match dyn_cast_VarDecl tc member with
      | None => memberwiseElements tc ctor rest
      | Some var =>
          if isProperty var then memberwiseElements tc ctor rest
          else
            let arg := newVarDecl (getName var) (getTypeOfRValue var) ctor in
            let pattern := NamedPattern arg in
            let pattern := TypedPattern pattern (getTypeOfRValue var) in
            pattern :: memberwiseElements tc ctor rest
      end
  end.

(** Returns the new constructor, which is not yet a member of the
    struct.  Type-checking the new declaration assigns types the model
    does not track. *)
Definition createImplicitConstructor (tc : TypeChecker)
    (structDecl : DeclID) (ICK : ImplicitConstructorKind)
    : option (DeclID * TypeChecker) :=
  sd ← getStruct tc structDecl;
  let ctor := fresh (dom (decls tc)) in
  let patternElts :=
    match ICK with
    | Memberwise => memberwiseElements tc ctor (getMembers sd)
    | Default => []
    end in
  let node :=
    ConstructorDeclNode (mkConstructorDecl (TuplePattern patternElts)
                                           true None) in
  let tc := setDecls tc (<[ctor := node]> (decls tc)) in
  let tc :=
    if hasClangNode sd
    then mkTypeChecker (decls tc)
           (if decide (ctor ∈ ExternalDefinitions tc)
            then ExternalDefinitions tc
            else ExternalDefinitions tc ++ [ctor])
           (structsNeedingImplicitDefaultConstructor tc)
           (structsWithImplicitDefaultConstructor tc)
           (implicitlyDefinedFunctions tc) (Diags tc)
    else tc in
  Some (ctor, tc).

(** The first loop of [addImplicitConstructors]; it stops at the first
    constructor.  Returns [(FoundConstructor, FoundInstanceVar)]. *)
Fixpoint findConstructorOrInstanceVar (tc : TypeChecker)
    (members : list DeclID) (FoundInstanceVar : bool) : bool * bool :=
  match members with
  | [] => (false, FoundInstanceVar)
  | member :: rest =>
      if isaConstructorDecl tc member then (true, FoundInstanceVar)
      else
        findConstructorOrInstanceVar tc rest
          (match dyn_cast_VarDecl tc member with
           | Some var =>
               if negb (isProperty var) then true else FoundInstanceVar
           | None => FoundInstanceVar
           end)
  end.

(** [members.push_back(ctor); structDecl->setMembers(...)]. *)
Definition appendMember (tc : TypeChecker) (structDecl ctor : DeclID)
    : option TypeChecker :=
  sd ← getStruct tc structDecl;
  Some (setDecls tc
          (<[structDecl :=
               StructDeclNode (mkStructDecl (getMembers sd ++ [ctor])
                                            (hasClangNode sd))]>
             (decls tc))).

(** [None]: the struct is not there, or the assertion fails that it is
    not yet in the set of structs needing a default constructor. *)
Definition addImplicitConstructors (tc : TypeChecker) (structDecl : DeclID)
    : option TypeChecker :=
  sd ← getStruct tc structDecl;
  let '(FoundConstructor, FoundInstanceVar) :=
    findConstructorOrInstanceVar tc (getMembers sd) false in
  if negb FoundConstructor then
    '(ctor, tc) ← createImplicitConstructor tc structDecl Memberwise;
    tc ← appendMember tc structDecl ctor;
    if FoundInstanceVar then
      if decide (structDecl ∈ structsNeedingImplicitDefaultConstructor tc)
      then None (* assert(!structsNeeding...count(structDecl)) *)
      else
        Some (mkTypeChecker (decls tc) (ExternalDefinitions tc)
                ({[structDecl]} ∪ structsNeedingImplicitDefaultConstructor tc)
                (structsWithImplicitDefaultConstructor tc ++ [structDecl])
                (implicitlyDefinedFunctions tc) (Diags tc))
    else Some tc
  else Some tc.

Section WithLookup.
Context `{NameLookup}.

(** The loop over the variables of one binding.  [None]: a variable
    without a type was dereferenced, or an assertion of
    [isDefaultInitializable] failed; [Some false]: the function returns
    because a variable is not default-initializable. *)
Fixpoint variablesDefaultInitializable (variables : list ValueDecl)
    : option bool :=
  match variables with
  | [] => Some true
  | var :: rest =>
      if isProperty var then variablesDefaultInitializable rest
      else
        match getType var with
        | None => None
        | Some ty =>
            match DefaultInit.isDefaultInitializable ty false with
            | None => None
            | Some (false, _) => Some false
            | Some (true, _) => variablesDefaultInitializable rest
            end
        end
  end.

(** The loop over the members of the struct, with the same outcomes. *)
Fixpoint membersDefaultInitializable (tc : TypeChecker)
    (members : list DeclID) : option bool :=
  match members with
  | [] => Some true
  | member :: rest =>
      match dyn_cast_PatternBindingDecl tc member with
      | None => membersDefaultInitializable tc rest
      | Some patternBind =>
          match getInit patternBind with
          | Some _ => membersDefaultInitializable tc rest
          | None =>
              match variablesDefaultInitializable
                      (collectVariables (getPattern patternBind)) with
              | None => None
              | Some true => membersDefaultInitializable tc rest
              | Some false => Some false
              end
          end
      end
  end.

Definition setBody (tc : TypeChecker) (ctor : DeclID) (body : list N)
    : TypeChecker :=
  match decls tc !! ctor with
  | Some (ConstructorDeclNode c) =>
      setDecls tc
        (<[ctor := ConstructorDeclNode
                     (mkConstructorDecl (getArguments c) (isImplicit c)
                                        (Some body))]> (decls tc))
  | _ => tc
  end.

(** [None]: the assertion fails that the struct is in the set of
    structs needing a default constructor, the struct is not there, or
    the loop over its members ends with [None]. *)
Definition defineDefaultConstructor (tc : TypeChecker) (structDecl : DeclID)
    : option TypeChecker :=
  if decide (structDecl ∉ structsNeedingImplicitDefaultConstructor tc)
  then None (* assert(structsNeeding...count(structDecl)) *)
  else
  let tc :=
    mkTypeChecker (decls tc) (ExternalDefinitions tc)
      (structsNeedingImplicitDefaultConstructor tc ∖ {[structDecl]})
      (structsWithImplicitDefaultConstructor tc)
      (implicitlyDefinedFunctions tc) (Diags tc) in
  sd ← getStruct tc structDecl;
  ok ← membersDefaultInitializable tc (getMembers sd);
  if negb ok then Some tc
  else
    '(ctor, tc) ← createImplicitConstructor tc structDecl Default;
    tc ← appendMember tc structDecl ctor;
    let tc := setBody tc ctor [] in
    Some (mkTypeChecker (decls tc) (ExternalDefinitions tc)
            (structsNeedingImplicitDefaultConstructor tc)
            (structsWithImplicitDefaultConstructor tc)
            (implicitlyDefinedFunctions tc ++ [ctor]) (Diags tc)).

(** The loop of [definePendingImplicitDecls] over the given structs. *)
Fixpoint definePending (tc : TypeChecker) (structs : list DeclID)
    : option TypeChecker :=
  match structs with
  | [] => Some tc
  | structDecl :: rest =>
      if decide (structDecl ∈ structsNeedingImplicitDefaultConstructor tc)
      then
        match defineDefaultConstructor tc structDecl with
        | None => None
        | Some tc => definePending tc rest
        end
      else definePending tc rest
  end.

Definition definePendingImplicitDecls (tc : TypeChecker)
    : option TypeChecker :=
  definePending tc (structsWithImplicitDefaultConstructor tc).

End WithLookup.

(** The stored members a memberwise constructor gets a parameter for:
    the variables among the members that are not properties. *)
Definition storedMembers (tc : TypeChecker) (members : list DeclID)
    : list ValueDecl :=
  omap (λ m, var ← dyn_cast_VarDecl tc m;
             if isProperty var then None else Some var) members.

(** The parameter that the memberwise constructor [ctor] has for the
    stored member [var]: a pattern typed like the member, over a new
    variable of the constructor with the name and the type of the
    member. *)
Definition parameterFor (ctor : DeclID) (var : ValueDecl) (param : Pattern)
    : Prop :=
  ∃ arg,
    param = TypedPattern (NamedPattern arg) (getType var)
    ∧ isVarDecl arg = true ∧ isProperty arg = false
    ∧ getName arg = getName var ∧ getType arg = getType var
    ∧ getDeclContext arg = ctor.

(** The stored variables a default constructor would have to
    initialize: those bound by the member bindings without an
    initializer. *)
Definition uninitializedStoredVariables (tc : TypeChecker)
    (members : list DeclID) : list ValueDecl :=
  flat_map
    (λ m, match dyn_cast_PatternBindingDecl tc m with
          | Some pbd =>
              match getInit pbd with
              | Some _ => []
              | None =>
                  List.filter (λ var, negb (isProperty var))
                              (collectVariables (getPattern pbd))
              end
          | None => []
          end) members.

(** The first statement of [defineDefaultConstructor]: the struct is
    erased from the set. *)
Definition withoutNeeding (tc : TypeChecker) (structDecl : DeclID)
    : TypeChecker :=
  mkTypeChecker (decls tc) (ExternalDefinitions tc)
    (structsNeedingImplicitDefaultConstructor tc ∖ {[structDecl]})
    (structsWithImplicitDefaultConstructor tc)
    (implicitlyDefinedFunctions tc) (Diags tc).

(** A stored variable can be default-initialized when its type is
    default-initializable. *)
Definition defaultInitializableVar `{NameLookup} (var : ValueDecl) : bool :=
  match getType var with
  | Some ty =>
      match DefaultInit.isDefaultInitializable ty false with
      | Some (answer, _) => answer
      | None => false
      end
  | None => false
  end.

(** The default constructor: no parameters, an empty body. *)
Definition defaultConstructor : Decl :=
  ConstructorDeclNode (mkConstructorDecl (TuplePattern []) true (Some [])).

(** [unchangedOutside tc tc']: the final pass only adds declarations,
    rewrites struct declarations that still need a default constructor,
    takes structs out of that set, appends to the implicitly defined
    functions and reports nothing. *)
Definition isStructNode (d : Decl) : bool :=
  match d with StructDeclNode _ => true | _ => false end.

Record unchangedOutside (tc tc' : TypeChecker) : Prop := {
  uo_diags : Diags tc' = Diags tc;
  uo_needing :
    structsNeedingImplicitDefaultConstructor tc'
    ⊆ structsNeedingImplicitDefaultConstructor tc;
  uo_functions :
    ∀ c, c ∈ implicitlyDefinedFunctions tc →
         c ∈ implicitlyDefinedFunctions tc';
  uo_dom : ∀ d, is_Some (decls tc !! d) → is_Some (decls tc' !! d);
  uo_kept :
    ∀ d node, decls tc !! d = Some node →
      d ∉ structsNeedingImplicitDefaultConstructor tc
      ∨ isStructNode node = false →
      decls tc' !! d = Some node;
  uo_bindings :
    ∀ d pbd, decls tc' !! d = Some (PatternBindingDeclNode pbd) →
             decls tc !! d = Some (PatternBindingDeclNode pbd)
}.

(** The uninitialized stored variables of the struct have been given a
    type, in which no tuple element carries a default value (the
    assertion of [isDefaultInitializable]); the pending structs are
    well-formed when each one that still needs a default constructor is
    such a struct declaration. *)
Definition typedStoredVariables (tc : TypeChecker) (sd : StructDeclInfo)
    : Prop :=
  ∀ var, var ∈ uninitializedStoredVariables tc (getMembers sd) →
         ∃ ty, getType var = Some ty
               ∧ DefaultInit.withoutElementInitializers ty = true.

Definition wellFormedPending (tc : TypeChecker) (structs : list DeclID)
    : Prop :=
  ∀ x, x ∈ structs → x ∈ structsNeedingImplicitDefaultConstructor tc →
       ∃ sd, getStruct tc x = Some sd ∧ typedStoredVariables tc sd.

End ImplicitCtor.

(** ** Attribute validation (DeclChecker::validateAttributes) *)

(** Queries on declaration contexts, types and names that other parts of
    the compiler answer. *)
Class ASTQueries := {
  isModuleContext : DeclID → bool;
  isTypeContext : DeclID → bool;
  getDeclaredTypeOfContext : DeclID → option Ty;
  getDeclaredTypeInContext : DeclID → option Ty;
  isaClassDeclContext : DeclID → bool;
  classIsObjC : DeclID → bool;
  allowsOwnership : Ty → bool;
  isMaterializable : Ty → bool;
  isOperatorName : Identifier → bool
}.

Module Attributes.

(** The attributes in the order in which they are validated. *)
Inductive Attribute :=
| AK_objc
| AK_ownership
| AK_iboutlet
| AK_ibaction
| AK_infix
| AK_postfix
| AK_prefix
| AK_assignment
| AK_conversion
| AK_force_inline
| AK_byref
| AK_auto_closure
| AK_objc_block
| AK_class_protocol
| AK_cc
| AK_thin
| AK_noreturn.

#[global] Instance Attribute_eq_dec : EqDecision Attribute.
Proof. solve_decision. Defined.

Definition isSet (k : Attribute) (a : DeclAttributes) : bool :=
  match k with
  | AK_objc => ObjC a
  | AK_ownership => bool_decide (is_Some (ownership a))
  | AK_iboutlet => IBOutlet a
  | AK_ibaction => IBAction a
  | AK_infix => Infix a
  | AK_postfix => ExplicitPostfix a
  | AK_prefix => ExplicitPrefix a
  | AK_assignment => Assignment a
  | AK_conversion => Conversion a
  | AK_force_inline => ForceInline a
  | AK_byref => Byref a
  | AK_auto_closure => AutoClosure a
  | AK_objc_block => ObjCBlock a
  | AK_class_protocol => ClassProtocol a
  | AK_cc => bool_decide (is_Some (cc a))
  | AK_thin => Thin a
  | AK_noreturn => NoReturn a
  end.

Definition clearAttribute (k : Attribute) (a : DeclAttributes)
    : DeclAttributes :=
  match k with
  | AK_objc =>
      mkDeclAttributes false (ownership a) (IBOutlet a) (IBAction a)
        (Infix a) (ExplicitPostfix a) (ExplicitPrefix a) (Assignment a)
        (Conversion a) (ForceInline a) (Byref a) (AutoClosure a)
        (ObjCBlock a) (ClassProtocol a) (cc a) (Thin a) (NoReturn a)
  | AK_ownership =>
      mkDeclAttributes (ObjC a) None (IBOutlet a) (IBAction a) (Infix a)
        (ExplicitPostfix a) (ExplicitPrefix a) (Assignment a) (Conversion a)
        (ForceInline a) (Byref a) (AutoClosure a) (ObjCBlock a)
        (ClassProtocol a) (cc a) (Thin a) (NoReturn a)
  | AK_iboutlet =>
      mkDeclAttributes (ObjC a) (ownership a) false (IBAction a) (Infix a)
        (ExplicitPostfix a) (ExplicitPrefix a) (Assignment a) (Conversion a)
        (ForceInline a) (Byref a) (AutoClosure a) (ObjCBlock a)
        (ClassProtocol a) (cc a) (Thin a) (NoReturn a)
  | AK_ibaction =>
      mkDeclAttributes (ObjC a) (ownership a) (IBOutlet a) false (Infix a)
        (ExplicitPostfix a) (ExplicitPrefix a) (Assignment a) (Conversion a)
        (ForceInline a) (Byref a) (AutoClosure a) (ObjCBlock a)
        (ClassProtocol a) (cc a) (Thin a) (NoReturn a)
  | AK_infix =>
      mkDeclAttributes (ObjC a) (ownership a) (IBOutlet a) (IBAction a)
        false (ExplicitPostfix a) (ExplicitPrefix a) (Assignment a)
        (Conversion a) (ForceInline a) (Byref a) (AutoClosure a)
        (ObjCBlock a) (ClassProtocol a) (cc a) (Thin a) (NoReturn a)
  | AK_postfix =>
      mkDeclAttributes (ObjC a) (ownership a) (IBOutlet a) (IBAction a)
        (Infix a) false (ExplicitPrefix a) (Assignment a) (Conversion a)
        (ForceInline a) (Byref a) (AutoClosure a) (ObjCBlock a)
        (ClassProtocol a) (cc a) (Thin a) (NoReturn a)
  | AK_prefix =>
      mkDeclAttributes (ObjC a) (ownership a) (IBOutlet a) (IBAction a)
        (Infix a) (ExplicitPostfix a) false (Assignment a) (Conversion a)
        (ForceInline a) (Byref a) (AutoClosure a) (ObjCBlock a)
        (ClassProtocol a) (cc a) (Thin a) (NoReturn a)
  | AK_assignment =>
      mkDeclAttributes (ObjC a) (ownership a) (IBOutlet a) (IBAction a)
        (Infix a) (ExplicitPostfix a) (ExplicitPrefix a) false
        (Conversion a) (ForceInline a) (Byref a) (AutoClosure a)
        (ObjCBlock a) (ClassProtocol a) (cc a) (Thin a) (NoReturn a)
  | AK_conversion =>
      mkDeclAttributes (ObjC a) (ownership a) (IBOutlet a) (IBAction a)
        (Infix a) (ExplicitPostfix a) (ExplicitPrefix a) (Assignment a)
        false (ForceInline a) (Byref a) (AutoClosure a) (ObjCBlock a)
        (ClassProtocol a) (cc a) (Thin a) (NoReturn a)
  | AK_force_inline =>
      mkDeclAttributes (ObjC a) (ownership a) (IBOutlet a) (IBAction a)
        (Infix a) (ExplicitPostfix a) (ExplicitPrefix a) (Assignment a)
        (Conversion a) false (Byref a) (AutoClosure a) (ObjCBlock a)
        (ClassProtocol a) (cc a) (Thin a) (NoReturn a)
  | AK_byref =>
      mkDeclAttributes (ObjC a) (ownership a) (IBOutlet a) (IBAction a)
        (Infix a) (ExplicitPostfix a) (ExplicitPrefix a) (Assignment a)
        (Conversion a) (ForceInline a) false (AutoClosure a) (ObjCBlock a)
        (ClassProtocol a) (cc a) (Thin a) (NoReturn a)
  | AK_auto_closure =>
      mkDeclAttributes (ObjC a) (ownership a) (IBOutlet a) (IBAction a)
        (Infix a) (ExplicitPostfix a) (ExplicitPrefix a) (Assignment a)
        (Conversion a) (ForceInline a) (Byref a) false (ObjCBlock a)
        (ClassProtocol a) (cc a) (Thin a) (NoReturn a)
  | AK_objc_block =>
      mkDeclAttributes (ObjC a) (ownership a) (IBOutlet a) (IBAction a)
        (Infix a) (ExplicitPostfix a) (ExplicitPrefix a) (Assignment a)
        (Conversion a) (ForceInline a) (Byref a) (AutoClosure a) false
        (ClassProtocol a) (cc a) (Thin a) (NoReturn a)
  | AK_class_protocol =>
      mkDeclAttributes (ObjC a) (ownership a) (IBOutlet a) (IBAction a)
        (Infix a) (ExplicitPostfix a) (ExplicitPrefix a) (Assignment a)
        (Conversion a) (ForceInline a) (Byref a) (AutoClosure a)
        (ObjCBlock a) false (cc a) (Thin a) (NoReturn a)
  | AK_cc =>
      mkDeclAttributes (ObjC a) (ownership a) (IBOutlet a) (IBAction a)
        (Infix a) (ExplicitPostfix a) (ExplicitPrefix a) (Assignment a)
        (Conversion a) (ForceInline a) (Byref a) (AutoClosure a)
        (ObjCBlock a) (ClassProtocol a) None (Thin a) (NoReturn a)
  | AK_thin =>
      mkDeclAttributes (ObjC a) (ownership a) (IBOutlet a) (IBAction a)
        (Infix a) (ExplicitPostfix a) (ExplicitPrefix a) (Assignment a)
        (Conversion a) (ForceInline a) (Byref a) (AutoClosure a)
        (ObjCBlock a) (ClassProtocol a) (cc a) false (NoReturn a)
  | AK_noreturn =>
      mkDeclAttributes (ObjC a) (ownership a) (IBOutlet a) (IBAction a)
        (Infix a) (ExplicitPostfix a) (ExplicitPrefix a) (Assignment a)
        (Conversion a) (ForceInline a) (Byref a) (AutoClosure a)
        (ObjCBlock a) (ClassProtocol a) (cc a) (Thin a) false
  end.

Definition setAttrs (VD : ValueDecl) (a : DeclAttributes) : ValueDecl :=
  mkValueDecl (vdKind VD) (getName VD) a (getType VD) (getDeclContext VD)
              (IsObjC VD) (isInstanceMember VD).

Definition clear (k : Attribute) (VD : ValueDecl) : ValueDecl :=
  setAttrs VD (clearAttribute k (getAttrs VD)).

Definition overwriteType (VD : ValueDecl) (ty : Ty) : ValueDecl :=
  mkValueDecl (vdKind VD) (getName VD) (getAttrs VD) (Some ty)
              (getDeclContext VD) (IsObjC VD) (isInstanceMember VD).

Definition setIsObjC (VD : ValueDecl) (b : bool) : ValueDecl :=
  mkValueDecl (vdKind VD) (getName VD) (getAttrs VD) (getType VD)
              (getDeclContext VD) b (isInstanceMember VD).

Definition dyn_cast_FuncDecl (VD : ValueDecl) : option FuncInfo :=
  match vdKind VD with FuncDecl fd => Some fd | _ => None end.

Definition isaFuncDecl (VD : ValueDecl) : bool :=
  bool_decide (is_Some (dyn_cast_FuncDecl VD)).

Definition isaClassDecl (VD : ValueDecl) : bool :=
  match vdKind VD with ClassDecl => true | _ => false end.

Definition isaProtocolDecl (VD : ValueDecl) : bool :=
  match vdKind VD with ProtocolDecl _ => true | _ => false end.

(** [getAs<AnyFunctionType>]: input and result. *)
Definition asAnyFunctionType (ty : Ty) : option (Ty * Ty) :=
  match ty with
  | FunctionType input result | PolymorphicFunctionType input result _ =>
      Some (input, result)
  | _ => None
  end.

Definition asTupleType (ty : Ty) : option (list (TupleTypeElt Ty)) :=
  match ty with TupleType fields => Some fields | _ => None end.

Definition isLValueType (ty : Ty) : bool :=
  match ty with LValueType _ => true | _ => false end.

Definition isErrorType (ty : Ty) : bool :=
  match ty with ErrorType => true | _ => false end.

Definition isArchetypeType (ty : Ty) : bool :=
  match ty with ArchetypeType _ => true | _ => false end.

Definition isExistential (ty : Ty) : bool :=
  match ty with
  | ProtocolType _ | ProtocolCompositionType _ => true
  | _ => false
  end.

Definition classOrBoundGenericClass (ty : Ty) : option DeclID :=
  match ty with
  | ClassType d | BoundGenericClassType d _ => Some d
  | _ => None
  end.

(** How a block of the function ends: with [return], or by falling
    through to the next block. *)
Inductive Flow := Return | Continue.

(** A block yields the declaration as it leaves it and the diagnostics
    it issued; [None] is a null dereference, a failed [castTo] or an
    element access out of range. *)
Abbreviation Outcome := (option (Flow * ValueDecl * list Diag)).

Section WithQueries.
Context `{ASTQueries}.

Definition isOperator (VD : ValueDecl) : bool := isOperatorName (getName VD).

(** The lambda [isInClassContext]. *)
Definition isInClassContext (vd : ValueDecl) : option bool :=
  ty ← getDeclaredTypeOfContext (getDeclContext vd);
  Some (bool_decide (is_Some (classOrBoundGenericClass ty))).

(** The number of lexical arguments, [-1] when unknown. *)
Definition numArguments (VD : ValueDecl) : option Z :=
  match dyn_cast_FuncDecl VD with
  | None => Some (-1)%Z
  | Some FD =>
      Ty ← getType VD;
      match asAnyFunctionType Ty with
      | None => Some (-1)%Z
      | Some FT =>
          FT ← (if isTypeContext (getDeclContext VD) && isStatic FD
                then asAnyFunctionType FT.2
                else Some FT);
          match asTupleType FT.1 with
          | Some fields => Some (Z.of_nat (length fields))
          | None => Some (-1)%Z
          end
      end
  end.

Definition operatorBlock (VD : ValueDecl) : Outcome :=
  if isOperator VD then
    match dyn_cast_FuncDecl VD with
    | None => Some (Return, VD, [operator_not_func])
    | Some FD =>
        if isUnaryOperator FD && bool_decide (getName VD = "&")
           && negb (ExplicitPostfix (getAttrs VD))
        then Some (Return, VD, [custom_operator_addressof])
        else Some (Continue, VD, [])
    end
  else Some (Continue, VD, []).

Definition objcBlock (VD : ValueDecl) : Outcome :=
  if ObjC (getAttrs VD) then
    error ←
      (if isaClassDecl VD then Some None
       else
         inClass ← (if isaFuncDecl VD then isInClassContext VD
                    else Some false);
         if isaFuncDecl VD && inClass then
           Some (if isOperator VD then Some invalid_objc_decl else None)
         else
           inClass ← (if isVarDecl VD then isInClassContext VD
                      else Some false);
           if isVarDecl VD && inClass then Some None
           else
             match vdKind VD with
             | ProtocolDecl requiresClass =>
                 Some (if negb requiresClass
                       then Some objc_protocol_not_class_protocol
                       else None)
             | _ => Some (Some invalid_objc_decl)
             end);
    match error with
    | Some dg => Some (Return, clear AK_objc VD, [dg])
    | None => Some (Continue, VD, [])
    end
  else Some (Continue, VD, []).

Definition ownershipBlock (VD : ValueDecl) : Outcome :=
  match ownership (getAttrs VD) with
  | Some ownershipKind =>
      if negb (isVarDecl VD) then
        Some (Return, clear AK_ownership VD,
              [invalid_ownership_decl ownershipKind])
      else
        ty ← getType VD;
        if negb (allowsOwnership ty) then
          Some (Return, clear AK_ownership VD,
                [if isExistential ty || isArchetypeType ty
                 then invalid_ownership_opaque_type ownershipKind ty
                 else invalid_ownership_type ownershipKind ty])
        else
          Some (Continue,
                overwriteType VD (ReferenceStorageType ownershipKind ty),
                [])
  | None => Some (Continue, VD, [])
  end.

Definition iboutletBlock (VD : ValueDecl) : Outcome :=
  if IBOutlet (getAttrs VD) then
    inClass ← (if isVarDecl VD then isInClassContext VD else Some false);
    if negb (isVarDecl VD && inClass)
    then Some (Return, clear AK_iboutlet VD, [invalid_iboutlet])
    else Some (Continue, VD, [])
  else Some (Continue, VD, []).

Definition ibactionBlock (VD : ValueDecl) : Outcome :=
  if IBAction (getAttrs VD) then
    match dyn_cast_FuncDecl VD with
    | Some FD =>
        if negb (isaClassDeclContext (getDeclContext VD))
           || isStatic FD || isGetterOrSetter FD
        then Some (Return, clear AK_ibaction VD, [invalid_ibaction_decl])
        else
          ty ← getType VD;
          FT ← asAnyFunctionType ty;
          let CurriedTy := FT.2 in
          FT ← asAnyFunctionType CurriedTy;
          let ResultTy := FT.2 in
          if negb (bool_decide (ResultTy = TupleType []))
          then Some (Return, clear AK_ibaction VD,
                     [invalid_ibaction_result ResultTy])
          else Some (Continue, VD, [])
    | None => Some (Return, clear AK_ibaction VD, [invalid_ibaction_decl])
    end
  else Some (Continue, VD, []).

Definition infixBlock (VD : ValueDecl) : Outcome :=
  if Infix (getAttrs VD) then
    if negb (isOperator VD) then Some (Return, VD, [infix_not_an_operator])
    else
      match dyn_cast_FuncDecl VD with
      | Some FD =>
          if negb (isBinaryOperator FD)
          then Some (Return, VD, [invalid_infix_input])
          else Some (Continue, VD, [])
      | None => Some (Return, VD, [invalid_infix_input])
      end
  else Some (Continue, VD, []).

Definition postfixBlock (VD : ValueDecl) : Outcome :=
  if ExplicitPostfix (getAttrs VD) then
    if negb (isOperator VD)
    then Some (Return, clear AK_postfix VD, [postfix_not_an_operator])
    else
      match dyn_cast_FuncDecl VD with
      | Some FD =>
          if negb (isUnaryOperator FD)
          then Some (Return, clear AK_postfix VD, [invalid_postfix_input])
          else Some (Continue, VD, [])
      | None => Some (Return, clear AK_postfix VD, [invalid_postfix_input])
      end
  else Some (Continue, VD, []).

(** The prefix block clears [ExplicitPostfix], as the source does. *)
Definition prefixBlock (VD : ValueDecl) : Outcome :=
  if ExplicitPrefix (getAttrs VD) then
    if negb (isOperator VD)
    then Some (Return, clear AK_postfix VD, [prefix_not_an_operator])
    else
      match dyn_cast_FuncDecl VD with
      | Some FD =>
          if negb (isUnaryOperator FD)
          then Some (Return, clear AK_postfix VD, [invalid_prefix_input])
          else Some (Continue, VD, [])
      | None => Some (Return, clear AK_postfix VD, [invalid_prefix_input])
      end
  else Some (Continue, VD, []).

Definition assignmentBlock (NumArguments : Z) (VD : ValueDecl) : Outcome :=
  if Assignment (getAttrs VD) then
    if negb (isaFuncDecl VD) || negb (isOperator VD) then
      Some (Continue, clear AK_assignment VD,
            [invalid_decl_attribute "assignment"])
    else if bool_decide (NumArguments < 1)%Z then
      Some (Continue, clear AK_assignment VD, [assignment_without_byref])
    else
      ty ← getType VD;
      FT ← asAnyFunctionType ty;
      let ParamType := FT.1 in
      ParamType ←
        match asTupleType ParamType with
        | Some fields => eltType <$> fields !! 0
        | None => Some ParamType
        end;
      if negb (isLValueType ParamType)
      then Some (Continue, clear AK_assignment VD,
                 [assignment_without_byref])
      else Some (Continue, VD, [])
  else Some (Continue, VD, []).

Definition conversionBlock (VD : ValueDecl) : Outcome :=
  if Conversion (getAttrs VD) then
    if negb (isaFuncDecl VD) || negb (isInstanceMember VD) then
      Some (Continue, clear AK_conversion VD,
            [conversion_not_instance_method (getName VD)])
    else
      ty ← getType VD;
      if negb (isErrorType ty) then
        FT ← asAnyFunctionType ty;
        BoundMethodTy ← asAnyFunctionType FT.2;
        let InputTy := BoundMethodTy.1 in
        let AcceptsEmptyParamList :=
          match asTupleType InputTy with
          | Some fields => forallb eltHasInit fields
          | None => false
          end in
        if negb AcceptsEmptyParamList
        then Some (Continue, clear AK_conversion VD,
                   [conversion_params (getName VD)])
        else Some (Continue, VD, [])
      else Some (Continue, VD, [])
  else Some (Continue, VD, []).

Definition forceInlineBlock (VD : ValueDecl) : Outcome :=
  if ForceInline (getAttrs VD) then
    match dyn_cast_FuncDecl VD with
    | None =>
        Some (Continue, clear AK_force_inline VD, [force_inline_not_function])
    | Some FD =>
        if bool_decide (1 < getNumParamPatterns FD) then
          Some (Continue, clear AK_force_inline VD,
                [force_inline_curry_not_supported])
        else if hasGenericParams FD then
          Some (Continue, clear AK_force_inline VD,
                [force_inline_generic_not_supported])
        else Some (Continue, VD, [])
    end
  else Some (Continue, VD, []).

(** The blocks for attributes that no declaration may carry. *)
Definition invalidBlock (k : Attribute) (name : string) (VD : ValueDecl)
    : Outcome :=
  if isSet k (getAttrs VD)
  then Some (Continue, clear k VD, [invalid_decl_attribute name])
  else Some (Continue, VD, []).

Definition classProtocolBlock (VD : ValueDecl) : Outcome :=
  if ClassProtocol (getAttrs VD) && negb (isaProtocolDecl VD)
  then Some (Continue, clear AK_class_protocol VD,
             [class_protocol_not_protocol])
  else Some (Continue, VD, []).

(** Sequencing: a block that returns ends the function. *)
Fixpoint runBlocks (blocks : list (ValueDecl → Outcome)) (VD : ValueDecl)
    : Outcome :=
  match blocks with
  | [] => Some (Continue, VD, [])
  | block :: rest =>
      match block VD with
      | None => None
      | Some (Return, VD, ds) => Some (Return, VD, ds)
      | Some (Continue, VD, ds) =>
          match runBlocks rest VD with
          | None => None
          | Some (flow, VD, ds') => Some (flow, VD, ds ++ ds')
          end
      end
  end.

(** The blocks that end the function when their check fails. *)
Definition returningBlocks : list (ValueDecl → Outcome) :=
  [operatorBlock; objcBlock; ownershipBlock; iboutletBlock; ibactionBlock;
   infixBlock; postfixBlock; prefixBlock].

(** The blocks that clear their attribute and go on. *)
Definition clearingBlocks (NumArguments : Z) : list (ValueDecl → Outcome) :=
  [assignmentBlock NumArguments; conversionBlock; forceInlineBlock;
   invalidBlock AK_byref "byref"; invalidBlock AK_auto_closure "auto_closure";
   invalidBlock AK_objc_block "objc_block"; classProtocolBlock;
   invalidBlock AK_cc "cc"; invalidBlock AK_thin "thin";
   invalidBlock AK_noreturn "noreturn"].

Definition validateAttributes (VD : ValueDecl)
    : option (ValueDecl * list Diag) :=
  NumArguments ← numArguments VD;
  '(_, VD, ds) ← runBlocks (returningBlocks ++ clearingBlocks NumArguments) VD;
  Some (VD, ds).

End WithQueries.

(** The attribute a diagnostic is about, if any. *)
Definition diagnosedAttribute (dg : Diag) : option Attribute :=
  match dg with
  | invalid_objc_decl | objc_protocol_not_class_protocol => Some AK_objc
  | invalid_ownership_decl _ | invalid_ownership_opaque_type _ _
  | invalid_ownership_type _ _ => Some AK_ownership
  | invalid_iboutlet => Some AK_iboutlet
  | invalid_ibaction_decl | invalid_ibaction_result _ => Some AK_ibaction
  | infix_not_an_operator | invalid_infix_input => Some AK_infix
  | postfix_not_an_operator | invalid_postfix_input => Some AK_postfix
  | prefix_not_an_operator | invalid_prefix_input => Some AK_prefix
  | assignment_without_byref => Some AK_assignment
  | conversion_not_instance_method _ | conversion_params _ =>
      Some AK_conversion
  | force_inline_not_function | force_inline_curry_not_supported
  | force_inline_generic_not_supported => Some AK_force_inline
  | class_protocol_not_protocol => Some AK_class_protocol
  | invalid_decl_attribute name =>
      if decide (name = "assignment") then Some AK_assignment
      else if decide (name = "byref") then Some AK_byref
      else if decide (name = "auto_closure") then Some AK_auto_closure
      else if decide (name = "objc_block") then Some AK_objc_block
      else if decide (name = "cc") then Some AK_cc
      else if decide (name = "thin") then Some AK_thin
      else if decide (name = "noreturn") then Some AK_noreturn
      else None
  | _ => None
  end.

(** The attributes whose violation ends validation, and those whose
    violation is cleared before validation goes on. *)
Definition returning (k : Attribute) : bool :=
  match k with
  | AK_objc | AK_ownership | AK_iboutlet | AK_ibaction | AK_infix
  | AK_postfix | AK_prefix => true
  | _ => false
  end.

Definition neverValid (k : Attribute) : bool :=
  match k with
  | AK_byref | AK_auto_closure | AK_objc_block | AK_cc | AK_thin
  | AK_noreturn => true
  | _ => false
  end.

(** What a failed check does to the attributes: it clears the attribute,
    except that infix is left alone and that the prefix check clears
    [ExplicitPostfix]. *)
Definition effect (k : Attribute) (a : DeclAttributes) : DeclAttributes :=
  match k with
  | AK_infix => a
  | AK_prefix => clearAttribute AK_postfix a
  | _ => clearAttribute k a
  end.

(** Validation never changes what kind of declaration it looks at. *)
Definition sameShape (VD V : ValueDecl) : Prop :=
  vdKind V = vdKind VD ∧ getName V = getName VD
  ∧ isInstanceMember V = isInstanceMember VD.

(** What the block of attribute [k0] does: nothing, or one diagnostic
    about [k0] with its effect on the attributes. *)
Definition blockSpec `{ASTQueries} (k0 : Attribute) (VD : ValueDecl)
    (flow : Flow) (V : ValueDecl) (d : list Diag) : Prop :=
  sameShape VD V
  ∧ ((getAttrs V = getAttrs VD ∧ d = [] ∧ flow = Continue)
     ∨ (∃ dg, d = [dg] ∧ diagnosedAttribute dg = Some k0
              ∧ isSet k0 (getAttrs VD) = true
              ∧ flow = (if returning k0 then Return else Continue)
              ∧ getAttrs V = effect k0 (getAttrs VD))).

(** The attributes of the clearing blocks, in their order. *)
Definition clearingAttributes : list Attribute :=
  [AK_assignment; AK_conversion; AK_force_inline; AK_byref; AK_auto_closure;
   AK_objc_block; AK_class_protocol; AK_cc; AK_thin; AK_noreturn].

(** *** The preconditions of the attributes

    What a declaration has to be to carry an attribute, after the
    comments and the diagnostics of [validateAttributes].  These
    definitions state the requirements; the blocks above follow the
    code, and the two are compared in Part II. *)

Section Preconditions.
Context `{ASTQueries}.

(** The declaration sits in a class or in an extension of a class. *)
Definition inClassContext (VD : ValueDecl) : bool :=
  match isInClassContext VD with
  | Some inClass => inClass
  | None => false
  end.

(** The result type of a method of type [Class -> (...) -> Result]. *)
Definition curriedResultType (VD : ValueDecl) : option Ty :=
  ty ← getType VD;
  FT ← asAnyFunctionType ty;
  FT ← asAnyFunctionType FT.2;
  Some FT.2.

(** The first parameter of the function is byref: the input type, or the
    type of its first element when it is a tuple, is an lvalue type. *)
Definition firstParameterByref (VD : ValueDecl) : bool :=
  match getType VD ≫= asAnyFunctionType with
  | Some FT =>
      match asTupleType FT.1 with
      | Some fields =>
          match fields !! 0 with
          | Some elt => isLValueType (eltType elt)
          | None => false
          end
      | None => isLValueType FT.1
      end
  | None => false
  end.

(** The bound method takes a tuple of parameters that all have a
    default value. *)
Definition noNonDefaultedParameters (VD : ValueDecl) : bool :=
  match (getType VD ≫= asAnyFunctionType) ≫= (λ FT, asAnyFunctionType FT.2)
  with
  | Some BoundMethodTy =>
      match asTupleType BoundMethodTy.1 with
      | Some fields => forallb eltHasInit fields
      | None => false
      end
  | None => false
  end.

Definition precondition (k : Attribute) (VD : ValueDecl) : bool :=
  match k with
  | AK_objc =>
      (* Only classes, class protocols, instance properties, and methods
         can be ObjC. *)
      match vdKind VD with
      | ClassDecl => true
      | FuncDecl _ => inClassContext VD && negb (isOperator VD)
      | VarDecl _ => inClassContext VD
      | ProtocolDecl requiresClass => requiresClass
      | _ => false
      end
  | AK_ownership =>
      (* Only 'var' declarations can have ownership; the type of the
         declaration must be a reference type. *)
      isVarDecl VD
      && match getType VD with
         | Some ty => allowsOwnership ty
         | None => false
         end
  | AK_iboutlet =>
      (* Only instance properties can be IBOutlets. *)
      isVarDecl VD && inClassContext VD
  | AK_ibaction =>
      (* Only instance methods returning () can be IBActions. *)
      match dyn_cast_FuncDecl VD with
      | Some FD =>
          isaClassDeclContext (getDeclContext VD) && negb (isStatic FD)
          && negb (isGetterOrSetter FD)
          && bool_decide (curriedResultType VD = Some (TupleType []))
      | None => false
      end
  | AK_infix =>
      (* Only operator functions can be infix, and only binary ones. *)
      isOperator VD
      && match dyn_cast_FuncDecl VD with
         | Some FD => isBinaryOperator FD
         | None => false
         end
  | AK_postfix | AK_prefix =>
      (* Only operator functions can be postfix or prefix, and only
         unary ones. *)
      isOperator VD
      && match dyn_cast_FuncDecl VD with
         | Some FD => isUnaryOperator FD
         | None => false
         end
  | AK_assignment =>
      (* Only operator functions with a byref first parameter can be
         assignments. *)
      isaFuncDecl VD && isOperator VD
      && match numArguments VD with
         | Some NumArguments => bool_decide (1 ≤ NumArguments)%Z
         | None => false
         end
      && firstParameterByref VD
  | AK_conversion =>
      (* Only instance members with no non-defaulted parameters can be
         conversions. *)
      isaFuncDecl VD && isInstanceMember VD
      && match getType VD with
         | Some ErrorType => true
         | _ => noNonDefaultedParameters VD
         end
  | AK_force_inline =>
      (* Only functions can be force_inline, and neither curried nor
         generic ones. *)
      match dyn_cast_FuncDecl VD with
      | Some FD =>
          negb (bool_decide (1 < getNumParamPatterns FD))
          && negb (hasGenericParams FD)
      | None => false
      end
  | AK_class_protocol =>
      (* Only protocols can have the [class_protocol] attribute. *)
      isaProtocolDecl VD
  | AK_byref | AK_auto_closure | AK_objc_block | AK_cc | AK_thin
  | AK_noreturn => false
  end.

(** Operators must be declared with 'func', and the unary prefix
    operator '&' is reserved. *)
Definition operatorDeclaration (VD : ValueDecl) : bool :=
  negb (isOperator VD)
  || match dyn_cast_FuncDecl VD with
     | Some FD =>
         negb (isUnaryOperator FD && bool_decide (getName VD = "&")
               && negb (ExplicitPostfix (getAttrs VD)))
     | None => false
     end.

(** The attribute is set although its precondition does not hold. *)
Definition violated (k : Attribute) (VD : ValueDecl) : bool :=
  isSet k (getAttrs VD) && negb (precondition k VD).

(** The attributes whose check ends validation, in the order in which
    they are checked, and the first of them that is violated. *)
Definition returningAttributes : list Attribute :=
  [AK_objc; AK_ownership; AK_iboutlet; AK_ibaction; AK_infix; AK_postfix;
   AK_prefix].


End Preconditions.

End Attributes.

(** ** Pattern bindings (DeclChecker::visitPatternBindingDecl) *)

(** Pattern and expression checking (TypeCheckPattern, TypeCheckExpr).
    [None] stands for the [true] the C++ functions return on an error;
    on success they yield what they leave in place of their argument:
    - [typeCheckPattern]: the checked pattern and its type;
    - [typeCheckExpression]: the checked expression;
    - [coerceToType]: the pattern coerced to the type.
    [coerceToMaterializable] yields null ([None]) or a new expression;
    [exprType] is [Expr::getType]. *)
Class ExprChecker := {
  typeCheckPattern : Pattern → DeclID → option (Pattern * Ty);
  typeCheckExpression : Expr → DeclID → option Ty → option Expr;
  coerceToMaterializable : Expr → option Expr;
  coerceToType : Pattern → DeclID → Ty → option Pattern;
  exprType : Expr → Ty
}.

Module PatternBinding.

Inductive TranslationUnitKind := Library | SIL | Main | Repl.

#[global] Instance TranslationUnitKind_eq_dec
  : EqDecision TranslationUnitKind.
Proof. solve_decision. Defined.

(** Modelled from the spec: Pattern::getSemanticsProvidingPattern is
    declared outside this file; it looks through parentheses and type
    annotations, so that an annotated single variable is a single
    variable. *)
Fixpoint getSemanticsProvidingPattern (p : Pattern) : Pattern :=
  match p with
  | ParenPattern sub | TypedPattern sub _ => getSemanticsProvidingPattern sub
  | _ => p
  end.

Definition isPatternProperty (pattern : Pattern) : bool :=
  match getSemanticsProvidingPattern pattern with
  | NamedPattern decl => isProperty decl
  | _ => false
  end.

Definition isaTypedPattern (p : Pattern) : bool :=
  match p with TypedPattern _ _ => true | _ => false end.

Definition setInit (PBD : PatternBindingDecl) (init : Expr)
    : PatternBindingDecl :=
  mkPatternBindingDecl (getPattern PBD) (getPatternType PBD) (Some init)
                       (pbdDeclContext PBD) (pbdInvalid PBD).

Definition setInvalid (PBD : PatternBindingDecl) : PatternBindingDecl :=
  mkPatternBindingDecl (getPattern PBD) (getPatternType PBD) (getInit PBD)
                       (pbdDeclContext PBD) true.

(** The pattern after a checker rewrote it in place. *)
Definition setPattern (PBD : PatternBindingDecl) (p : Pattern)
    (ty : option Ty) : PatternBindingDecl :=
  mkPatternBindingDecl p ty (getInit PBD) (pbdDeclContext PBD)
                       (pbdInvalid PBD).

Section WithCheckers.
Context `{ASTQueries} `{NameLookup} `{ExprChecker}.

(** The [PatternKind::Named] case of [visitBoundVars]. *)
Definition visitBoundVar (VD : ValueDecl) : option (ValueDecl * list Diag) :=
  ty ← getType VD;
  let '(VD, ds) :=
    if negb (isMaterializable ty)
    then (Attributes.overwriteType VD ErrorType,
          [var_type_not_materializable ty])
    else (VD, []) in
  '(VD, ds') ← Attributes.validateAttributes VD;
  let VD :=
    match getDeclaredTypeInContext (getDeclContext VD) with
    | Some contextTy =>
        let classContext := Attributes.classOrBoundGenericClass contextTy in
        Attributes.setIsObjC VD
          (ObjC (getAttrs VD)
           || match classContext with
              | Some c => classIsObjC c
              | None => false
              end)
    | None => VD
    end in
  Some (VD, ds ++ ds').

Fixpoint visitBoundVars (P : Pattern) : option (Pattern * list Diag) :=
  match P with
  | TuplePattern fields =>
      match
        (fix visitFields (fs : list Pattern)
            : option (list Pattern * list Diag) :=
           match fs with
           | [] => Some ([], [])
           | field :: rest =>
               match visitBoundVars field with
               | None => None
               | Some (field, ds) =>
                   match visitFields rest with
                   | None => None
                   | Some (rest, ds') => Some (field :: rest, ds ++ ds')
                   end
               end
           end) fields
      with
      | None => None
      | Some (fields, ds) => Some (TuplePattern fields, ds)
      end
  | ParenPattern sub =>
      match visitBoundVars sub with
      | None => None
      | Some (sub, ds) => Some (ParenPattern sub, ds)
      end
  | TypedPattern sub ty =>
      match visitBoundVars sub with
      | None => None
      | Some (sub, ds) => Some (TypedPattern sub ty, ds)
      end
  | NominalTypePattern sub =>
      match visitBoundVars sub with
      | None => None
      | Some (sub, ds) => Some (NominalTypePattern sub, ds)
      end
  | UnionElementPattern (Some sub) =>
      match visitBoundVars sub with
      | None => None
      | Some (sub, ds) => Some (UnionElementPattern (Some sub), ds)
      end
  | UnionElementPattern None => Some (P, [])
  | VarPattern sub =>
      match visitBoundVars sub with
      | None => None
      | Some (sub, ds) => Some (VarPattern sub, ds)
      end
  | NamedPattern VD =>
      match visitBoundVar VD with
      | None => None
      | Some (VD, ds) => Some (NamedPattern VD, ds)
      end
  | AnyPattern | IsaPattern | ExprPattern => Some (P, [])
  end.

Fixpoint setBoundVarsTypeError (pattern : Pattern) : Pattern :=
  match pattern with
  | TuplePattern fields => TuplePattern (map setBoundVarsTypeError fields)
  | ParenPattern sub => ParenPattern (setBoundVarsTypeError sub)
  | TypedPattern sub ty => TypedPattern (setBoundVarsTypeError sub) ty
  | NominalTypePattern sub => NominalTypePattern (setBoundVarsTypeError sub)
  | VarPattern sub => VarPattern (setBoundVarsTypeError sub)
  | UnionElementPattern (Some sub) =>
      UnionElementPattern (Some (setBoundVarsTypeError sub))
  | UnionElementPattern None => pattern
  | NamedPattern var =>
      match getType var with
      | None => NamedPattern (Attributes.overwriteType var ErrorType)
      | Some _ => pattern
      end
  | AnyPattern | IsaPattern | ExprPattern => pattern
  end.

(** The tail of the function: [visitBoundVars(PBD->getPattern())]. *)
Definition visitPatternVars (PBD : PatternBindingDecl) (ds : list Diag)
    : option (PatternBindingDecl * list Diag) :=
  '(pattern, ds') ← visitBoundVars (getPattern PBD);
  Some (setPattern PBD pattern (getPatternType PBD), ds ++ ds').

Definition visitPatternBindingDecl (TUKind : TranslationUnitKind)
    (IsFirstPass IsSecondPass : bool) (PBD : PatternBindingDecl)
    : option (PatternBindingDecl * list Diag) :=
  let dc := pbdDeclContext PBD in
  let DelayCheckingPattern :=
    negb (bool_decide (TUKind = Library))
    && negb (bool_decide (TUKind = SIL)) && isModuleContext dc in
  if IsSecondPass && negb DelayCheckingPattern then
    match getInit PBD, getPatternType PBD with
    | Some Init, Some DestTy =>
        match typeCheckExpression Init dc (Some DestTy) with
        | None => Some (PBD, [while_converting_var_init DestTy])
        | Some Init => Some (setInit PBD Init, [])
        end
    | _, _ => Some (PBD, [])
    end
  else if bool_decide (getInit PBD = None) && negb IsFirstPass
          && isaTypedPattern (getPattern PBD) && negb (isTypeContext dc)
  then
    match typeCheckPattern (getPattern PBD) dc with
    | None => Some (PBD, [])
    | Some (pattern, ty) =>
        let PBD := setPattern PBD pattern (Some ty) in
        if isPatternProperty (getPattern PBD) then
          (* Properties don't have initializers. *)
          visitPatternVars PBD []
        else
          match DefaultInit.isDefaultInitializable ty true with
          | None => None
          | Some (false, _) =>
              visitPatternVars (setInvalid PBD) [decl_no_default_init ty]
          | Some (true, initializer) =>
              initializer ← initializer;
              match typeCheckExpression initializer dc (Some ty) with
              | None => Some (PBD, [while_converting_var_init ty])
              | Some initializer =>
                  visitPatternVars (setInit PBD initializer) []
              end
          end
    end
  else if bool_decide (is_Some (getInit PBD)) && negb IsFirstPass then
    match getInit PBD with
    | None => Some (PBD, [])
    | Some Init =>
        match
          (if isaTypedPattern (getPattern PBD) then
             match typeCheckPattern (getPattern PBD) dc with
             | None => None
             | Some (pattern, ty) =>
                 Some (setPattern PBD pattern (Some ty), Some ty)
             end
           else Some (PBD, None))
        with
        | None => Some (PBD, [])
        | Some (PBD, DestTy) =>
            match typeCheckExpression Init dc DestTy with
            | None =>
                Some (setPattern PBD
                        (setBoundVarsTypeError (getPattern PBD))
                        (getPatternType PBD),
                      match DestTy with
                      | Some ty => [while_converting_var_init ty]
                      | None => []
                      end)
            | Some Init =>
                match DestTy with
                | Some _ => visitPatternVars (setInit PBD Init) []
                | None =>
                    let Init :=
                      match coerceToMaterializable Init with
                      | Some newInit => newInit
                      | None => Init
                      end in
                    let PBD := setInit PBD Init in
                    match coerceToType (getPattern PBD) dc (exprType Init)
                    with
                    | None => Some (PBD, [])
                    | Some pattern =>
                        visitPatternVars
                          (setPattern PBD pattern (Some (exprType Init))) []
                    end
                end
            end
        end
    end
  else if negb IsFirstPass || negb DelayCheckingPattern then
    match typeCheckPattern (getPattern PBD) dc with
    | None => Some (PBD, [])
    | Some (pattern, ty) =>
        visitPatternVars (setPattern PBD pattern (Some ty)) []
    end
  else visitPatternVars PBD [].

End WithCheckers.

(** The diagnostics of default initialization. *)
Definition aboutDefaultInit (dg : Diag) : bool :=
  match dg with
  | decl_no_default_init _ | while_converting_var_init _ => true
  | _ => false
  end.

End PatternBinding.

(** ** Entry points of inheritance resolution *)

Module Resolution.
Import Inheritance.

(** A member of a protocol: a type alias (an associated type), or a
    declaration of another kind. *)
Inductive Member :=
| TypeAliasMember (assocType : Decl)
| OtherDeclMember.

Section WithValidator.
Context `{TypeValidator}.

(** [TypeChecker::getDirectConformsTo], for a nominal type declaration
    and for an extension alike: the declaration as resolution leaves it,
    the protocols returned and the diagnostics. *)
Definition getDirectConformsTo (decl : Decl)
    : Decl * list DeclID * list Diag :=
  let '(decl, ds) := checkInheritanceClause decl in
  (decl, getProtocols decl, ds).

(** The loop of [preCheckProtocol] over the members. *)
Fixpoint preCheckMembers (members : list Member)
    : list Member * list Diag :=
  match members with
  | [] => ([], [])
  | member :: rest =>
      let '(member, ds) :=
        match member with
        | TypeAliasMember assocType =>
            let '(assocType, ds) := checkInheritanceClause assocType in
            (TypeAliasMember assocType, ds)
        | OtherDeclMember => (member, [])
        end in
      let '(rest, ds') := preCheckMembers rest in
      (member :: rest, ds ++ ds')
  end.

Definition preCheckProtocol (D : Decl) (members : list Member)
    : Decl * list Member * list Diag :=
  let '(D, ds) := checkInheritanceClause D in
  let '(members, ds') := preCheckMembers members in
  (D, members, ds ++ ds').

End WithValidator.

Section WithCheckers.
Context `{TypeValidator} `{ConformanceChecker}.

(** [DeclChecker::visitTypeAliasDecl].  The underlying type location,
    which the first statement validates, lies outside [Decl] and nothing
    else in the function reads it.  Returns the declaration, the
    diagnostics and the conformances recorded in the context; [None] as
    in [gatherExplicitConformances]. *)
Definition visitTypeAliasDecl (IsFirstPass IsSecondPass : bool) (TAD : Decl)
    : option (Decl * list Diag * list DeclID) :=
  let '(TAD, ds) :=
    if negb IsSecondPass then
      if negb (inProtocolContext TAD) then checkInheritanceClause TAD
      else (TAD, [])
    else (TAD, []) in
  if negb IsFirstPass then
    match gatherExplicitConformances TAD (getDeclaredType TAD) with
    | None => None
    | Some (TAD, rec) => Some (TAD, ds, rec)
    end
  else Some (TAD, ds, []).

End WithCheckers.

(** The protocols an entry of an inheritance clause names once it has
    been validated to the existential type [ty]. *)
Definition namesProtocol `{TypeValidator} (clause : list TypeLoc)
    (p : DeclID) : Prop :=
  ∃ e ty protocols,
    e ∈ clause ∧ validateType (tlRepr e) = Some ty
    ∧ isExistentialType ty = Some protocols ∧ p ∈ protocols.

(** The type [ty] is named twice in the clause: an entry validates to
    it and so does an earlier entry. *)
Definition namedTwice `{TypeValidator} (clause : list TypeLoc) (ty : Ty)
    : Prop :=
  ∃ pre e post e0,
    clause = pre ++ e :: post ∧ e0 ∈ pre
    ∧ validateType (tlRepr e0) = Some ty ∧ validateType (tlRepr e) = Some ty.

(** An entry as validation leaves it: with the validated type, or with
    the error type. *)
Definition validated `{TypeValidator} (e : TypeLoc) : TypeLoc :=
  mkTypeLoc (tlRepr e) (Some (default ErrorType (validateType (tlRepr e)))).

(** The protocols that the validated entries of a clause list. *)
Definition listsProtocol (clause : list TypeLoc) (p : DeclID) : Prop :=
  ∃ e ty protocols,
    e ∈ clause ∧ tlType e = Some ty
    ∧ isExistentialType ty = Some protocols ∧ p ∈ protocols.

(** What the gathering loops have recorded in the context: once each,
    the known protocols to which the type conforms, for a nominal type
    declaration or an extension. *)
Definition recordedInv `{ConformanceChecker} (D : Decl) (T : Ty)
    (st : GatherState) : Prop :=
  NoDup (recorded st)
  ∧ ∀ p, p ∈ recorded st
         ↔ isNominalTypeDecl D || bool_decide (declKind D = ExtensionDecl)
           = true
           ∧ (conformsToProtocol T p).1 = true ∧ p ∈ knownProtocols st.

(** The diagnostic for a class type in the inheritance clause of a
    declaration that cannot inherit a class. *)
Definition rejectedSuperclass (decl : Decl) (inheritedTy : Ty) : Diag :=
  match declKind decl with
  | ExtensionDecl =>
      extension_class_inheritance (getDeclaredType decl) inheritedTy
  | _ => non_class_inheritance (getDeclaredType decl) inheritedTy
  end.

End Resolution.

(** ** Function type attributes
    (DeclChecker::validateAndConsumeFunctionTypeAttributes) *)

Module FunctionAttrs.
Import Attributes.

(** [AnyFunctionType::ExtInfo]: the function starts from the default
    value and sets the noreturn bit in it. *)
Record ExtInfo := mkExtInfo { isNoReturn : bool }.

Definition validateAndConsumeFunctionTypeAttributes (FD : ValueDecl)
    : ValueDecl * ExtInfo * list Diag :=
  let '(FD, ds) :=
    if bool_decide (is_Some (cc (getAttrs FD)))
    then (clear AK_cc FD, [invalid_decl_attribute "cc"])
    else (FD, []) in
  let '(FD, ds) :=
    if Thin (getAttrs FD)
    then (clear AK_thin FD, ds ++ [invalid_decl_attribute "thin"])
    else (FD, ds) in
  (* 'noreturn' is allowed on a function declaration. *)
  let Info := mkExtInfo (NoReturn (getAttrs FD)) in
  let FD := clear AK_noreturn FD in
  let '(FD, ds) :=
    if AutoClosure (getAttrs FD)
    then (clear AK_auto_closure FD,
          ds ++ [invalid_decl_attribute "auto_closure"])
    else (FD, ds) in
  let '(FD, ds) :=
    if ObjCBlock (getAttrs FD)
    then (clear AK_objc_block FD, ds ++ [invalid_decl_attribute "objc_block"])
    else (FD, ds) in
  (FD, Info, ds).

(** The attributes that apply to a function type rather than to a
    declaration. *)
Definition functionTypeAttribute (k : Attribute) : bool :=
  match k with
  | AK_cc | AK_thin | AK_noreturn | AK_auto_closure | AK_objc_block => true
  | _ => false
  end.

(** What the blocks of attribute validation other than the ownership
    block keep of a declaration: everything but the attributes, and
    among the attributes the ownership. *)
Definition keepsDecl (VD V : ValueDecl) : Prop :=
  V = setAttrs VD (getAttrs V)
  ∧ ownership (getAttrs V) = ownership (getAttrs VD).

End FunctionAttrs.

(** ** The two passes (TypeChecker::typeCheckDecl) *)

Module Passes.
Import PatternBinding.

Section WithCheckers.
Context `{ASTQueries} `{NameLookup} `{ExprChecker}.

(** [typeCheckDecl] at a pattern binding, which the visitor dispatches
    to [visitPatternBindingDecl]. *)
Definition typeCheckDecl (TUKind : TranslationUnitKind)
    (D : PatternBindingDecl) (isFirstPass : bool)
    : option (PatternBindingDecl * list Diag) :=
  let isSecondPass :=
    negb isFirstPass && isModuleContext (pbdDeclContext D) in
  visitPatternBindingDecl TUKind isFirstPass isSecondPass D.

End WithCheckers.

(** A variable as [setBoundVarsTypeError] leaves it. *)
Definition withTypeError (var : ValueDecl) : ValueDecl :=
  match getType var with
  | None => Attributes.overwriteType var ErrorType
  | Some _ => var
  end.

(** A variable as [visitBoundVars] leaves it stands for the variable it
    was: the same declaration kind, name and context, and both carry a
    type. *)
Definition visited (var var' : ValueDecl) : Prop :=
  vdKind var' = vdKind var ∧ getName var' = getName var
  ∧ getDeclContext var' = getDeclContext var
  ∧ is_Some (getType var) ∧ is_Some (getType var').

End Passes.

(** ** Sample programs *)

Module Examples.

Definition Int64 : Ty := BuiltinInteger 64.

(** Struct 1 has one constructor, which takes no arguments; struct 2 has
    only a constructor with a parameter. *)
Definition sampleLookup : NameLookup :=
  {| lookupConstructors ty :=
       match ty with
       | StructType 1 => Some [ConstructorMember (TupleType [])]
       | StructType 2 =>
           Some [ConstructorMember
                   (TupleType [mkTupleTypeElt "x" Int64 false])]
       | _ => None
       end |}.

(** The written types 1 and 2 name the classes 10 and 11, the written
    type 3 names the protocol 20. *)
Definition sampleValidator : TypeValidator :=
  {| validateType repr :=
       match repr with
       | 1%N => Some (ClassType 10)
       | 2%N => Some (ClassType 11)
       | 3%N => Some (ProtocolType 20)
       | _ => None
       end |}.

Definition sampleConformance : ProtocolConformance :=
  mkConformance [(21%positive, 31%positive)] [].

Definition sampleChecker : ConformanceChecker :=
  {| conformsToProtocol T proto := (true, Some sampleConformance) |}.

(** Context 100 is the module, context 101 the class 10. *)
Definition sampleQueries : ASTQueries :=
  {| isModuleContext dc := bool_decide (dc = 100%positive);
     isTypeContext dc := bool_decide (dc = 101%positive);
     getDeclaredTypeOfContext dc :=
       if bool_decide (dc = 101%positive) then Some (ClassType 10) else None;
     getDeclaredTypeInContext dc :=
       if bool_decide (dc = 101%positive) then Some (ClassType 10) else None;
     isaClassDeclContext dc := bool_decide (dc = 101%positive);
     classIsObjC c := false;
     allowsOwnership ty :=
       match ty with
       | ClassType _ | BoundGenericClassType _ _ => true
       | _ => false
       end;
     isMaterializable ty := true;
     isOperatorName name := bool_decide (name = "+") |}.

Definition sampleExprChecker : ExprChecker :=
  {| typeCheckPattern pattern dc :=
       match pattern with
       | TypedPattern _ (Some ty) => Some (pattern, ty)
       | _ => None
       end;
     typeCheckExpression e dc ty := Some e;
     coerceToMaterializable e := None;
     coerceToType pattern dc ty := Some pattern;
     exprType e := Int64 |}.

(** [class C : A, B] with two class types in its inheritance clause. *)
Definition classWithTwoSuperclasses : Inheritance.Decl :=
  Inheritance.mkDecl Inheritance.ClassDecl false false (ClassType 12)
    [mkTypeLoc 1 None; mkTypeLoc 2 None] [] None [].

(** [struct S : P]. *)
Definition structWithProtocol : Inheritance.Decl :=
  Inheritance.mkDecl Inheritance.StructDecl false false (StructType 5)
    [mkTypeLoc 3 None] [] None [].

(** A conformance to protocol 20 whose inherited conformance to
    protocol 22 has the witness 32. *)
Definition nestedConformance : ProtocolConformance :=
  mkConformance [(21%positive, 31%positive)]
    [(22%positive, Some (mkConformance [(23%positive, 32%positive)] []))].

(** [struct S { var x : Int64 }] at address 1, with its variable at 2 and
    its binding at 3, after the structural pass queued it. *)
Definition memberX : ValueDecl :=
  mkValueDecl (VarDecl false) "x" noAttributes (Some Int64) 1 false true.

Definition bindingX : PatternBindingDecl :=
  mkPatternBindingDecl (TypedPattern (NamedPattern memberX) (Some Int64))
                       (Some Int64) None 1 false.

Definition parsedStruct : ImplicitCtor.TypeChecker :=
  ImplicitCtor.mkTypeChecker
    (<[1%positive := ImplicitCtor.StructDeclNode
                       (ImplicitCtor.mkStructDecl [2%positive; 3%positive]
                                                  false)]>
       (<[2%positive := ImplicitCtor.ValueDeclNode memberX]>
          (<[3%positive := ImplicitCtor.PatternBindingDeclNode bindingX]> ∅)))
    [] ∅ [] [] [].

(** [struct S { var x : Int64; var y : Int64 }] at address 1, as
    parsed: the variables at 2 and 4, their bindings at 3 and 5. *)
Definition memberY : ValueDecl :=
  mkValueDecl (VarDecl false) "y" noAttributes (Some Int64) 1 false true.

Definition bindingY : PatternBindingDecl :=
  mkPatternBindingDecl (TypedPattern (NamedPattern memberY) (Some Int64))
                       (Some Int64) None 1 false.

Definition parsedPair : ImplicitCtor.TypeChecker :=
  ImplicitCtor.mkTypeChecker
    (<[1%positive := ImplicitCtor.StructDeclNode
                       (ImplicitCtor.mkStructDecl
                          [2%positive; 3%positive; 4%positive; 5%positive]
                          false)]>
       (<[2%positive := ImplicitCtor.ValueDeclNode memberX]>
          (<[3%positive := ImplicitCtor.PatternBindingDeclNode bindingX]>
             (<[4%positive := ImplicitCtor.ValueDeclNode memberY]>
                (<[5%positive := ImplicitCtor.PatternBindingDeclNode
                                   bindingY]> ∅)))))
    [] ∅ [] [] [].

Definition pendingStruct : ImplicitCtor.TypeChecker :=
  ImplicitCtor.mkTypeChecker (ImplicitCtor.decls parsedStruct) []
    {[1%positive]} [1%positive] [] [].



(** A function that carries [byref] and [noreturn]. *)
Definition byrefFunc : ValueDecl :=
  mkValueDecl (FuncDecl (mkFuncInfo false false false false 1 false)) "f"
    (mkDeclAttributes false None false false false false false false false
                      false true false false false None false true)
    (Some (FunctionType (TupleType []) (TupleType []))) 100 false false.

(** [var [weak] p : Int64 { get ... }] at the top level of a main
    translation unit: a property of a type that is not a reference
    type. *)
Definition weakProperty : ValueDecl :=
  mkValueDecl (VarDecl true) "p"
    (mkDeclAttributes false (Some Weak) false false false false false false
                      false false false false false false None false false)
    (Some Int64) 100 false false.

Definition weakPropertyBinding : PatternBindingDecl :=
  mkPatternBindingDecl (TypedPattern (NamedPattern weakProperty) (Some Int64))
                       None None 100 false.

(** [var q : P { get ... }]: a property of protocol type. *)
Definition protocolProperty : ValueDecl :=
  mkValueDecl (VarDecl true) "q" noAttributes (Some (ProtocolType 20)) 100
              false false.

Definition protocolPropertyBinding : PatternBindingDecl :=
  mkPatternBindingDecl
    (TypedPattern (NamedPattern protocolProperty) (Some (ProtocolType 20)))
    None None 100 false.

End Examples.

(** Further sample programs. *)

Module MoreExamples.
Import Examples.

(** [struct S : A] with a class type in its inheritance clause. *)
Definition structWithClass : Inheritance.Decl :=
  Inheritance.mkDecl Inheritance.StructDecl false false (StructType 5)
    [mkTypeLoc 1 None] [] None [].

(** [class C : P, A] with the superclass after a protocol. *)
Definition classAfterProtocol : Inheritance.Decl :=
  Inheritance.mkDecl Inheritance.ClassDecl false false (ClassType 12)
    [mkTypeLoc 3 None; mkTypeLoc 1 None] [] None [].

(** [struct S : P, P]. *)
Definition structWithRepeatedProtocol : Inheritance.Decl :=
  Inheritance.mkDecl Inheritance.StructDecl false false (StructType 5)
    [mkTypeLoc 3 None; mkTypeLoc 3 None] [] None [].

(** [protocol Q { typealias Element : P }]. *)
Definition associatedType : Inheritance.Decl :=
  Inheritance.mkDecl Inheritance.TypeAliasDecl false true (ArchetypeType 0)
    [mkTypeLoc 3 None] [] None [].

Definition protocolWithAssociatedType : Inheritance.Decl :=
  Inheritance.mkDecl Inheritance.ProtocolDecl false false (ProtocolType 21)
    [] [] None [].


(** [var g : Int64] at the top level, and [var h : Int64 = e]. *)
Definition globalG : ValueDecl :=
  mkValueDecl (VarDecl false) "g" noAttributes (Some Int64) 100 false false.

Definition globalBinding : PatternBindingDecl :=
  mkPatternBindingDecl (TypedPattern (NamedPattern globalG) (Some Int64))
                       None None 100 false.



End MoreExamples.

(** * Part II: properties *)

Module DefaultInitFacts.
Import DefaultInit.
Section WithLookup.
Context `{NameLookup}.

Lemma isDefaultInitializable_tuple fields b :
  isDefaultInitializable (TupleType fields) b = tupleElements b fields [] [].
Proof.
  simpl.
  match goal with
  | |- ?loop fields [] [] = _ =>
      enough (∀ inits names,
                 loop fields inits names = tupleElements b fields inits names)
        by done
  end.
  induction fields as [|e fs IH]; intros inits names; simpl; [done|].
  destruct (eltHasInit e); [done|].
  destruct (isDefaultInitializable (eltType e) b) as [[[] [w|]]|];
    destruct b; auto.
Qed.

(** Induction on types along the recursion of [isDefaultInitializable]. *)
Lemma Ty_default_init_ind (P : Ty → Prop)
    (Htuple : ∀ fields, Forall (λ e, P (eltType e)) fields →
                        P (TupleType fields))
    (Hstorage : ∀ o referent, P referent →
                              P (ReferenceStorageType o referent))
    (Hother : ∀ ty, (∀ fields, ty ≠ TupleType fields) →
                    (∀ o r, ty ≠ ReferenceStorageType o r) → P ty) :
  ∀ ty, P ty.
Proof.
  fix IH 1. intros ty.
  destruct ty as [ | | | | | | | | |fields| | | | | | | | | | | | | | | |o r];
    try (apply Hother; discriminate).
  - apply Htuple.
    induction fields as [|e fs IHfs]; constructor; [apply IH|exact IHfs].
  - apply Hstorage, IH.
Qed.

Lemma missingInit_forallb fields :
  missingInit fields = negb (forallb eltHasInit fields).
Proof.
  induction fields as [|e fs IH]; simpl; [done|].
  destruct (eltHasInit e); simpl; auto.
Qed.

(** The constructor loop counts the candidates, up to two. *)
Lemma findDefaultConstructor_count ctors found :
  findDefaultConstructor ctors found =
    match length (List.filter acceptsEmptyArgumentList ctors)
          + (if found then 1 else 0) with
    | 0 => Some false
    | 1 => Some true
    | _ => None
    end.
Proof.
  revert found. induction ctors as [|m rest IH]; intros found; simpl.
  - by destruct found.
  - destruct m as [argTy|]; [|apply IH].
    destruct argTy; simpl; try apply IH.
    rewrite missingInit_forallb.
    destruct (forallb eltHasInit fields); simpl; [|apply IH].
    destruct found; [by rewrite Nat.add_1_r|].
    by rewrite IH, Nat.add_1_r, Nat.add_0_r.
Qed.

Lemma lookForDefaultConstructor_fst ty b :
  fst (lookForDefaultConstructor ty b) = true ↔ defaultConstructorCount ty = 1.
Proof.
  unfold lookForDefaultConstructor, defaultConstructorCount,
    visibleConstructors.
  destruct (lookupConstructors ty) as [ctors|]; simpl; [|done].
  rewrite findDefaultConstructor_count, Nat.add_0_r.
  destruct (length _) as [|[|n]]; simpl; [done| |done].
  by destruct b.
Qed.

Lemma lookForDefaultConstructor_snd ty :
  fst (lookForDefaultConstructor ty true) = true →
  snd (lookForDefaultConstructor ty true)
    = Some (CallExpr (MetatypeExpr (MetaTypeType ty)) (TupleExpr [] [])).
Proof.
  unfold lookForDefaultConstructor.
  destruct (lookupConstructors ty) as [ctors|]; simpl; [|done].
  destruct (findDefaultConstructor ctors false) as [[]|]; simpl; done.
Qed.

Lemma isDefaultInitializable_lookup ty b :
  looksForConstructors ty = true →
  isDefaultInitializable ty b = Some (lookForDefaultConstructor ty b).
Proof. by destruct ty. Qed.

(** The accumulators of the tuple loop. *)
Lemma tupleElements_true fs inits names w :
  tupleElements true fs inits names = Some (true, w) →
  ∃ ws,
    Forall2 (λ e we,
               isDefaultInitializable (eltType e) true = Some (true, Some we))
            fs ws
    ∧ w = Some (buildTupleInitializer (inits ++ ws)
                                      (names ++ (eltName <$> fs))).
Proof.
  revert inits names.
  induction fs as [|e fs IH]; intros inits names; simpl.
  - intros [= <-]. exists []. split; [constructor|].
    by rewrite !app_nil_r.
  - destruct (eltHasInit e); [done|].
    destruct (isDefaultInitializable (eltType e) true) as [[[] [we|]]|] eqn:He;
      try done.
    intros Hrest. destruct (IH _ _ Hrest) as (ws & Hws & ->).
    exists (we :: ws). split; [by constructor|].
    by rewrite <- !app_assoc.
Qed.

(** Whenever the tuple loop returns, it answers true exactly when every
    element does. *)
Lemma tupleElements_answer b fs inits names answer w :
  tupleElements b fs inits names = Some (answer, w) →
  answer = true ↔ Forall (λ e, answers (eltType e) b true) fs.
Proof.
  revert inits names.
  induction fs as [|e fs IH]; intros inits names; simpl.
  - intros [= <- <-]. split; [constructor|done].
  - destruct (eltHasInit e); [done|].
    rewrite Forall_cons. unfold answers at 1.
    destruct (isDefaultInitializable (eltType e) b) as [[[] eltInit]|] eqn:Hd;
      simpl; [| |done].
    + destruct b.
      * destruct eltInit as [we|]; [|done].
        intros Hrest. rewrite (IH _ _ Hrest). tauto.
      * intros Hrest. rewrite (IH _ _ Hrest). tauto.
    + intros [= <- <-]. split; [done|]. by intros [[=] _].
Qed.

(** Without defaulted elements the loop goes on as long as the elements
    answer true. *)
Lemma tupleElements_all b fs inits names :
  Forall (λ e, eltHasInit e = false) fs →
  Forall (λ e, answers (eltType e) b true) fs →
  Forall (λ e, ∀ w, isDefaultInitializable (eltType e) true = Some (true, w) →
                    is_Some w) fs →
  answers (TupleType fs) b true →
  fst <$> tupleElements b fs inits names = Some true.
Proof.
  intros Hno Hall Hinit _. revert inits names.
  induction fs as [|e fs IH]; intros inits names; simpl; [done|].
  apply Forall_cons in Hno as [-> Hno].
  apply Forall_cons in Hall as [He Hall].
  apply Forall_cons in Hinit as [Hw Hinit].
  unfold answers in He.
  destruct (isDefaultInitializable (eltType e) b) as [[[] eltInit]|] eqn:Hd;
    try done.
  destruct b; [|by apply IH].
  destruct (Hw _ Hd) as [we ->]. by apply IH.
Qed.

(** [assert(eltInit && "Missing initializer?")] never fires: a positive
    answer always comes with the initializer that was asked for. *)
Lemma isDefaultInitializable_initializer ty w :
  isDefaultInitializable ty true = Some (true, w) → is_Some w.
Proof.
  revert w.
  induction ty as [fields IH|o r IH|ty Ht Hr] using Ty_default_init_ind;
    intros w.
  - rewrite isDefaultInitializable_tuple.
    intros (ws & _ & ->)%tupleElements_true. eauto.
  - apply IH.
  - destruct ty; simpl;
      try (by exfalso; eapply Ht); try (by exfalso; eapply Hr);
      try done; try (by intros [= <-]; eauto);
      intros [= Heq];
      match type of Heq with
      | lookForDefaultConstructor ?t true = _ =>
          pose proof (lookForDefaultConstructor_snd t) as Hw;
          rewrite Heq in Hw; simpl in Hw; rewrite Hw by done; eauto
      end.
Qed.

Lemma withoutElementInitializers_tuple fields :
  withoutElementInitializers (TupleType fields) = true
  ↔ Forall (λ e, eltHasInit e = false
                 ∧ withoutElementInitializers (eltType e) = true) fields.
Proof.
  simpl. induction fields as [|e fs IH]; [by split; [constructor|]|].
  rewrite Forall_cons, <- IH, !andb_true_iff, negb_true_iff. tauto.
Qed.

(** The function returns on every type that meets its assertion. *)
Lemma isDefaultInitializable_returns ty b :
  withoutElementInitializers ty = true →
  is_Some (isDefaultInitializable ty b).
Proof.
  induction ty as [fields IH|o r IH|ty Ht Hr] using Ty_default_init_ind.
  - rewrite withoutElementInitializers_tuple, isDefaultInitializable_tuple.
    intros Hfields. generalize (@nil Expr) (@nil Identifier).
    induction fields as [|e fs IHfs]; intros inits names; simpl; [by eexists|].
    apply Forall_cons in Hfields as [[-> He] Hfs].
    apply Forall_cons in IH as [IHe IH].
    destruct (IHe He) as [[[] w] Hr].
    + rewrite Hr. destruct b; [|by apply IHfs].
      destruct (isDefaultInitializable_initializer _ _ Hr) as [we ->].
      by apply IHfs.
    + rewrite Hr. by eexists.
  - apply IH.
  - intros _. destruct ty; simpl; try (by eexists);
      first [by exfalso; eapply Ht|by exfalso; eapply Hr].
Qed.

Lemma buildTupleInitializer_witness fields ws :
  length ws = length fields →
  buildTupleInitializer ws (eltName <$> fields) = tupleWitness fields ws.
Proof.
  destruct fields as [|e [|e' fs]], ws as [|w [|w' ws]]; simpl; try done.
Qed.

(** C3. For a type of archetype, struct, union or bound generic
    struct/union kind, [isDefaultInitializable] returns, and answers
    true exactly when one visible constructor accepts an empty argument
    list; with none or with several it answers false; and the
    initializer produced on success is a call of the type's metatype
    with an empty tuple. *)
Theorem C3_nominal_default_constructor ty (initializer : bool) :
  looksForConstructors ty = true →
  (answers ty initializer true ↔ defaultConstructorCount ty = 1)
  ∧ (defaultConstructorCount ty = 0 → answers ty initializer false)
  ∧ (1 < defaultConstructorCount ty → answers ty initializer false)
  ∧ (answers ty true true →
     isDefaultInitializable ty true
     = Some (true,
             Some (CallExpr (MetatypeExpr (MetaTypeType ty))
                            (TupleExpr [] [])))).
Proof.
  intros Hkind.
  pose proof (lookForDefaultConstructor_fst ty initializer) as Hiff.
  unfold answers. rewrite !isDefaultInitializable_lookup by done. simpl.
  assert (∀ b, Some (lookForDefaultConstructor ty initializer).1 = Some b
               ↔ (lookForDefaultConstructor ty initializer).1 = b) as Hsome.
  { intros b. split; [by intros [= ->]|by intros ->]. }
  rewrite !Hsome.
  split; [exact Hiff|].
  split; [|split].
  - intros Hn. apply not_true_is_false. rewrite Hiff. lia.
  - intros Hn. apply not_true_is_false. rewrite Hiff. lia.
  - intros [= Hf].
    pose proof (lookForDefaultConstructor_snd ty Hf) as Hw.
    by destruct (lookForDefaultConstructor ty true) as [answer w];
      simpl in *; subst.
Qed.

(** C4. A tuple type none of whose elements carries a default value is
    default-initializable exactly when the type of every element is; on
    an element with a default value the function fails its assertion,
    so that whenever it returns for a tuple type it answers true exactly
    when the type of every element is default-initializable, and it
    returns whenever no tuple element inside the type has a default
    value.  The initializer of a tuple is the tuple of the element
    initializers, or the sole element initializer when the tuple has
    one element and that element is unnamed.  Protocol and protocol
    composition types are never default-initializable. *)
Theorem C4_tuple_and_existential :
  (∀ fields b,
      Forall (λ e, eltHasInit e = false) fields →
      answers (TupleType fields) b true
      ↔ Forall (λ e, answers (eltType e) b true) fields)
  ∧ (∀ fields b answer w,
      isDefaultInitializable (TupleType fields) b = Some (answer, w) →
      answer = true ↔ Forall (λ e, answers (eltType e) b true) fields)
  ∧ (∀ fields b,
      withoutElementInitializers (TupleType fields) = true →
      is_Some (isDefaultInitializable (TupleType fields) b))
  ∧ (∀ fields w,
      isDefaultInitializable (TupleType fields) true = Some (true, w) →
      ∃ ws,
        Forall2 (λ e we,
                   isDefaultInitializable (eltType e) true
                   = Some (true, Some we))
                fields ws
        ∧ w = Some (tupleWitness fields ws))
  ∧ (∀ p b, isDefaultInitializable (ProtocolType p) b = Some (false, None))
  ∧ (∀ ps b,
      isDefaultInitializable (ProtocolCompositionType ps) b
      = Some (false, None)).
Proof.
  split; [|split; [|split; [|split; [|done]]]].
  - intros fields b Hno. split.
    + unfold answers at 1.
      destruct (isDefaultInitializable (TupleType fields) b)
        as [[answer w]|] eqn:Hr; [|done].
      intros [= ->]. rewrite isDefaultInitializable_tuple in Hr.
      by apply (tupleElements_answer _ _ _ _ _ _ Hr).
    + intros Hall. unfold answers.
      rewrite isDefaultInitializable_tuple.
      generalize (@nil Expr) (@nil Identifier).
      induction fields as [|e fs IH]; intros inits names; simpl; [done|].
      apply Forall_cons in Hno as [-> Hno].
      apply Forall_cons in Hall as [He Hall].
      unfold answers in He.
      destruct (isDefaultInitializable (eltType e) b)
        as [[[] eltInit]|] eqn:Hd; try done.
      destruct b; [|by apply IH].
      destruct (isDefaultInitializable_initializer _ _ Hd) as [we ->].
      by apply IH.
  - intros fields b answer w. rewrite isDefaultInitializable_tuple.
    apply tupleElements_answer.
  - intros fields b. apply isDefaultInitializable_returns.
  - intros fields w. rewrite isDefaultInitializable_tuple.
    intros (ws & Hws & ->)%tupleElements_true.
    exists ws. split; [done|]. simpl.
    by rewrite buildTupleInitializer_witness
      by (symmetry; eapply Forall2_length; eauto).
Qed.

End WithLookup.
End DefaultInitFacts.

Module InheritanceFacts.
Import Inheritance.

Section Resolution.
Context `{TypeValidator}.

(** The iteration reads of the declaration only what [setInherited]
    preserves. *)
Lemma checkInherited_setInherited decl clause i e st :
  checkInherited (setInherited decl clause) i e st
  = checkInherited decl i e st.
Proof. reflexivity. Qed.

Lemma checkInheritedFrom_setInherited decl clause0 i clause st :
  checkInheritedFrom (setInherited decl clause0) i clause st
  = checkInheritedFrom decl i clause st.
Proof.
  revert i st. induction clause as [|e rest IH]; intros i st; simpl; [done|].
  rewrite checkInherited_setInherited.
  destruct (checkInherited decl i e st) as [e' st']. by rewrite IH.
Qed.

(** Validation only fills in the type of an entry. *)
Lemma checkInherited_repr decl i e st :
  tlRepr (checkInherited decl i e st).1 = tlRepr e.
Proof.
  unfold checkInherited.
  repeat (case_match; simpl; try done).
Qed.

(** An iteration is determined by what was written. *)
Lemma checkInherited_ext decl i e1 e2 st :
  tlRepr e1 = tlRepr e2 →
  checkInherited decl i e1 st = checkInherited decl i e2 st.
Proof. unfold checkInherited. by intros ->. Qed.

(** Running the loop again on its own output reproduces it. *)
Lemma checkInheritedFrom_again decl i clause st clause' st' :
  checkInheritedFrom decl i clause st = (clause', st') →
  checkInheritedFrom decl i clause' st = (clause', st').
Proof.
  revert i st clause' st'.
  induction clause as [|e rest IH]; intros i st clause' st'; simpl.
  - by intros [= <- <-].
  - destruct (checkInherited decl i e st) as [e1 st1] eqn:He.
    destruct (checkInheritedFrom decl (S i) rest st1) as [rest1 st2] eqn:Hr.
    intros [= <- <-]. simpl.
    rewrite (checkInherited_ext decl i e1 e), He.
    + by rewrite (IH _ _ _ _ Hr).
    + by rewrite <- (checkInherited_repr decl i e st), He.
Qed.

(** A superclass is only picked up by a declaration that may inherit a
    class. *)
Lemma checkInherited_superclass decl i e st ty :
  superclassTy (checkInherited decl i e st).2 = Some ty →
  superclassTy st = Some ty ∨ canInheritClass decl = true.
Proof.
  unfold checkInherited.
  destruct (canInheritClass decl); [by right|].
  repeat (case_match; simpl; auto).
Qed.

Lemma checkInheritedFrom_superclass decl i clause st ty :
  superclassTy (checkInheritedFrom decl i clause st).2 = Some ty →
  is_Some (superclassTy st) ∨ canInheritClass decl = true.
Proof.
  revert i st. induction clause as [|e rest IH]; intros i st; simpl.
  - eauto.
  - destruct (checkInherited decl i e st) as [e1 st1] eqn:He.
    destruct (checkInheritedFrom decl (S i) rest st1) as [rest1 st2] eqn:Hr.
    simpl. intros Hty.
    destruct (IH (S i) st1) as [[ty1 H1]|]; [by rewrite Hr| |by right].
    destruct (checkInherited_superclass decl i e st ty1) as [->|];
      [by rewrite He|eauto|by right].
Qed.

(** Once something was recorded, the declaration counts as checked. *)
Lemma recorded_alreadyChecked decl clause st :
  checkInheritedFrom decl 0 (getInherited decl) (mkClauseState None [] [] [])
    = (clause, st) →
  negb (nonEmpty (allProtocols st))
    && negb (bool_decide (is_Some (superclassTy st))) = false →
  alreadyCheckedInheritanceClause (checkInheritanceClause decl).1 = true.
Proof.
  intros Hloop Hrec. unfold checkInheritanceClause.
  destruct (alreadyCheckedInheritanceClause decl) eqn:Hc; [done|].
  rewrite Hloop, Hrec.
  assert (is_Some (superclassTy st) → canInheritClass decl = true) as Hsuper.
  { intros [ty Hty].
    destruct (checkInheritedFrom_superclass decl 0 (getInherited decl)
                (mkClauseState None [] [] []) ty) as [[? [=]]|];
      [by rewrite Hloop|done]. }
  unfold canInheritClass in Hsuper.
  unfold alreadyCheckedInheritanceClause, needsNullConformances.
  destruct decl as [k gp pc dt inh ps sup cs]; simpl in *.
  destruct (allProtocols st) as [|p allp] eqn:Hps,
    (superclassTy st) as [ty|] eqn:Hty; simpl in *; try done;
    destruct k; simpl; try done;
    try (by specialize (Hsuper (mk_is_Some _ _ eq_refl)));
    try (rewrite (Hsuper (mk_is_Some _ _ eq_refl)));
    by destruct pc, gp.
Qed.

(** C6. A class whose inheritance clause names two distinct class types,
    ClassA then ClassB, gets ClassA as its superclass; ClassB is
    diagnosed as multiple inheritance and is not recorded. *)
Theorem C6_multiple_inheritance decl a b classA classB :
  declKind decl = ClassDecl →
  alreadyCheckedInheritanceClause decl = false →
  getInherited decl = [a; b] →
  validateType (tlRepr a) = Some classA →
  validateType (tlRepr b) = Some classB →
  is_Some (getClassOrBoundGenericClass classA) →
  is_Some (getClassOrBoundGenericClass classB) →
  classA ≠ classB →
  getSuperclass (checkInheritanceClause decl).1 = Some classA
  ∧ (checkInheritanceClause decl).2 = [multiple_inheritance classA classB]
  ∧ getSuperclass (checkInheritanceClause decl).1 ≠ Some classB
  ∧ getProtocols (checkInheritanceClause decl).1 = [].
Proof.
  intros Hkind Hfresh Hclause Ha Hb [da Hda] [db Hdb] Hne.
  assert (isExistentialType classA = None) as Hea by (by destruct classA).
  assert (isExistentialType classB = None) as Heb by (by destruct classB).
  assert (checkInheritedFrom decl 0 [a; b] (mkClauseState None [] [] [])
          = ([mkTypeLoc (tlRepr a) (Some classA);
              mkTypeLoc (tlRepr b) (Some classB)],
             mkClauseState (Some classA) [] [classA; classB]
                           [multiple_inheritance classA classB])) as Hloop.
  { simpl. unfold checkInherited. rewrite Ha, Hb. simpl.
    rewrite Hea, Hda. unfold canInheritClass. rewrite Hkind. simpl.
    rewrite decide_False by (rewrite list_elem_of_singleton; congruence).
    by rewrite Heb, Hdb. }
  unfold checkInheritanceClause. rewrite Hfresh, Hclause, Hloop. simpl.
  unfold needsNullConformances. simpl. rewrite Hkind. simpl.
  repeat split; congruence.
Qed.

(** C7. Resolving the inheritance clause of a declaration a second time
    leaves the recorded protocols, superclass and conformance
    placeholders as the first run left them; on a declaration that is
    already checked the run changes nothing and reports nothing. *)
Theorem C7_inheritance_idempotent decl :
  recordedState
    (checkInheritanceClause (checkInheritanceClause decl).1).1
  = recordedState (checkInheritanceClause decl).1
  ∧ (alreadyCheckedInheritanceClause decl = true →
     checkInheritanceClause decl = (decl, [])).
Proof.
  split; [|by unfold checkInheritanceClause; intros ->].
  destruct (alreadyCheckedInheritanceClause decl) eqn:Hc.
  { unfold checkInheritanceClause. by rewrite Hc; simpl; rewrite Hc. }
  destruct (checkInheritedFrom decl 0 (getInherited decl)
              (mkClauseState None [] [] [])) as [clause st] eqn:Hloop.
  destruct (negb (nonEmpty (allProtocols st))
            && negb (bool_decide (is_Some (superclassTy st)))) eqn:Hrec.
  - (* nothing was recorded: the second run repeats the first *)
    assert ((checkInheritanceClause decl).1 = setInherited decl clause)
      as Honce.
    { unfold checkInheritanceClause. by rewrite Hc, Hloop, Hrec. }
    rewrite Honce. unfold checkInheritanceClause at 1.
    change (alreadyCheckedInheritanceClause (setInherited decl clause))
      with (alreadyCheckedInheritanceClause decl).
    rewrite Hc. simpl getInherited.
    rewrite checkInheritedFrom_setInherited.
    rewrite (checkInheritedFrom_again _ _ _ _ _ _ Hloop).
    by rewrite Hrec.
  - (* something was recorded: the second run returns at once *)
    pose proof (recorded_alreadyChecked decl clause st Hloop Hrec) as Hdone.
    unfold checkInheritanceClause at 1. by rewrite Hdone.
Qed.

End Resolution.
End InheritanceFacts.

Module ConformanceFacts.
Import Inheritance.

Lemma setVectorInsert_snoc v ps p :
  setVectorInsert v (ps ++ [p])
  = if decide (p ∈ setVectorInsert v ps) then setVectorInsert v ps
    else setVectorInsert v ps ++ [p].
Proof. unfold setVectorInsert. by rewrite foldl_app. Qed.

Lemma setVectorInsert_cons v ps p :
  setVectorInsert v (p :: ps)
  = setVectorInsert (if decide (p ∈ v) then v else v ++ [p]) ps.
Proof. done. Qed.

Lemma setVectorInsert_elem v ps p :
  p ∈ setVectorInsert v ps ↔ p ∈ v ∨ p ∈ ps.
Proof.
  revert v. induction ps as [|q ps IH]; intros v.
  - simpl. rewrite elem_of_nil. tauto.
  - rewrite setVectorInsert_cons, IH, elem_of_cons.
    destruct (decide (q ∈ v)).
    + split; [tauto|]. intros [?|[->|?]]; auto.
    + rewrite elem_of_app, list_elem_of_singleton. tauto.
Qed.

Lemma setVectorInsert_known v ps :
  (∀ p, p ∈ ps → p ∈ v) → setVectorInsert v ps = v.
Proof.
  induction ps as [|q ps IH]; intros Hin; [done|].
  rewrite setVectorInsert_cons, decide_True by (apply Hin; left).
  apply IH. intros p Hp. apply Hin. by right.
Qed.

Section Gathering.
Context `{TypeValidator} `{ConformanceChecker}.
Variables (D : Decl) (T : Ty).

Lemma gatherProtocols_mirrors protocols ps g :
  mirrors T ps g →
  mirrors T (setVectorInsert ps protocols) (gatherProtocols D T protocols g).
Proof.
  revert ps g.
  induction protocols as [|q rest IH]; intros ps g (Hps & Hknown & Hconf);
    [done|].
  rewrite setVectorInsert_cons. simpl.
  destruct (decide (q ∈ knownProtocols g)) as [Hq|Hq].
  - rewrite decide_True by (by apply Hknown). by apply IH.
  - rewrite decide_False by (by rewrite <- Hknown).
    destruct (conformsToProtocol T q) as [conforms c] eqn:Hc.
    apply IH. split; [|split]; simpl.
    + by rewrite Hps.
    + intros p. rewrite elem_of_union, elem_of_singleton, elem_of_app,
        list_elem_of_singleton, Hknown. tauto.
    + by rewrite Hconf, fmap_app; simpl; rewrite Hc.
Qed.

Lemma gather_after_check decl i e st g :
  covered st → mirrors T (allProtocols st) g →
  let '(e', st') := checkInherited decl i e st in
  ∃ g', gatherInherited D T [e'] g = Some g'
        ∧ covered st' ∧ mirrors T (allProtocols st') g'.
Proof.
  intros Hcov Hmir. unfold checkInherited.
  destruct (validateType (tlRepr e)) as [ty|]; [|by eexists].
  destruct (decide (ty ∈ inheritedTypes st)) as [Hdup|Hnew].
  { simpl. destruct (isExistentialType ty) as [protocols|] eqn:Hex;
      eexists; (split; [done|split; [done|]]); simpl; [|done].
    rewrite <- (setVectorInsert_known (allProtocols st) protocols) by eauto.
    by apply gatherProtocols_mirrors. }
  destruct (isExistentialType ty) as [protocols|] eqn:Hex.
  { simpl. rewrite Hex. eexists. split; [done|]. simpl.
    split; [|by apply gatherProtocols_mirrors].
    intros ty' ps' p. simpl.
    rewrite elem_of_app, list_elem_of_singleton, setVectorInsert_elem.
    intros [Hin| ->] Hex' Hp; [left; eauto|right; congruence]. }
  assert (∀ ds sup,
             covered (mkClauseState sup (allProtocols st)
                                    (inheritedTypes st ++ [ty]) ds))
    as Hcov'.
  { intros ds sup ty' ps' p. simpl.
    rewrite elem_of_app, list_elem_of_singleton.
    intros [Hin| ->] Hex' Hp; [eauto|congruence]. }
  assert (tlType (mkTypeLoc (tlRepr e) (Some ty)) = Some ty) as Hty by done.
  simpl.
  destruct (getClassOrBoundGenericClass ty), (superclassTy st),
    (canInheritClass decl), (decide (0 < i)); simpl;
    try (rewrite Hex; eexists; (split; [done|split; [apply Hcov'|done]]));
    destruct ty; simpl in *; try done;
    eexists; (split; [done|split; [apply Hcov'|done]]).
Qed.

Lemma gatherInherited_cons e rest g :
  gatherInherited D T (e :: rest) g
  = g' ← gatherInherited D T [e] g; gatherInherited D T rest g'.
Proof.
  simpl. destruct (tlType e) as [ty|]; [|done].
  by destruct (isExistentialType ty).
Qed.

Lemma gatherInherited_mirrors clause :
  ∀ ps g g', mirrors T ps g → gatherInherited D T clause g = Some g' →
             ∃ ps', mirrors T ps' g'.
Proof.
  induction clause as [|e rest IH]; intros ps g g' Hmir; simpl.
  - intros [= <-]. by exists ps.
  - destruct (tlType e) as [ty|]; [|done].
    destruct (isExistentialType ty) as [protocols|]; [|by apply (IH ps)].
    apply (IH (setVectorInsert ps protocols)).
    by apply gatherProtocols_mirrors.
Qed.

Lemma gather_after_checkFrom decl i clause st g :
  covered st → mirrors T (allProtocols st) g →
  let '(clause', st') := checkInheritedFrom decl i clause st in
  ∃ g', gatherInherited D T clause' g = Some g'
        ∧ mirrors T (allProtocols st') g'.
Proof.
  revert i st g.
  induction clause as [|e rest IH]; intros i st g Hcov Hmir; simpl.
  { by eexists. }
  pose proof (gather_after_check decl i e st g Hcov Hmir) as Hone.
  destruct (checkInherited decl i e st) as [e1 st1].
  destruct Hone as (g1 & Hg1 & Hcov1 & Hmir1).
  specialize (IH (S i) st1 g1 Hcov1 Hmir1).
  destruct (checkInheritedFrom decl (S i) rest st1) as [rest1 st2].
  destruct IH as (g2 & Hg2 & Hmir2).
  exists g2. split; [|done].
  by rewrite gatherInherited_cons, Hg1.
Qed.

End Gathering.

Section Alignment.
Context `{TypeValidator} `{ConformanceChecker}.

Lemma fresh_not_checked decl :
  getProtocols decl = [] → getSuperclass decl = None →
  alreadyCheckedInheritanceClause decl = false.
Proof.
  unfold alreadyCheckedInheritanceClause. intros -> ->.
  destruct (declKind decl); simpl; try done. apply andb_false_r.
Qed.

Lemma checkInheritanceClause_inherited decl :
  alreadyCheckedInheritanceClause decl = false →
  getInherited (checkInheritanceClause decl).1
  = (checkInheritedFrom decl 0 (getInherited decl)
                        (mkClauseState None [] [] [])).1.
Proof.
  intros Hc. unfold checkInheritanceClause. rewrite Hc.
  destruct (checkInheritedFrom _ _ _ _) as [clause st]. simpl.
  repeat (case_match; simpl; try done).
Qed.

Lemma checkInheritanceClause_protocols decl :
  getProtocols decl = [] → getSuperclass decl = None →
  getProtocols (checkInheritanceClause decl).1
  = allProtocols (checkInheritedFrom decl 0 (getInherited decl)
                                     (mkClauseState None [] [] [])).2.
Proof.
  intros Hps Hsup. unfold checkInheritanceClause.
  rewrite fresh_not_checked by done.
  destruct (checkInheritedFrom _ _ _ _) as [clause st]. simpl.
  destruct (allProtocols st) as [|p ps] eqn:Hall; simpl;
    repeat (case_match; simpl; try done).
Qed.

Lemma checkInheritanceClause_placeholders decl :
  getProtocols decl = [] → getSuperclass decl = None →
  getConformances decl = [] →
  needsNullConformances decl = true →
  getConformances (checkInheritanceClause decl).1
  = replicate (length (getProtocols (checkInheritanceClause decl).1)) None.
Proof.
  intros Hps Hsup Hcs Hnull. unfold checkInheritanceClause.
  rewrite fresh_not_checked by done.
  destruct (checkInheritedFrom _ _ _ _) as [clause st]. simpl.
  unfold needsNullConformances in *.
  destruct decl as [k gp pc dt inh ps sup cs]; simpl in *; subst.
  destruct (allProtocols st) as [|p ps] eqn:Hall,
    (superclassTy st) as [ty|] eqn:Hty, k; simpl in *;
    try done; by rewrite Hnull.
Qed.

(** When gathering returns, the declaration carries the two vectors of
    the loops: a protocol list of the same size was the same list. *)
Lemma gatherExplicitConformances_result D0 T0 D' rec :
  gatherExplicitConformances D0 T0 = Some (D', rec) →
  ∃ g, gatherInherited D0 T0 (getInherited D0) (mkGatherState ∅ [] [] [])
         = Some g
       ∧ getProtocols D' = gatheredProtocols g
       ∧ getConformances D' = gatheredConformances g
       ∧ rec = recorded g.
Proof.
  unfold gatherExplicitConformances.
  destruct (gatherInherited _ _ _ _) as [g|]; [|done].
  intros Hg. exists g. split; [done|].
  destruct (decide (length _ = _)); simpl in Hg.
  - destruct (decide (getProtocols D0 = _)) as [Heq|]; [|done].
    simpl in Hg. by injection Hg as <- <-.
  - by injection Hg as <- <-.
Qed.

(** The two vectors of the gathering loops grow together. *)
Lemma gatherProtocols_lengths D0 T0 protocols g :
  length (gatheredProtocols g) = length (gatheredConformances g) →
  length (gatheredProtocols (gatherProtocols D0 T0 protocols g))
  = length (gatheredConformances (gatherProtocols D0 T0 protocols g)).
Proof.
  revert g. induction protocols as [|q rest IH]; intros g Hlen; [done|].
  simpl. destruct (decide _); [by apply IH|].
  destruct (conformsToProtocol T0 q). apply IH. simpl.
  rewrite !length_app. simpl. lia.
Qed.

Lemma gatherInherited_lengths D0 T0 clause g g' :
  gatherInherited D0 T0 clause g = Some g' →
  length (gatheredProtocols g) = length (gatheredConformances g) →
  length (gatheredProtocols g') = length (gatheredConformances g').
Proof.
  revert g. induction clause as [|e rest IH]; intros g; simpl.
  - by intros [= ->].
  - destruct (tlType e) as [ty|]; [|done].
    destruct (isExistentialType ty); intros Hg Hlen; eapply IH; eauto.
    by apply gatherProtocols_lengths.
Qed.

(** C9 (as the code has it). Whenever explicit conformances have been
    gathered for a declaration, its protocol list and its conformance
    list have the same length and the conformance at each index is the
    checker's answer for the protocol at that index.  For a declaration
    resolved from its parsed state gathering returns and keeps the
    protocols that resolution recorded; for a protocol, an associated
    type or a generic parameter the lists have the same length already
    after inheritance resolution, which fills in null conformances. *)
Theorem C9_conformances_after_gathering :
  (∀ D0 T0 D' rec,
      gatherExplicitConformances D0 T0 = Some (D', rec) →
      length (getProtocols D') = length (getConformances D')
      ∧ ∀ i p, getProtocols D' !! i = Some p →
               getConformances D' !! i
               = Some (conformsToProtocol T0 p).2)
  ∧ (∀ decl T0,
      getProtocols decl = [] → getSuperclass decl = None →
      getConformances decl = [] →
      let checked := (checkInheritanceClause decl).1 in
      (needsNullConformances decl = true →
       getConformances checked
       = replicate (length (getProtocols checked)) None)
      ∧ ∃ D' rec,
          gatherExplicitConformances checked T0 = Some (D', rec)
          ∧ getProtocols D' = getProtocols checked
          ∧ length (getProtocols D') = length (getConformances D')
          ∧ ∀ i p, getProtocols D' !! i = Some p →
                   getConformances D' !! i
                   = Some (conformsToProtocol T0 p).2).
Proof.
  split.
  - intros D0 T0 D' rec Hg.
    apply gatherExplicitConformances_result in Hg
      as (g & Hg & -> & -> & _).
    assert (mirrors T0 [] (mkGatherState ∅ [] [] [])) as Hinit.
    { repeat split; try done; simpl; set_solver. }
    destruct (gatherInherited_mirrors D0 T0 _ _ _ _ Hinit Hg)
      as (ps & Hps & _ & Hconf).
    rewrite Hps, Hconf, length_fmap. split; [done|].
    intros i p Hi. by rewrite list_lookup_fmap, Hi.
  - intros decl T0 Hps Hsup Hcs checked.
    split; [by apply checkInheritanceClause_placeholders|].
    pose proof (gather_after_checkFrom checked T0 decl 0 (getInherited decl)
                  (mkClauseState None [] [] []) (mkGatherState ∅ [] [] []))
      as Hloop.
    pose proof (checkInheritanceClause_inherited decl
                  (fresh_not_checked decl Hps Hsup)) as Hinh.
    pose proof (checkInheritanceClause_protocols decl Hps Hsup) as Hprot.
    fold checked in Hinh, Hprot.
    destruct (checkInheritedFrom decl 0 (getInherited decl)
                (mkClauseState None [] [] [])) as [clause st].
    simpl in Hinh, Hprot.
    destruct Hloop as (g & Hg & Hgp & Hknown & Hgc).
    { by intros ty ps q Hin%elem_of_nil. }
    { repeat split; try done; simpl; set_solver. }
    unfold gatherExplicitConformances. rewrite Hinh, Hg, Hprot, Hgp.
    rewrite !decide_True by done. eexists _, _. split; [done|]. simpl.
    rewrite Hprot, Hgc, length_fmap. repeat split.
    intros i p Hi. by rewrite list_lookup_fmap, Hi.
Qed.

End Alignment.
End ConformanceFacts.

Module ObjCFacts.
Import ObjC.

Lemma ProtocolConformance_nested_ind (P : ProtocolConformance → Prop)
    (Hconf : ∀ witnesses inh,
        Forall (λ i, ∀ c, i.2 = Some c → P c) inh →
        P (mkConformance witnesses inh)) :
  ∀ c, P c.
Proof.
  fix IH 1. intros [witnesses inh]. apply Hconf.
  induction inh as [|[q [c|]] rest IHrest].
  - constructor.
  - constructor; [|exact IHrest]. simpl. intros c' Hc'.
    injection Hc' as <-. apply IH.
  - constructor; [|exact IHrest]. simpl. intros c' Hc'. discriminate Hc'.
Qed.

Lemma foldl_grows {A} (f : gset DeclID → A → gset DeclID) l s :
  Forall (λ a, ∀ s, s ⊆ f s a) l → s ⊆ foldl f s l.
Proof.
  intros Hl. revert s.
  induction Hl as [|a l Ha _ IH]; intros s; simpl; [done|].
  etrans; [apply Ha|apply IH].
Qed.

Lemma mark_witnesses s (witnesses : list (DeclID * DeclID)) w :
  w ∈ foldl (λ s mapping, setIsObjC mapping.2 s) s witnesses
  ↔ w ∈ s ∨ ∃ req, (req, w) ∈ witnesses.
Proof.
  revert s. induction witnesses as [|[r d] rest IH]; intros s; simpl.
  - split; [auto|]. intros [?|[req Hin%elem_of_nil]]; done.
  - rewrite IH. unfold setIsObjC. rewrite elem_of_union, elem_of_singleton.
    split.
    + intros [[->|?]|[req Hin]];
        [right; exists r; left|by left|right; exists req; by right].
    + intros [?|[req [[= -> ->]|Hin]%elem_of_cons]]; eauto.
Qed.

(** Propagation only ever sets bits. *)
Lemma checkNonNullConformance_grows c :
  ∀ protocol s, s ⊆ checkNonNullConformance protocol c s.
Proof.
  induction c as [witnesses inh IH] using ProtocolConformance_nested_ind.
  intros protocol s. simpl.
  etrans; [|apply foldl_grows].
  - destruct (decide _); [|done].
    intros w Hw. apply mark_witnesses. by left.
  - eapply Forall_impl; [exact IH|]. intros [q [c|]] Hc s'; simpl; [|done].
    by apply Hc.
Qed.

Lemma checkObjCConformance_grows protocol conformance s :
  s ⊆ checkObjCConformance protocol conformance s.
Proof.
  destruct conformance; [apply checkNonNullConformance_grows|done].
Qed.

(** Whatever an element of a loop adds on top of any larger state is in
    the result of the whole loop. *)
Lemma foldl_reaches {A} (f : gset DeclID → A → gset DeclID) l s a w :
  (∀ b s, s ⊆ f s b) → a ∈ l →
  (∀ s', s ⊆ s' → w ∈ f s' a) → w ∈ foldl f s l.
Proof.
  intros Hgrow Hin Hw. revert s Hw.
  induction Hin as [a l|a b l Hin IH]; intros s Hw; simpl.
  - eapply (foldl_grows f l); [by apply Forall_forall|]. by apply Hw.
  - apply IH. intros s' Hs'. apply Hw. etrans; [apply Hgrow|done].
Qed.

Lemma nested_marked p c q c' :
  nested p c q c' →
  ∀ s req w, q ∈ s → (req, w) ∈ getWitnesses c' →
             w ∈ checkNonNullConformance p c s.
Proof.
  induction 1 as [p [witnesses inh]|p [witnesses inh] q c' r c'' Hin _ IH];
    intros s req w Hq Hw; simpl in *.
  - rewrite decide_True by done.
    eapply (foldl_grows _ inh).
    + apply Forall_forall. intros [q [c|]] _ s'; simpl; [|done].
      apply checkNonNullConformance_grows.
    + apply mark_witnesses. eauto.
  - eapply foldl_reaches; [|exact Hin|].
    + intros [q' [c|]] s'; simpl; [|done].
      apply checkNonNullConformance_grows.
    + intros s' Hs'. simpl. eapply IH; [|done]. apply Hs'.
      destruct (decide _); [|done]. apply mark_witnesses. by left.
Qed.

(** C8. When ObjC conformances are propagated over the protocols and
    conformances of a declaration, every witness of a non-null
    conformance to an ObjC protocol is marked ObjC, and so is every
    witness of a conformance to an ObjC protocol nested in it through
    inherited conformances, at any depth; a null conformance changes
    nothing. *)
Theorem C8_objc_propagation :
  (∀ protocol s, checkObjCConformance protocol None s = s)
  ∧ (∀ protocol c s q c' req w,
        nested protocol c q c' → q ∈ s → (req, w) ∈ getWitnesses c' →
        w ∈ checkObjCConformance protocol (Some c) s)
  ∧ (∀ protocols conformances s s' i protocol c q c' req w,
        checkObjCConformances protocols conformances s = Some s' →
        protocols !! i = Some protocol → conformances !! i = Some (Some c) →
        nested protocol c q c' → q ∈ s → (req, w) ∈ getWitnesses c' →
        w ∈ s').
Proof.
  split; [done|]. split.
  - intros protocol c s q c' req w Hn Hq Hw. simpl.
    by eapply nested_marked.
  - intros protocols conformances s s' i protocol c q c' req w.
    unfold checkObjCConformances. destruct (decide _); [|done].
    intros [= <-] Hp Hc Hn Hq Hw.
    eapply (foldl_reaches _ _ _ (protocol, Some c)).
    + intros [p oc] s0. apply checkObjCConformance_grows.
    + apply list_elem_of_lookup. exists i.
      by rewrite lookup_zip_with, Hp; simpl; rewrite Hc.
    + intros s0 Hs0. simpl. eapply nested_marked; eauto.
Qed.

End ObjCFacts.

Module ImplicitCtorFacts.
Import ImplicitCtor.

Lemma findConstructor_iff tc members found :
  (findConstructorOrInstanceVar tc members found).1 = true
  ↔ ∃ m, m ∈ members ∧ isaConstructorDecl tc m = true.
Proof.
  revert found. induction members as [|m rest IH]; intros found; simpl.
  - split; [done|]. by intros (m & Hm%elem_of_nil & _).
  - destruct (isaConstructorDecl tc m) eqn:Hm; simpl.
    + split; [|done]. intros _. exists m. split; [left|done].
    + rewrite IH. split; intros (m' & Hin & Hc); exists m'.
      * split; [by right|done].
      * apply elem_of_cons in Hin as [->|Hin]; [congruence|done].
Qed.

Lemma memberwiseElements_stored tc ctor members :
  memberwiseElements tc ctor members
  = (λ var, TypedPattern
              (NamedPattern (newVarDecl (getName var) (getType var) ctor))
              (getType var)) <$> storedMembers tc members.
Proof.
  unfold storedMembers.
  induction members as [|m rest IH]; simpl; [done|].
  destruct (dyn_cast_VarDecl tc m) as [var|]; simpl; [|done].
  destruct (isProperty var); simpl; [done|]. by rewrite IH.
Qed.

Lemma collectVariables_memberwise ctor (vars : list ValueDecl) :
  collectVariables
    (TuplePattern
       ((λ var, TypedPattern
                  (NamedPattern (newVarDecl (getName var) (getType var) ctor))
                  (getType var)) <$> vars))
  = (λ var, newVarDecl (getName var) (getType var) ctor) <$> vars.
Proof.
  simpl. induction vars as [|var l IH]; csimpl; [done|]. by rewrite IH.
Qed.

Lemma fresh_decl tc : decls tc !! fresh (dom (decls tc)) = None.
Proof. apply not_elem_of_dom, is_fresh. Qed.

Lemma getStruct_ne_fresh tc structDecl sd :
  getStruct tc structDecl = Some sd → structDecl ≠ fresh (dom (decls tc)).
Proof.
  unfold getStruct. intros Hsd ->. by rewrite fresh_decl in Hsd.
Qed.

(** C2. On a struct without any constructor member (a struct as parsed
    without a user-declared constructor) that is not yet queued for a
    default constructor, [addImplicitConstructors] appends one new
    implicit constructor to the members; its parameter tuple has, in the
    order of the members, one parameter per stored member (a variable
    that is not a property): a typed pattern over a new variable that
    has the name and the type of the member.  A struct with a
    user-declared constructor is left as it is. *)
Theorem C2_memberwise_constructor tc structDecl sd :
  getStruct tc structDecl = Some sd →
  ((∀ m, m ∈ getMembers sd → isaConstructorDecl tc m = false) →
   structDecl ∉ structsNeedingImplicitDefaultConstructor tc →
   ∃ tc' params,
     let ctor := fresh (dom (decls tc)) in
     addImplicitConstructors tc structDecl = Some tc'
     ∧ decls tc !! ctor = None
     ∧ getStruct tc' structDecl
       = Some (mkStructDecl (getMembers sd ++ [ctor]) (hasClangNode sd))
     ∧ decls tc' !! ctor
       = Some (ConstructorDeclNode
                 (mkConstructorDecl (TuplePattern params) true None))
     ∧ Forall2 (parameterFor ctor) (storedMembers tc (getMembers sd)) params
     ∧ getName <$> collectVariables (TuplePattern params)
       = getName <$> storedMembers tc (getMembers sd)
     ∧ getType <$> collectVariables (TuplePattern params)
       = getType <$> storedMembers tc (getMembers sd))
  ∧ ((∃ m c, m ∈ getMembers sd
             ∧ decls tc !! m = Some (ConstructorDeclNode c)
             ∧ isImplicit c = false) →
     addImplicitConstructors tc structDecl = Some tc).
Proof.
  intros Hsd.
  pose proof (getStruct_ne_fresh _ _ _ Hsd) as Hne.
  pose proof (findConstructor_iff tc (getMembers sd) false) as Hfind.
  unfold addImplicitConstructors. rewrite Hsd. simpl.
  destruct (findConstructorOrInstanceVar tc (getMembers sd) false)
    as [found ivar]; simpl in Hfind.
  split.
  - intros Hnone Hqueue.
    assert (found = false) as ->.
    { apply not_true_is_false. rewrite Hfind. intros (m & Hin & Hm).
      by rewrite Hnone in Hm. }
    simpl. unfold createImplicitConstructor. rewrite Hsd. simpl.
    rewrite memberwiseElements_stored.
    set (ctor := fresh (dom (decls tc))) in *.
    set (params := _ <$> storedMembers tc (getMembers sd)).
    set (node := ConstructorDeclNode _).
    assert (∀ tc0, decls tc0 = <[ctor:=node]> (decls tc) →
              appendMember tc0 structDecl ctor
              = Some (setDecls tc0
                        (<[structDecl :=
                             StructDeclNode
                               (mkStructDecl (getMembers sd ++ [ctor])
                                             (hasClangNode sd))]>
                           (decls tc0)))) as Happend.
    { intros tc0 Htc0. unfold appendMember, getStruct. rewrite Htc0.
      rewrite lookup_insert_ne by done.
      unfold getStruct in Hsd.
      destruct (decls tc !! structDecl) as [[]|]; simplify_eq. done. }
    assert (Forall2 (parameterFor ctor) (storedMembers tc (getMembers sd))
                    params) as Hparams.
    { apply Forall2_fmap_r, Forall_Forall2_diag, Forall_forall.
      intros var _. by eexists. }
    assert (collectVariables (TuplePattern params)
            = (λ var, newVarDecl (getName var) (getType var) ctor)
                <$> storedMembers tc (getMembers sd)) as Hvars.
    { apply collectVariables_memberwise. }
    assert (getName <$> collectVariables (TuplePattern params)
            = getName <$> storedMembers tc (getMembers sd)) as Hnames.
    { rewrite Hvars, <- list_fmap_compose. by apply list_fmap_ext. }
    assert (getType <$> collectVariables (TuplePattern params)
            = getType <$> storedMembers tc (getMembers sd)) as Htypes.
    { rewrite Hvars, <- list_fmap_compose. by apply list_fmap_ext. }
    clear Hvars.
    exists (let tc1 :=
              setDecls
                (if hasClangNode sd
                 then mkTypeChecker (<[ctor:=node]> (decls tc))
                        (if decide (ctor ∈ ExternalDefinitions tc)
                         then ExternalDefinitions tc
                         else ExternalDefinitions tc ++ [ctor])
                        (structsNeedingImplicitDefaultConstructor tc)
                        (structsWithImplicitDefaultConstructor tc)
                        (implicitlyDefinedFunctions tc) (Diags tc)
                 else setDecls tc (<[ctor:=node]> (decls tc)))
                (<[structDecl :=
                     StructDeclNode
                       (mkStructDecl (getMembers sd ++ [ctor])
                                     (hasClangNode sd))]>
                   (<[ctor:=node]> (decls tc))) in
            if ivar
            then mkTypeChecker (decls tc1) (ExternalDefinitions tc1)
                   ({[structDecl]}
                    ∪ structsNeedingImplicitDefaultConstructor tc1)
                   (structsWithImplicitDefaultConstructor tc1 ++ [structDecl])
                   (implicitlyDefinedFunctions tc1) (Diags tc1)
            else tc1), params.
    destruct (hasClangNode sd) eqn:Hclang; (rewrite Happend by done); simpl;
      destruct ivar; simpl; rewrite ?decide_False by done;
      (split; [done|]);
      unfold getStruct; simpl;
      rewrite lookup_insert_eq, lookup_insert_ne, lookup_insert_eq by done;
      (split; [apply fresh_decl|done]).
  - intros (m & c & Hin & Hm & _).
    assert (found = true) as ->; [|done].
    apply Hfind. exists m. split; [done|].
    unfold isaConstructorDecl. by rewrite Hm.
Qed.

Section FinalPass.
Context `{NameLookup}.

Lemma variablesDefaultInitializable_typed variables :
  (∀ var, var ∈ List.filter (λ var, negb (isProperty var)) variables →
          ∃ ty, getType var = Some ty
                ∧ DefaultInit.withoutElementInitializers ty = true) →
  variablesDefaultInitializable variables
  = Some (forallb defaultInitializableVar
            (List.filter (λ var, negb (isProperty var)) variables)).
Proof.
  induction variables as [|var rest IH]; intros Htyped; simpl; [done|].
  simpl in Htyped.
  destruct (isProperty var) eqn:Hp; simpl in *; [by apply IH|].
  destruct (Htyped var) as (ty & Hty & Hfree); [left|].
  unfold defaultInitializableVar at 1. rewrite Hty.
  destruct (DefaultInitFacts.isDefaultInitializable_returns ty false Hfree)
    as [[[] w] ->]; simpl; [|done].
  apply IH. intros v Hv. apply Htyped. by right.
Qed.

Lemma membersDefaultInitializable_typed tc members :
  (∀ var, var ∈ uninitializedStoredVariables tc members →
          ∃ ty, getType var = Some ty
                ∧ DefaultInit.withoutElementInitializers ty = true) →
  membersDefaultInitializable tc members
  = Some (forallb defaultInitializableVar
            (uninitializedStoredVariables tc members)).
Proof.
  unfold uninitializedStoredVariables.
  induction members as [|m rest IH]; intros Htyped; simpl in *; [done|].
  destruct (dyn_cast_PatternBindingDecl tc m) as [pbd|]; [|by apply IH].
  destruct (getInit pbd); [by apply IH|].
  rewrite variablesDefaultInitializable_typed, forallb_app
    by (intros v Hv; apply Htyped, elem_of_app; by left).
  destruct (forallb _ (List.filter _ _)); simpl; [|done].
  apply IH. intros v Hv. apply Htyped, elem_of_app. by right.
Qed.

Lemma membersDefaultInitializable_decls tc tc' members :
  decls tc' = decls tc →
  membersDefaultInitializable tc' members
  = membersDefaultInitializable tc members.
Proof.
  intros Hd. induction members as [|m rest IH]; simpl; [done|].
  unfold dyn_cast_PatternBindingDecl. by rewrite Hd, IH.
Qed.

Lemma uninitializedStoredVariables_bindings tc tc' members :
  (∀ d, dyn_cast_PatternBindingDecl tc' d = dyn_cast_PatternBindingDecl tc d) →
  uninitializedStoredVariables tc' members
  = uninitializedStoredVariables tc members.
Proof.
  intros Hb. unfold uninitializedStoredVariables.
  induction members as [|m rest IH]; simpl; [done|]. by rewrite Hb, IH.
Qed.

Lemma unchangedOutside_bindings tc tc' d :
  unchangedOutside tc tc' →
  dyn_cast_PatternBindingDecl tc' d = dyn_cast_PatternBindingDecl tc d.
Proof.
  intros Huo. unfold dyn_cast_PatternBindingDecl.
  destruct (decls tc !! d) as [node|] eqn:Hd.
  - destruct (decide (isStructNode node = false)) as [Hns|Hs].
    + by rewrite (uo_kept _ _ Huo _ _ Hd (or_intror Hns)).
    + destruct node; try done.
      destruct (decls tc' !! d) as [[]|] eqn:Hd'; try done.
      by rewrite (uo_bindings _ _ Huo _ _ Hd') in Hd.
  - destruct (decls tc' !! d) as [[]|] eqn:Hd'; try done.
    by rewrite (uo_bindings _ _ Huo _ _ Hd') in Hd.
Qed.

Lemma unchangedOutside_refl tc : unchangedOutside tc tc.
Proof. by split. Qed.

Lemma unchangedOutside_trans tc1 tc2 tc3 :
  unchangedOutside tc1 tc2 → unchangedOutside tc2 tc3 →
  unchangedOutside tc1 tc3.
Proof.
  intros [] []. split.
  - congruence.
  - set_solver.
  - auto.
  - auto.
  - intros d node Hd Hor. apply uo_kept1; [by apply uo_kept0|].
    destruct Hor; [left; set_solver|by right].
  - auto.
Qed.

Lemma defineDefaultConstructor_blocked tc structDecl sd :
  structDecl ∈ structsNeedingImplicitDefaultConstructor tc →
  getStruct tc structDecl = Some sd →
  membersDefaultInitializable tc (getMembers sd) = Some false →
  defineDefaultConstructor tc structDecl
  = Some (withoutNeeding tc structDecl).
Proof.
  intros Hneed Hsd Hm. unfold defineDefaultConstructor.
  rewrite decide_False by (by intros Hnot).
  change (getStruct (mkTypeChecker (decls tc) _ _ _ _ _) structDecl)
    with (getStruct tc structDecl).
  rewrite Hsd. simpl.
  rewrite (membersDefaultInitializable_decls tc) by done. by rewrite Hm.
Qed.

Lemma defineDefaultConstructor_defined tc structDecl sd :
  structDecl ∈ structsNeedingImplicitDefaultConstructor tc →
  getStruct tc structDecl = Some sd →
  membersDefaultInitializable tc (getMembers sd) = Some true →
  ∃ tc',
    let ctor := fresh (dom (decls tc)) in
    defineDefaultConstructor tc structDecl = Some tc'
    ∧ decls tc'
      = <[ctor := defaultConstructor]>
          (<[structDecl := StructDeclNode
                             (mkStructDecl (getMembers sd ++ [ctor])
                                           (hasClangNode sd))]>
             (decls tc))
    ∧ structsNeedingImplicitDefaultConstructor tc'
      = structsNeedingImplicitDefaultConstructor tc ∖ {[structDecl]}
    ∧ implicitlyDefinedFunctions tc'
      = implicitlyDefinedFunctions tc ++ [ctor]
    ∧ Diags tc' = Diags tc.
Proof.
  intros Hneed Hsd Hm.
  pose proof (getStruct_ne_fresh _ _ _ Hsd) as Hne.
  unfold defineDefaultConstructor.
  rewrite decide_False by (by intros Hnot).
  change (getStruct (mkTypeChecker (decls tc) _ _ _ _ _) structDecl)
    with (getStruct tc structDecl).
  rewrite Hsd. simpl.
  rewrite (membersDefaultInitializable_decls tc) by done. rewrite Hm. simpl.
  unfold createImplicitConstructor.
  change (getStruct (mkTypeChecker (decls tc) _ _ _ _ _) structDecl)
    with (getStruct tc structDecl).
  rewrite Hsd. simpl.
  set (ctor := fresh (dom (decls tc))) in *.
  assert (∀ ds, getStruct tc structDecl = Some sd →
            (match <[ctor:=ds]> (decls tc) !! structDecl with
             | Some (StructDeclNode s) => Some s
             | _ => None
             end) = Some sd) as Hlook.
  { intros ds. unfold getStruct. by rewrite lookup_insert_ne. }
  destruct (hasClangNode sd) eqn:Hclang;
    unfold appendMember, getStruct; simpl; rewrite Hlook by done; simpl;
    unfold setBody; simpl;
    rewrite lookup_insert_ne, lookup_insert_eq by done; simpl;
    eexists; (split; [done|]); simpl;
    (split; [|done]);
    rewrite Hclang, (insert_insert_ne _ structDecl ctor) by done;
    by rewrite insert_insert_eq.
Qed.

(** One call either gives up or defines the constructor; either way the
    rest of the context is left alone. *)
Lemma defineDefaultConstructor_outcome tc x sd :
  getStruct tc x = Some sd →
  x ∈ structsNeedingImplicitDefaultConstructor tc →
  typedStoredVariables tc sd →
  ∃ tc1,
    defineDefaultConstructor tc x = Some tc1
    ∧ unchangedOutside tc tc1
    ∧ (x ∉ structsNeedingImplicitDefaultConstructor tc1)
    ∧ (∀ d, d ≠ x → d ∈ structsNeedingImplicitDefaultConstructor tc →
            d ∈ structsNeedingImplicitDefaultConstructor tc1)
    ∧ (∀ d, d ≠ x → is_Some (decls tc !! d) →
            decls tc1 !! d = decls tc !! d)
    ∧ (if forallb defaultInitializableVar
            (uninitializedStoredVariables tc (getMembers sd))
       then ∃ ctor,
              decls tc !! ctor = None
              ∧ getStruct tc1 x
                = Some (mkStructDecl (getMembers sd ++ [ctor])
                                     (hasClangNode sd))
              ∧ decls tc1 !! ctor = Some defaultConstructor
              ∧ ctor ∈ implicitlyDefinedFunctions tc1
       else getStruct tc1 x = Some sd).
Proof.
  intros Hsd Hneed Htyped.
  pose proof (membersDefaultInitializable_typed tc (getMembers sd) Htyped)
    as Hm.
  destruct (forallb _ _).
  - destruct (defineDefaultConstructor_defined tc x sd Hneed Hsd Hm)
      as (tc1 & Hdef & Hdecls & Hneeding & Hfun & Hdiags).
    pose proof (getStruct_ne_fresh _ _ _ Hsd) as Hne.
    pose proof (fresh_decl tc) as Hfresh.
    set (ctor := fresh (dom (decls tc))) in *.
    assert (∀ d, d ≠ x → is_Some (decls tc !! d) →
                 decls tc1 !! d = decls tc !! d) as Hframe.
    { intros d Hdx [node Hd]. rewrite Hdecls.
      rewrite !lookup_insert_ne; [done|done|congruence]. }
    exists tc1. repeat split; try done.
    + rewrite Hneeding. by apply subseteq_difference_l.
    + intros c Hc. rewrite Hfun. apply elem_of_app. by left.
    + intros d [node Hd]. rewrite Hdecls.
      destruct (decide (ctor = d)) as [<-|]; [by rewrite lookup_insert_eq|].
      rewrite lookup_insert_ne by done.
      destruct (decide (x = d)) as [<-|]; [by rewrite lookup_insert_eq|].
      by rewrite lookup_insert_ne, Hd.
    + intros d node Hd Hor. rewrite Hframe; [done| |by eexists].
      intros ->. unfold getStruct in Hsd. rewrite Hd in Hsd.
      destruct Hor; [done|]. by destruct node.
    + intros d pbd. rewrite Hdecls.
      destruct (decide (ctor = d)) as [<-|]; [by rewrite lookup_insert_eq|].
      rewrite lookup_insert_ne by done.
      destruct (decide (x = d)) as [<-|]; [by rewrite lookup_insert_eq|].
      by rewrite lookup_insert_ne.
    + rewrite Hneeding, elem_of_difference, elem_of_singleton. tauto.
    + intros d Hd Hin.
      by rewrite Hneeding, elem_of_difference, elem_of_singleton.
    + exists ctor. unfold getStruct. rewrite Hdecls, Hfun.
      rewrite lookup_insert_eq, lookup_insert_ne, lookup_insert_eq by done.
      repeat split; try done. apply elem_of_app. right. by left.
  - exists (withoutNeeding tc x).
    split; [by apply (defineDefaultConstructor_blocked tc x sd)|].
    repeat split; simpl; try done.
    + by apply subseteq_difference_l.
    + rewrite elem_of_difference, elem_of_singleton. tauto.
    + intros d Hd Hin. by rewrite elem_of_difference, elem_of_singleton.
Qed.

Lemma outcome_preserves_pending tc tc1 x rest :
  unchangedOutside tc tc1 →
  (∀ d, d ≠ x → is_Some (decls tc !! d) → decls tc1 !! d = decls tc !! d) →
  x ∉ structsNeedingImplicitDefaultConstructor tc1 →
  wellFormedPending tc (x :: rest) → wellFormedPending tc1 rest.
Proof.
  intros Huo Hframe Hx Hwf y Hy Hneed.
  assert (y ≠ x) as Hyx by (by intros ->).
  destruct (Hwf y) as (sd & Hsd & Htyped);
    [by right|by apply (uo_needing _ _ Huo)|].
  exists sd. split.
  - unfold getStruct in *. rewrite Hframe; [done|done|].
    by destruct (decls tc !! y).
  - intros var. rewrite (uninitializedStoredVariables_bindings tc tc1)
      by (intros d; by apply unchangedOutside_bindings).
    apply Htyped.
Qed.

Lemma definePending_total tc structs :
  wellFormedPending tc structs → is_Some (definePending tc structs).
Proof.
  revert tc. induction structs as [|x rest IH]; intros tc Hwf; simpl.
  - by eexists.
  - destruct (decide _) as [Hneed|Hnot].
    + destruct (Hwf x) as (sd & Hsd & Htyped); [left|done|].
      destruct (defineDefaultConstructor_outcome tc x sd Hsd Hneed Htyped)
        as (tc1 & -> & Huo & Hx & _ & Hframe & _).
      apply IH. by eapply outcome_preserves_pending.
    + apply IH. intros y Hy Hneed. apply Hwf; [by right|done].
Qed.

Lemma definePending_unchangedOutside tc structs tc' :
  wellFormedPending tc structs →
  definePending tc structs = Some tc' → unchangedOutside tc tc'.
Proof.
  revert tc. induction structs as [|x rest IH]; intros tc Hwf; simpl.
  - intros [= <-]. apply unchangedOutside_refl.
  - destruct (decide _) as [Hneed|Hnot].
    + destruct (Hwf x) as (sd & Hsd & Htyped); [left|done|].
      destruct (defineDefaultConstructor_outcome tc x sd Hsd Hneed Htyped)
        as (tc1 & -> & Huo & Hx & _ & Hframe & _).
      intros Hrest. eapply unchangedOutside_trans; [exact Huo|].
      eapply IH; [|exact Hrest]. by eapply outcome_preserves_pending.
    + apply IH. intros y Hy Hneed. apply Hwf; [by right|done].
Qed.

(** C1. The final pass completes on well-formed pending structs (each
    one a struct declaration whose uninitialized stored variables have
    a type in which no tuple element carries a default value, as the
    assertion of [isDefaultInitializable] asks) and reports nothing.
    For a struct that is pending default-constructor
    synthesis: when some stored variable of an initializer-less member
    binding has a type that is not default-initializable the struct keeps
    its members; otherwise exactly one new constructor, without
    parameters and with an empty body, is appended to the members and is
    among the implicitly defined functions. *)
Theorem C1_default_constructor tc :
  wellFormedPending tc (structsWithImplicitDefaultConstructor tc) →
  ∃ tc',
    definePendingImplicitDecls tc = Some tc'
    ∧ Diags tc' = Diags tc
    ∧ ∀ structDecl sd,
        structDecl ∈ structsWithImplicitDefaultConstructor tc →
        structDecl ∈ structsNeedingImplicitDefaultConstructor tc →
        getStruct tc structDecl = Some sd →
        if forallb defaultInitializableVar
             (uninitializedStoredVariables tc (getMembers sd))
        then ∃ ctor,
               decls tc !! ctor = None
               ∧ getStruct tc' structDecl
                 = Some (mkStructDecl (getMembers sd ++ [ctor])
                                      (hasClangNode sd))
               ∧ decls tc' !! ctor = Some defaultConstructor
               ∧ ctor ∈ implicitlyDefinedFunctions tc'
        else getStruct tc' structDecl = Some sd.
Proof.
  unfold definePendingImplicitDecls.
  generalize (structsWithImplicitDefaultConstructor tc) as structs.
  intros structs Hwf.
  destruct (definePending_total tc structs Hwf) as [tc' Hpass].
  exists tc'. split; [done|].
  split; [by eapply uo_diags, definePending_unchangedOutside|].
  revert tc Hwf Hpass.
  induction structs as [|x rest IH]; intros tc Hwf Hpass structDecl sd Hin
    Hneed Hsd; [by apply elem_of_nil in Hin|].
  simpl in Hpass.
  destruct (decide (x ∈ structsNeedingImplicitDefaultConstructor tc))
    as [Hx|Hx].
  - destruct (Hwf x) as (sdx & Hsdx & Htyped); [left|done|].
    destruct (defineDefaultConstructor_outcome tc x sdx Hsdx Hx Htyped)
      as (tc1 & Hdef & Huo & Hgone & Hstay & Hframe & Hout).
    rewrite Hdef in Hpass.
    pose proof (outcome_preserves_pending _ _ _ _ Huo Hframe Hgone Hwf)
      as Hwf1.
    pose proof (definePending_unchangedOutside _ _ _ Hwf1 Hpass) as Huo'.
    destruct (decide (structDecl = x)) as [->|Hne].
    + (* the struct is defined now; the rest of the pass keeps it *)
      assert (sdx = sd) as -> by congruence.
      assert (∀ d node, decls tc1 !! d = Some node →
                d = x ∨ isStructNode node = false →
                decls tc' !! d = Some node) as Hkeep.
      { intros d node Hd [->|Hns]; eapply (uo_kept _ _ Huo'); eauto. }
      destruct (forallb _ _).
      * destruct Hout as (ctor & Hnew & Hstruct & Hctor & Hfun).
        exists ctor. split; [done|].
        unfold getStruct in *.
        destruct (decls tc1 !! x) as [node|] eqn:Hnode; [|done].
        rewrite (Hkeep _ _ Hnode) by (by left).
        rewrite (Hkeep _ _ Hctor) by (by right).
        repeat split; try done. by apply (uo_functions _ _ Huo').
      * unfold getStruct in *.
        destruct (decls tc1 !! x) as [node|] eqn:Hnode; [|done].
        by rewrite (Hkeep _ _ Hnode) by (by left).
    + (* another struct is defined now; this one is still pending *)
      apply elem_of_cons in Hin as [?|Hin]; [done|].
      assert (getStruct tc1 structDecl = Some sd) as Hsd1.
      { unfold getStruct in *. rewrite Hframe; [done|done|].
        by destruct (decls tc !! structDecl). }
      specialize (IH tc1 Hwf1 Hpass structDecl sd Hin
                     (Hstay _ Hne Hneed) Hsd1).
      rewrite (uninitializedStoredVariables_bindings tc tc1) in IH
        by (intros d; by apply unchangedOutside_bindings).
      destruct (forallb _ _); [|done].
      destruct IH as (ctor & Hnew & Hrest). exists ctor. split; [|done].
      destruct (decls tc !! ctor) eqn:Hold; [|done].
      destruct (uo_dom _ _ Huo ctor) as [? ?]; [by eexists|congruence].
  - assert (structDecl ≠ x) as Hne by (by intros ->).
    apply elem_of_cons in Hin as [?|Hin]; [done|].
    eapply IH; eauto.
    intros y Hy Hyneed. apply Hwf; [by right|done].
Qed.

End FinalPass.
End ImplicitCtorFacts.

Module AttributeFacts.
Import Attributes.

Section WithQueries.
Context `{ASTQueries}.

(** Splits the outcome of a block into its cases. *)
Ltac block_cases :=
  repeat first
    [ progress simplify_option_eq
    | case_match
    | progress (simpl in *) ].

Lemma runBlocks_diags (Q : Diag → Prop) blocks :
  Forall (λ block : ValueDecl → Outcome,
            ∀ VD flow VD' ds, block VD = Some (flow, VD', ds) → Forall Q ds)
         blocks →
  ∀ VD flow VD' ds,
    runBlocks blocks VD = Some (flow, VD', ds) → Forall Q ds.
Proof.
  induction 1 as [|block rest Hblock _ IH]; intros VD flow VD' ds; simpl.
  - by intros [= <- <- <-].
  - destruct (block VD) as [[[[] V1] d1]|] eqn:Hb; [| |done].
    + intros [= <- <- <-]. eauto.
    + destruct (runBlocks rest V1) as [[[f2 V2] d2]|] eqn:Hr; [|done].
      intros [= <- <- <-]. apply Forall_app. eauto.
Qed.

Lemma validateAttributes_no_default_init VD VD' ds :
  validateAttributes VD = Some (VD', ds) →
  Forall (λ dg, PatternBinding.aboutDefaultInit dg = false) ds.
Proof.
  unfold validateAttributes. intros Hv.
  apply bind_Some in Hv as (n & _ & Hv).
  apply bind_Some in Hv as ([[flow V] d] & Hrun & Hv).
  injection Hv as <- <-.
  revert Hrun. apply runBlocks_diags.
  repeat apply Forall_cons_2; [..|apply Forall_nil_2];
    intros V0 f V1 d0;
    unfold operatorBlock, objcBlock, ownershipBlock, iboutletBlock,
      ibactionBlock, infixBlock, postfixBlock, prefixBlock, assignmentBlock,
      conversionBlock, forceInlineBlock, invalidBlock, classProtocolBlock;
    intros Hb; block_cases; repeat constructor.
Qed.

Lemma isSet_clearAttribute k k0 a :
  isSet k (clearAttribute k0 a) = if decide (k = k0) then false else isSet k a.
Proof. by destruct k, k0. Qed.

Lemma runBlocks_app blocks1 blocks2 VD :
  runBlocks (blocks1 ++ blocks2) VD
  = match runBlocks blocks1 VD with
    | None => None
    | Some (Return, V, d) => Some (Return, V, d)
    | Some (Continue, V, d) =>
        match runBlocks blocks2 V with
        | None => None
        | Some (flow, V', d') => Some (flow, V', d ++ d')
        end
    end.
Proof.
  revert VD. induction blocks1 as [|block rest IH]; intros VD; simpl.
  - by destruct (runBlocks blocks2 VD) as [[[] ?]|].
  - destruct (block VD) as [[[[] V1] d1]|]; try done.
    rewrite IH. destruct (runBlocks rest V1) as [[[[] V2] d2]|]; try done.
    destruct (runBlocks blocks2 V2) as [[[f V3] d3]|]; try done.
    by rewrite app_assoc.
Qed.

Ltac bool_hyps :=
  repeat match goal with
    | H : _ && _ = true |- _ => apply andb_prop in H as [? ?]
    | H : _ || _ = false |- _ => apply orb_false_elim in H as [? ?]
    | H : negb _ = true |- _ => apply negb_true_iff in H
    | H : negb _ = false |- _ => apply negb_false_iff in H
    end.

Ltac block_spec :=
  intros Hb; block_cases; bool_hyps;
  (split; [done|]);
  first [by left
        |right; eexists; repeat split; simpl;
         first [done|apply bool_decide_eq_true_2; by eauto]].

Lemma operatorBlock_spec VD flow V d :
  operatorBlock VD = Some (flow, V, d) →
  V = VD
  ∧ ((d = [] ∧ flow = Continue)
     ∨ ∃ dg, d = [dg] ∧ diagnosedAttribute dg = None ∧ flow = Return).
Proof.
  unfold operatorBlock. intros Hb. block_cases; split; try done;
    first [by left|right; by eexists].
Qed.

Lemma objcBlock_spec VD flow V d :
  objcBlock VD = Some (flow, V, d) → blockSpec AK_objc VD flow V d.
Proof. unfold objcBlock. block_spec. Qed.

Lemma ownershipBlock_spec VD flow V d :
  ownershipBlock VD = Some (flow, V, d) → blockSpec AK_ownership VD flow V d.
Proof. unfold ownershipBlock. block_spec. Qed.

Lemma iboutletBlock_spec VD flow V d :
  iboutletBlock VD = Some (flow, V, d) → blockSpec AK_iboutlet VD flow V d.
Proof. unfold iboutletBlock. block_spec. Qed.

Lemma ibactionBlock_spec VD flow V d :
  ibactionBlock VD = Some (flow, V, d) → blockSpec AK_ibaction VD flow V d.
Proof. unfold ibactionBlock. block_spec. Qed.

Lemma infixBlock_spec VD flow V d :
  infixBlock VD = Some (flow, V, d) → blockSpec AK_infix VD flow V d.
Proof. unfold infixBlock. block_spec. Qed.

Lemma postfixBlock_spec VD flow V d :
  postfixBlock VD = Some (flow, V, d) → blockSpec AK_postfix VD flow V d.
Proof. unfold postfixBlock. block_spec. Qed.

Lemma prefixBlock_spec VD flow V d :
  prefixBlock VD = Some (flow, V, d) → blockSpec AK_prefix VD flow V d.
Proof. unfold prefixBlock. block_spec. Qed.



Lemma clearingAttributes_iff k :
  k ∈ clearingAttributes ↔ returning k = false.
Proof.
  unfold clearingAttributes.
  destruct k; split; intros Hk; simpl in *; try done;
    first [by repeat first [apply list_elem_of_here|apply list_elem_of_further]
          |exfalso; by repeat (apply elem_of_cons in Hk as [Hk|Hk];
                               [discriminate Hk|]);
                    apply elem_of_nil in Hk].
Qed.

Ltac bool_equations :=
  repeat match goal with
         | Hn : negb _ = true |- _ => apply negb_true_iff in Hn
         | Hn : negb _ = false |- _ => apply negb_false_iff in Hn
         | Hn : _ || _ = false |- _ => apply orb_false_iff in Hn as [? ?]
         | Hn : _ && _ = true |- _ => apply andb_true_iff in Hn as [? ?]
         | Hn : bool_decide _ = true |- _ => apply bool_decide_eq_true_1 in Hn
         | Hn : bool_decide _ = false |- _ =>
             apply bool_decide_eq_false_1 in Hn
         end.

Ltac use_equations :=
  repeat match goal with
         | Heq : ?x = true |- context [?x] => rewrite Heq
         | Heq : ?x = false |- context [?x] => rewrite Heq
         | Heq : ?x = Some _ |- context [?x] => rewrite Heq
         | Heq : ?x = None |- context [?x] => rewrite Heq
         | Heq : vdKind _ = _ |- _ => rewrite Heq
         end.

Ltac split_bools :=
  repeat match goal with
         | |- context [negb ?b] =>
             lazymatch b with
             | true => fail | false => fail | _ && _ => fail
             | _ || _ => fail | negb _ => fail
             | _ => destruct b eqn:?; simpl in *
             end
         | |- context [?b && _] =>
             lazymatch b with
             | true => fail | false => fail | _ && _ => fail
             | _ || _ => fail | negb _ => fail
             | _ => destruct b eqn:?; simpl in *
             end
         end.

(** What the check of a returning block decides. *)
Definition checks (k : Attribute) (VD : ValueDecl) (flow : Flow) : Prop :=
  violated k VD = match flow with Return => true | Continue => false end.

Ltac block_checks :=
  intros Hb; block_cases; bool_equations;
  (split;
     [simpl; use_equations; simpl; try done; split_bools; try done;
      try congruence
     |first [done|by auto|by intros _; right; split; [done|eauto]]]).
Lemma operatorBlock_checks VD flow V d :
  operatorBlock VD = Some (flow, V, d) →
  operatorDeclaration VD
  = match flow with Return => false | Continue => true end.
Proof.
  unfold operatorBlock, operatorDeclaration.
  intros Hb; block_cases; bool_equations; simpl; use_equations; simpl;
    try done.
Qed.

Lemma objcBlock_checks VD flow V d :
  objcBlock VD = Some (flow, V, d) →
  checks AK_objc VD flow ∧ (flow = Continue → V = VD).
Proof.
  unfold objcBlock, checks, violated, precondition, inClassContext,
    isaClassDecl, isaFuncDecl, isVarDecl, dyn_cast_FuncDecl.
  block_checks; by destruct requiresClass.
Qed.

Lemma ownershipBlock_checks VD flow V d :
  ownershipBlock VD = Some (flow, V, d) →
  checks AK_ownership VD flow
  ∧ (flow = Continue →
     V = VD ∨ (isVarDecl VD = true ∧ ∃ ty, V = overwriteType VD ty)).
Proof.
  unfold ownershipBlock, checks, violated, precondition. block_checks.
Qed.

Lemma iboutletBlock_checks VD flow V d :
  iboutletBlock VD = Some (flow, V, d) →
  checks AK_iboutlet VD flow ∧ (flow = Continue → V = VD).
Proof.
  unfold iboutletBlock, checks, violated, precondition, inClassContext.
  block_checks.
Qed.

Lemma ibactionBlock_checks VD flow V d :
  ibactionBlock VD = Some (flow, V, d) →
  checks AK_ibaction VD flow ∧ (flow = Continue → V = VD).
Proof.
  unfold ibactionBlock, checks, violated, precondition, curriedResultType.
  block_checks.
Qed.

Lemma infixBlock_checks VD flow V d :
  infixBlock VD = Some (flow, V, d) →
  checks AK_infix VD flow ∧ (flow = Continue → V = VD).
Proof. unfold infixBlock, checks, violated, precondition. block_checks. Qed.

Lemma postfixBlock_checks VD flow V d :
  postfixBlock VD = Some (flow, V, d) →
  checks AK_postfix VD flow ∧ (flow = Continue → V = VD).
Proof. unfold postfixBlock, checks, violated, precondition. block_checks. Qed.

Lemma prefixBlock_checks VD flow V d :
  prefixBlock VD = Some (flow, V, d) →
  checks AK_prefix VD flow ∧ (flow = Continue → V = VD).
Proof. unfold prefixBlock, checks, violated, precondition. block_checks. Qed.

(** What a clearing block does: it clears its attribute with one
    diagnostic when the precondition is violated, and nothing
    otherwise. *)
Definition clears (k : Attribute) (VD V : ValueDecl) (d : list Diag)
    : Prop :=
  if violated k VD
  then V = clear k VD ∧ ∃ dg, d = [dg] ∧ diagnosedAttribute dg = Some k
  else V = VD ∧ d = [].

Ltac absurd_bools :=
  repeat match goal with
         | Hn : _ || _ = true |- _ => apply orb_true_iff in Hn as [Hn|Hn]
         | Hn : _ && _ = false |- _ => apply andb_false_iff in Hn as [Hn|Hn]
         end;
  bool_equations; first [congruence|lia].

Ltac block_clears :=
  intros Hb; block_cases; bool_equations;
  (split; [done|]); simpl; use_equations; simpl;
  try (split; [done|by eexists]); try done;
  split_bools; try congruence; try (split; [done|by eexists]); try done;
  try absurd_bools.

Lemma assignmentBlock_clears n VD flow V d :
  numArguments VD = Some n →
  assignmentBlock n VD = Some (flow, V, d) →
  flow = Continue ∧ clears AK_assignment VD V d.
Proof.
  unfold assignmentBlock, clears, violated, precondition, firstParameterByref.
  intros Hn. rewrite Hn. block_clears.
Qed.

Lemma conversionBlock_clears VD flow V d :
  conversionBlock VD = Some (flow, V, d) →
  flow = Continue ∧ clears AK_conversion VD V d.
Proof.
  unfold conversionBlock, clears, violated, precondition,
    noNonDefaultedParameters.
  block_clears.
Qed.

Lemma forceInlineBlock_clears VD flow V d :
  forceInlineBlock VD = Some (flow, V, d) →
  flow = Continue ∧ clears AK_force_inline VD V d.
Proof.
  unfold forceInlineBlock, clears, violated, precondition. block_clears.
Qed.

Lemma invalidBlock_clears k name VD flow V d :
  neverValid k = true →
  diagnosedAttribute (invalid_decl_attribute name) = Some k →
  invalidBlock k name VD = Some (flow, V, d) →
  flow = Continue ∧ clears k VD V d.
Proof.
  intros Hk Hname. unfold invalidBlock, clears, violated.
  assert (precondition k VD = false) as -> by (by destruct k).
  rewrite andb_true_r.
  destruct (isSet k (getAttrs VD)); intros [= <- <- <-];
    (split; [done|]); [|done].
  split; [done|]. by eexists.
Qed.

Lemma classProtocolBlock_clears VD flow V d :
  classProtocolBlock VD = Some (flow, V, d) →
  flow = Continue ∧ clears AK_class_protocol VD V d.
Proof.
  unfold classProtocolBlock, clears, violated, precondition. block_clears.
Qed.


(** A declaration as the blocks pass it on: what the preconditions look
    at stays, but for the type of a variable, which the ownership block
    overwrites. *)
Definition passedOn (VD V : ValueDecl) : Prop :=
  vdKind V = vdKind VD ∧ getName V = getName VD
  ∧ getDeclContext V = getDeclContext VD
  ∧ isInstanceMember V = isInstanceMember VD
  ∧ (getType V = getType VD ∨ isVarDecl VD = true).

Lemma passedOn_refl VD : passedOn VD VD.
Proof. repeat split; auto. Qed.

Lemma passedOn_trans V1 V2 V3 :
  passedOn V1 V2 → passedOn V2 V3 → passedOn V1 V3.
Proof.
  intros (Hk & Hn & Hc & Hi & Ht) (Hk' & Hn' & Hc' & Hi' & Ht').
  repeat split; try congruence.
  destruct Ht as [Ht|Ht]; [|by right].
  destruct Ht' as [Ht'|Ht']; [left; congruence|right].
  unfold isVarDecl in *. by rewrite <- Hk.
Qed.

Lemma passedOn_setAttrs VD a : passedOn VD (setAttrs VD a).
Proof. repeat split; auto. Qed.

Lemma numArguments_passedOn VD V :
  passedOn VD V → numArguments V = numArguments VD.
Proof.
  intros (Hk & Hn & Hc & Hi & Ht).
  unfold numArguments, dyn_cast_FuncDecl, isVarDecl in *. rewrite Hk, Hc.
  destruct Ht as [->|Ht]; [done|]. by destruct (vdKind VD).
Qed.

Lemma precondition_passedOn k VD V :
  passedOn VD V → k ≠ AK_ownership →
  precondition k V = precondition k VD.
Proof.
  intros Hp Hk. pose proof (numArguments_passedOn _ _ Hp) as Hnum.
  destruct Hp as (Hkind & Hn & Hc & Hi & Ht).
  destruct k; try done;
    unfold precondition, inClassContext, isInClassContext, isOperator,
      curriedResultType, firstParameterByref, noNonDefaultedParameters,
      isaFuncDecl, isaProtocolDecl, dyn_cast_FuncDecl, isVarDecl in *;
    rewrite ?Hnum, ?Hkind, ?Hn, ?Hc, ?Hi;
    try done;
    (destruct Ht as [->|Ht]; [done|]); by destruct (vdKind VD).
Qed.

Lemma violated_passedOn k VD V :
  passedOn VD V → getAttrs V = getAttrs VD → k ≠ AK_ownership →
  violated k V = violated k VD.
Proof.
  intros Hp Ha Hk. unfold violated.
  by rewrite Ha, (precondition_passedOn k VD V).
Qed.

Lemma find_ext {A} (f g : A → bool) l :
  (∀ x, x ∈ l → f x = g x) → List.find f l = List.find g l.
Proof.
  induction l as [|x l IH]; intros Hfg; simpl; [done|].
  rewrite <- (Hfg x) by left. destruct (f x); [done|].
  apply IH. intros y Hy. apply Hfg. by right.
Qed.

(** A run of returning blocks for the attributes [ks] ends at the first
    of them that is violated. *)
Definition returnedAt (ks : list Attribute) (V0 : ValueDecl) (flow : Flow)
    (V : ValueDecl) (d : list Diag) : Prop :=
  match List.find (λ k, violated k V0) ks with
  | Some k =>
      flow = Return
      ∧ ∃ dg, d = [dg] ∧ diagnosedAttribute dg = Some k
              ∧ getAttrs V = effect k (getAttrs V0)
  | None =>
      flow = Continue ∧ d = [] ∧ getAttrs V = getAttrs V0 ∧ passedOn V0 V
  end.

Lemma returnedAt_cons k ks (block : ValueDecl → Outcome) rest V0 flow V d :
  returning k = true →
  (∀ f V' d', block V0 = Some (f, V', d') →
     blockSpec k V0 f V' d' ∧ checks k V0 f
     ∧ (f = Continue →
        passedOn V0 V'
        ∧ ∀ k', k' ∈ ks → precondition k' V' = precondition k' V0)) →
  (∀ V1 f V' d', runBlocks rest V1 = Some (f, V', d') →
                 returnedAt ks V1 f V' d') →
  runBlocks (block :: rest) V0 = Some (flow, V, d) →
  returnedAt (k :: ks) V0 flow V d.
Proof.
  intros Hk Hblock Hrest. simpl.
  destruct (block V0) as [[[f1 V1] d1]|]; [|done].
  destruct (Hblock _ _ _ eq_refl) as ((_ & Hcase) & Hcheck & Hpass).
  unfold checks in Hcheck. unfold returnedAt. simpl. rewrite Hcheck.
  rewrite Hk in Hcase.
  destruct f1.
  - intros [= <- <- <-].
    destruct Hcase as [(_ & _ & [=])|(dg & -> & Hdg & _ & _ & Heff)].
    split; [done|]. by exists dg.
  - destruct Hcase as [(Hattrs & -> & _)|(dg & _ & _ & _ & [=] & _)].
    destruct (Hpass eq_refl) as [Hp Hpre].
    destruct (runBlocks rest V1) as [[[f2 V2] d2]|] eqn:Hr; [|done].
    intros [= <- <- <-]. apply Hrest in Hr. unfold returnedAt in Hr.
    rewrite (find_ext (λ k', violated k' V1) (λ k', violated k' V0)) in Hr.
    2:{ intros k' Hk'. unfold violated. by rewrite Hattrs, Hpre. }
    destruct (List.find _ ks) as [k'|].
    + destruct Hr as (-> & dg & -> & Hdg & Heff).
      split; [done|]. exists dg. by rewrite Heff, Hattrs.
    + destruct Hr as (-> & -> & Heq & Hp').
      repeat split; [congruence|..]; eapply passedOn_trans; eauto.
Qed.


Lemma operatorBlock_diags VD flow V d :
  operatorBlock VD = Some (flow, V, d) → flow = Return →
  d = [operator_not_func] ∨ d = [custom_operator_addressof].
Proof.
  unfold operatorBlock. intros Hb. block_cases; try done; auto.
Qed.


Lemma returningBlocks_checked VD flow V d :
  runBlocks returningBlocks VD = Some (flow, V, d) →
  if operatorDeclaration VD
  then returnedAt returningAttributes VD flow V d
  else flow = Return ∧ V = VD
       ∧ (d = [operator_not_func] ∨ d = [custom_operator_addressof]).
Proof.
  unfold returningBlocks.
  change (runBlocks (operatorBlock :: ?rest) VD)
    with (match operatorBlock VD with
          | None => None
          | Some (Return, V, d) => Some (Return, V, d)
          | Some (Continue, V, d) =>
              match runBlocks rest V with
              | None => None
              | Some (flow, V', d') => Some (flow, V', d ++ d')
              end
          end).
  destruct (operatorBlock VD) as [[[f0 V0] d0]|] eqn:Hop; [|done].
  rewrite (operatorBlock_checks _ _ _ _ Hop).
  pose proof (operatorBlock_diags _ _ _ _ Hop) as Hd0.
  apply operatorBlock_spec in Hop as [-> [[-> ->]|(dg & -> & Hdg & ->)]].
  2:{ intros [= <- <- <-]. split; [done|]. split; [done|]. by apply Hd0. }
  destruct (runBlocks _ VD) as [[[f1 V1] d1]|] eqn:Hrun; [|done].
  intros [= <- <- <-]. simpl app. revert Hrun.
  assert (∀ (ks : list Attribute) V0 V',
             V' = V0 →
             passedOn V0 V'
             ∧ ∀ k', k' ∈ ks → precondition k' V' = precondition k' V0)
    as Hsame.
  { intros ks V0 V' ->. split; [apply passedOn_refl|done]. }
  unfold returningAttributes.
  eapply (returnedAt_cons AK_objc); [done| |].
  { intros fb Vb db Hb. split; [by apply objcBlock_spec|].
    apply objcBlock_checks in Hb as [Hc Hv]. split; [done|]. auto. }
  intros ????. eapply (returnedAt_cons AK_ownership); [done| |].
  { intros fb Vb db Hb. split; [by apply ownershipBlock_spec|].
    apply ownershipBlock_checks in Hb as [Hc Hv]. split; [done|].
    intros Hf. destruct (Hv Hf) as [->|(Hvar & ty & ->)]; [by apply Hsame|].
    match goal with
    | |- passedOn ?V (overwriteType ?V ty) ∧ _ =>
        assert (passedOn V (overwriteType V ty)) as Hp
          by (repeat split; auto)
    end.
    split; [done|]. intros k' Hk'. apply precondition_passedOn; [done|].
    intros ->. repeat (apply elem_of_cons in Hk' as [[=]|Hk']).
    by apply elem_of_nil in Hk'. }
  intros ????. eapply (returnedAt_cons AK_iboutlet); [done| |].
  { intros fb Vb db Hb. split; [by apply iboutletBlock_spec|].
    apply iboutletBlock_checks in Hb as [Hc Hv]. split; [done|]. auto. }
  intros ????. eapply (returnedAt_cons AK_ibaction); [done| |].
  { intros fb Vb db Hb. split; [by apply ibactionBlock_spec|].
    apply ibactionBlock_checks in Hb as [Hc Hv]. split; [done|]. auto. }
  intros ????. eapply (returnedAt_cons AK_infix); [done| |].
  { intros fb Vb db Hb. split; [by apply infixBlock_spec|].
    apply infixBlock_checks in Hb as [Hc Hv]. split; [done|]. auto. }
  intros ????. eapply (returnedAt_cons AK_postfix); [done| |].
  { intros fb Vb db Hb. split; [by apply postfixBlock_spec|].
    apply postfixBlock_checks in Hb as [Hc Hv]. split; [done|]. auto. }
  intros ????. eapply (returnedAt_cons AK_prefix); [done| |].
  { intros fb Vb db Hb. split; [by apply prefixBlock_spec|].
    apply prefixBlock_checks in Hb as [Hc Hv]. split; [done|]. auto. }
  intros ???? [= <- <- <-]. unfold returnedAt. simpl.
  repeat split; auto.
Qed.

(** A run of clearing blocks for the attributes [ks] clears exactly
    those of them that are violated, with one diagnostic each. *)
Definition clearedBy (ks : list Attribute) (V0 V : ValueDecl)
    (d : list Diag) : Prop :=
  V = setAttrs V0 (getAttrs V)
  ∧ (∀ k, isSet k (getAttrs V)
          = isSet k (getAttrs V0)
            && negb (bool_decide (k ∈ ks) && negb (precondition k V0)))
  ∧ (∀ dg, dg ∈ d →
           ∃ k, k ∈ ks ∧ diagnosedAttribute dg = Some k
                ∧ violated k V0 = true)
  ∧ (∀ k, k ∈ ks → violated k V0 = true →
          ∃ dg, dg ∈ d ∧ diagnosedAttribute dg = Some k).

Lemma clearedBy_nil V : clearedBy [] V V [].
Proof.
  split; [by destruct V|]. split.
  { intros k. rewrite bool_decide_eq_false_2 by apply not_elem_of_nil.
    simpl. by rewrite andb_true_r. }
  split; [by intros dg ?%elem_of_nil|by intros k ?%elem_of_nil].
Qed.

Lemma precondition_setAttrs k VD a :
  precondition k (setAttrs VD a) = precondition k VD.
Proof. by destruct k. Qed.

Lemma clearedBy_cons k ks V0 V1 V d1 d2 :
  clears k V0 V1 d1 → clearedBy ks V1 V d2 →
  clearedBy (k :: ks) V0 V (d1 ++ d2).
Proof.
  unfold clears. intros Hfirst (Hkeep & Hset & Hdiag & Hrep).
  assert (V1 = setAttrs V0 (getAttrs V1)
          ∧ (∀ k', precondition k' V1 = precondition k' V0)
          ∧ (∀ k', isSet k' (getAttrs V1)
                   = if decide (k' = k)
                     then isSet k (getAttrs V0) && precondition k V0
                     else isSet k' (getAttrs V0))
          ∧ (∀ dg, dg ∈ d1 →
                   diagnosedAttribute dg = Some k ∧ violated k V0 = true)
          ∧ (violated k V0 = true →
             ∃ dg, dg ∈ d1 ∧ diagnosedAttribute dg = Some k))
    as (Hkeep1 & Hpre1 & Hset1 & Hdiag1 & Hrep1).
  { unfold violated in *.
    destruct (isSet k (getAttrs V0) && negb (precondition k V0)) eqn:Hv.
    - destruct Hfirst as (-> & dg & -> & Hdg).
      apply andb_true_iff in Hv as [Hs Hp%negb_true_iff].
      split; [done|].
      split; [intros k'; apply precondition_setAttrs|].
      split.
      { intros k'. simpl. rewrite isSet_clearAttribute.
        destruct (decide (k' = k)); [|done]. by rewrite Hp, andb_false_r. }
      split; [by intros dg' ->%list_elem_of_singleton|].
      intros _. exists dg. split; [apply list_elem_of_here|done].
    - destruct Hfirst as (-> & ->). split; [by destruct V0|].
      split; [done|]. split.
      { intros k'. destruct (decide (k' = k)) as [->|]; [|done].
        destruct (isSet k (getAttrs V0)); [|done].
        simpl in *. by apply negb_false_iff in Hv as ->. }
      split; [by intros dg ?%elem_of_nil|done]. }
  assert (∀ k', k' ≠ k → violated k' V1 = violated k' V0) as Hviol.
  { intros k' Hne. unfold violated.
    by rewrite Hpre1, Hset1, decide_False. }
  split; [rewrite Hkeep, Hkeep1 at 1; by destruct V0|].
  split.
  { intros k'. rewrite Hset, Hset1, Hpre1.
    destruct (decide (k' = k)) as [->|Hne].
    - rewrite (bool_decide_eq_true_2 (k ∈ k :: ks)) by left.
      destruct (isSet k (getAttrs V0)), (precondition k V0),
        (bool_decide (k ∈ ks)); done.
    - assert (bool_decide (k' ∈ k :: ks) = bool_decide (k' ∈ ks)) as ->;
        [|done].
      apply bool_decide_ext. rewrite elem_of_cons. tauto. }
  split.
  - intros dg [Hin|Hin]%elem_of_app.
    + destruct (Hdiag1 dg Hin) as [Hdg Hv]. exists k.
      split; [left|done].
    + destruct (Hdiag dg Hin) as (k' & Hk' & Hdg & Hv). exists k'.
      split; [by right|]. split; [done|].
      destruct (decide (k' = k)) as [->|Hne]; [|by rewrite <- Hviol].
      unfold violated in Hv. rewrite Hset1, decide_True in Hv by done.
      unfold violated. rewrite Hpre1 in Hv.
      by destruct (isSet k (getAttrs V0)), (precondition k V0).
  - intros k' Hk' Hv.
    destruct (decide (k' = k)) as [->|Hne].
    + destruct (Hrep1 Hv) as (dg & Hin & Hdg). exists dg.
      split; [apply elem_of_app; by left|done].
    + apply elem_of_cons in Hk' as [?|Hk']; [done|].
      destruct (Hrep k' Hk') as (dg & Hin & Hdg); [by rewrite Hviol|].
      exists dg. split; [apply elem_of_app; by right|done].
Qed.

Lemma clearedBy_block k (block : ValueDecl → Outcome) ks rest V0 flow V d :
  (∀ f V' d', block V0 = Some (f, V', d') →
              f = Continue ∧ clears k V0 V' d') →
  (∀ V1 f V' d', runBlocks rest V1 = Some (f, V', d') →
                 f = Continue ∧ clearedBy ks V1 V' d') →
  runBlocks (block :: rest) V0 = Some (flow, V, d) →
  flow = Continue ∧ clearedBy (k :: ks) V0 V d.
Proof.
  intros Hblock Hrest. simpl.
  destruct (block V0) as [[[f1 V1] d1]|]; [|done].
  destruct (Hblock _ _ _ eq_refl) as [-> Hfirst].
  destruct (runBlocks rest V1) as [[[f2 V2] d2]|] eqn:Hr; [|done].
  intros [= <- <- <-]. apply Hrest in Hr as [-> Hr].
  split; [done|]. by eapply clearedBy_cons.
Qed.

Lemma clearingBlocks_checked n V0 flow V d :
  numArguments V0 = Some n →
  runBlocks (clearingBlocks n) V0 = Some (flow, V, d) →
  flow = Continue ∧ clearedBy clearingAttributes V0 V d.
Proof.
  intros Hn. unfold clearingBlocks, clearingAttributes.
  eapply clearedBy_block;
    [intros fb Vb db Hb; exact (assignmentBlock_clears _ _ _ _ _ Hn Hb)|].
  intros ????. eapply clearedBy_block; [apply conversionBlock_clears|].
  intros ????. eapply clearedBy_block; [apply forceInlineBlock_clears|].
  intros ????. eapply clearedBy_block;
    [intros ???; by apply invalidBlock_clears|].
  intros ????. eapply clearedBy_block;
    [intros ???; by apply invalidBlock_clears|].
  intros ????. eapply clearedBy_block;
    [intros ???; by apply invalidBlock_clears|].
  intros ????. eapply clearedBy_block; [apply classProtocolBlock_clears|].
  intros ????. eapply clearedBy_block;
    [intros ???; by apply invalidBlock_clears|].
  intros ????. eapply clearedBy_block;
    [intros ???; by apply invalidBlock_clears|].
  intros ????. eapply clearedBy_block;
    [intros ???; by apply invalidBlock_clears|].
  intros ???? [= <- <- <-]. split; [done|apply clearedBy_nil].
Qed.


(** Whatever validation reports is a diagnostic of the operator check or
    is about an attribute that was set in violation of its
    precondition. *)
Lemma validateAttributes_reports VD VD' ds dg :
  validateAttributes VD = Some (VD', ds) → dg ∈ ds →
  dg = operator_not_func ∨ dg = custom_operator_addressof
  ∨ ∃ k, diagnosedAttribute dg = Some k ∧ violated k VD = true.
Proof.
  unfold validateAttributes. intros Hv Hin.
  apply bind_Some in Hv as (n & Hn & Hv).
  apply bind_Some in Hv as ([[flow V] d] & Hrun & Hv).
  injection Hv as <- <-. rewrite runBlocks_app in Hrun.
  destruct (runBlocks returningBlocks VD) as [[[f1 V1] d1]|] eqn:Hret;
    [|done].
  apply returningBlocks_checked in Hret.
  destruct (operatorDeclaration VD).
  2:{ destruct Hret as (-> & -> & Hd1). injection Hrun as <- <- <-.
      destruct Hd1 as [-> | ->]; apply list_elem_of_singleton in Hin;
        auto. }
  unfold returnedAt in Hret.
  destruct (List.find _ returningAttributes) as [k0|] eqn:Hfind.
  - destruct Hret as (-> & dg0 & -> & Hdg & _).
    injection Hrun as <- <- <-.
    apply list_elem_of_singleton in Hin as ->.
    apply List.find_some in Hfind as [_ Hviol].
    right. right. by exists k0.
  - destruct Hret as (-> & -> & Hattrs & Hp).
    destruct (runBlocks (clearingBlocks n) V1) as [[[f2 V2] d2]|] eqn:Hclr;
      [|done].
    injection Hrun as <- <- <-.
    apply clearingBlocks_checked in Hclr as (_ & _ & _ & Hdiag & _);
      [|by rewrite (numArguments_passedOn VD)].
    destruct (Hdiag dg Hin) as (k & Hk & Habout & Hv).
    apply clearingAttributes_iff in Hk.
    right. right. exists k. split; [done|].
    rewrite <- Hv. unfold violated. rewrite Hattrs.
    rewrite (precondition_passedOn k VD V1); [done|done|]. by intros ->.
Qed.

End WithQueries.
End AttributeFacts.

Module PatternBindingFacts.
Import PatternBinding.

Lemma Pattern_nested_ind (P : Pattern → Prop)
    (Htuple : ∀ fields, Forall P fields → P (TuplePattern fields))
    (Hparen : ∀ sub, P sub → P (ParenPattern sub))
    (Htyped : ∀ sub ty, P sub → P (TypedPattern sub ty))
    (Hnominal : ∀ sub, P sub → P (NominalTypePattern sub))
    (Helement : ∀ sub, P sub → P (UnionElementPattern (Some sub)))
    (Hbare : P (UnionElementPattern None))
    (Hvar : ∀ sub, P sub → P (VarPattern sub))
    (Hnamed : ∀ decl, P (NamedPattern decl))
    (Hany : P AnyPattern) (Hisa : P IsaPattern) (Hexpr : P ExprPattern) :
  ∀ p, P p.
Proof.
  fix IH 1. intros [fields|sub|sub ty|sub|[sub|]|sub|decl| | |].
  - apply Htuple. induction fields as [|f fs IHfs].
    + constructor.
    + constructor; [apply IH|exact IHfs].
  - apply Hparen, IH.
  - apply Htyped, IH.
  - apply Hnominal, IH.
  - apply Helement, IH.
  - exact Hbare.
  - apply Hvar, IH.
  - apply Hnamed.
  - exact Hany.
  - exact Hisa.
  - exact Hexpr.
Qed.

Section WithCheckers.
Context `{ASTQueries} `{NameLookup} `{ExprChecker}.

Lemma visitBoundVar_diags VD VD' ds :
  visitBoundVar VD = Some (VD', ds) →
  Forall (λ dg, aboutDefaultInit dg = false) ds.
Proof.
  unfold visitBoundVar. intros Hv.
  apply bind_Some in Hv as (ty & _ & Hv).
  destruct (negb (isMaterializable ty));
    apply bind_Some in Hv as ([V d] & Hd & Hv);
    apply AttributeFacts.validateAttributes_no_default_init in Hd;
    injection Hv as <- <-; simpl; [by constructor|done].
Qed.

Lemma visitBoundVars_diags P :
  ∀ P' ds, visitBoundVars P = Some (P', ds) →
           Forall (λ dg, aboutDefaultInit dg = false) ds.
Proof.
  induction P as [fields IH|sub IH|sub ty IH|sub IH|sub IH| |sub IH|decl| | |]
    using Pattern_nested_ind; intros P' ds; simpl;
    try (destruct (visitBoundVars sub) as [[sub' d]|]; [|done];
         intros [= <- <-]; by eapply IH);
    try (by intros [= <- <-]).
  - match goal with
    | |- context [?loop fields] =>
        enough (∀ fs' d, loop fields = Some (fs', d) →
                         Forall (λ dg, aboutDefaultInit dg = false) d) as Hloop
    end.
    { destruct (_ fields) as [[fs' d]|]; [|done]. intros [= <- <-]. eauto. }
    induction IH as [|f fs Hf _ IHfs]; intros fs' d.
    + by intros [= <- <-].
    + destruct (visitBoundVars f) as [[f' d1]|] eqn:Hv; [|done].
      destruct (_ fs) as [[fs1 d2]|]; [|done].
      intros [= <- <-]. apply Forall_app. eauto.
  - destruct (visitBoundVar decl) as [[VD' d]|] eqn:Hv; [|done].
    intros [= <- <-]. by eapply visitBoundVar_diags.
Qed.

(** C10 (as the code has it). In the resolving pass, a binding without
    an initializer and with a type annotation, outside a type context,
    whose checked pattern is a single variable that is a property, gets
    no initializer, is not marked invalid and draws no diagnostic of
    default initialization, whatever its type; failure to check the
    pattern leaves the binding as it is. *)
Theorem C10_property_binding TUKind IsSecondPass PBD PBD' ds :
  getInit PBD = None →
  isaTypedPattern (getPattern PBD) = true →
  isTypeContext (pbdDeclContext PBD) = false →
  (∀ pattern ty,
      typeCheckPattern (getPattern PBD) (pbdDeclContext PBD)
        = Some (pattern, ty) →
      isPatternProperty pattern = true) →
  visitPatternBindingDecl TUKind false IsSecondPass PBD = Some (PBD', ds) →
  getInit PBD' = None
  ∧ pbdInvalid PBD' = pbdInvalid PBD
  ∧ Forall (λ dg, aboutDefaultInit dg = false) ds.
Proof.
  intros Hinit Htyped Hctx Hprop. unfold visitPatternBindingDecl.
  rewrite Hinit, Htyped, Hctx. simpl.
  destruct (IsSecondPass && _); [by intros [= <- <-]|].
  destruct (typeCheckPattern _ _) as [[pattern ty]|] eqn:Hcheck;
    [|by intros [= <- <-]].
  simpl. rewrite (Hprop _ _ eq_refl). unfold visitPatternVars. simpl.
  destruct (visitBoundVars pattern) as [[p' d]|] eqn:Hv; [|done].
  simpl. intros [= <- <-]. simpl.
  repeat split; [done|]. by eapply visitBoundVars_diags.
Qed.

End WithCheckers.
End PatternBindingFacts.

(** ** Further properties *)

Module ResolutionFacts.
Import Inheritance Resolution.

Lemma setVectorInsert_NoDup v ps : NoDup v → NoDup (setVectorInsert v ps).
Proof.
  revert v. induction ps as [|q ps IH]; intros v Hv; [done|].
  rewrite ConformanceFacts.setVectorInsert_cons. apply IH.
  destruct (decide (q ∈ v)); [done|].
  apply NoDup_app. split; [done|]. split; [|apply NoDup_singleton].
  intros x Hx ->%list_elem_of_singleton. done.
Qed.

Section Resolution.
Context `{TypeValidator}.

Lemma namesProtocol_nil p : ¬ namesProtocol [] p.
Proof. by intros (e & ty & ps & Hin%elem_of_nil & _). Qed.

Lemma namesProtocol_cons e clause p :
  namesProtocol (e :: clause) p
  ↔ namesProtocol [e] p ∨ namesProtocol clause p.
Proof.
  unfold namesProtocol. split.
  - intros (e0 & ty & ps & [->|Hin]%elem_of_cons & Hrest).
    + left. exists e, ty, ps. split; [left|done].
    + right. by exists e0, ty, ps.
  - intros [(e0 & ty & ps & ->%list_elem_of_singleton & Hrest)
           |(e0 & ty & ps & Hin & Hrest)].
    + exists e, ty, ps. split; [left|done].
    + exists e0, ty, ps. split; [by right|done].
Qed.

(** One iteration keeps the protocol vector a duplicate-free list of the
    protocols named so far. *)
Lemma checkInherited_protocols decl i e st :
  covered st →
  covered (checkInherited decl i e st).2
  ∧ (NoDup (allProtocols st) →
     NoDup (allProtocols (checkInherited decl i e st).2))
  ∧ ∀ p, p ∈ allProtocols (checkInherited decl i e st).2
         ↔ p ∈ allProtocols st ∨ namesProtocol [e] p.
Proof.
  intros Hcov. unfold checkInherited, namesProtocol.
  destruct (validateType (tlRepr e)) as [ty|] eqn:Hv; simpl.
  2:{ split; [done|]. split; [done|]. intros p. split; [auto|].
      intros [?|(e0 & ty & ps & ->%list_elem_of_singleton & Hv' & _)];
        [done|congruence]. }
  assert (∀ p, (∃ e0 ty0 ps, e0 ∈ [e] ∧ validateType (tlRepr e0) = Some ty0
                  ∧ isExistentialType ty0 = Some ps ∧ p ∈ ps)
               ↔ ∃ ps, isExistentialType ty = Some ps ∧ p ∈ ps) as Hnames.
  { intros p. split.
    - intros (e0 & ty0 & ps & ->%list_elem_of_singleton & Hv' & Hex & Hp).
      exists ps. split; [congruence|done].
    - intros (ps & Hex & Hp). exists e, ty, ps.
      split; [apply list_elem_of_here|done]. }
  destruct (decide (ty ∈ inheritedTypes st)) as [Hdup|Hnew]; simpl.
  { split; [done|]. split; [done|]. intros p. rewrite Hnames.
    split; [auto|]. intros [?|(ps & Hex & Hp)]; [done|]. eauto. }
  assert (∀ ds sup,
             isExistentialType ty = None →
             covered (mkClauseState sup (allProtocols st)
                                    (inheritedTypes st ++ [ty]) ds))
    as Hcov'.
  { intros ds sup Hex ty' ps' p. simpl.
    rewrite elem_of_app, list_elem_of_singleton.
    intros [Hin| ->] Hex' Hp; [eauto|congruence]. }
  destruct (isExistentialType ty) as [protocols|] eqn:Hex; simpl.
  { split; [|split].
    - intros ty' ps' p. simpl.
      rewrite elem_of_app, list_elem_of_singleton,
        ConformanceFacts.setVectorInsert_elem.
      intros [Hin| ->] Hex' Hp; [left; eauto|right; congruence].
    - apply setVectorInsert_NoDup.
    - intros p. rewrite ConformanceFacts.setVectorInsert_elem, Hnames.
      split; intros [?|Hp]; auto.
      + right. eauto.
      + destruct Hp as (ps & [= <-] & Hp). auto. }
  assert (∀ p, p ∈ allProtocols st
               ↔ p ∈ allProtocols st
                 ∨ ∃ ps : list DeclID, None = Some ps ∧ p ∈ ps) as Hsame.
  { intros p. split; [auto|]. by intros [?|(ps & [=] & _)]. }
  setoid_rewrite Hnames.
  destruct (getClassOrBoundGenericClass ty), (superclassTy st),
    (canInheritClass decl), (decide (0 < i)); simpl;
    try (split; [by apply Hcov'|split; [done|exact Hsame]]);
    destruct ty; simpl in *;
    (split; [first [by apply Hcov'|done]|split; [done|exact Hsame]]).
Qed.

Lemma checkInheritedFrom_protocols decl clause :
  ∀ i st, covered st →
    covered (checkInheritedFrom decl i clause st).2
    ∧ (NoDup (allProtocols st) →
       NoDup (allProtocols (checkInheritedFrom decl i clause st).2))
    ∧ ∀ p, p ∈ allProtocols (checkInheritedFrom decl i clause st).2
           ↔ p ∈ allProtocols st ∨ namesProtocol clause p.
Proof.
  induction clause as [|e rest IH]; intros i st Hcov; simpl.
  { split; [done|]. split; [done|]. intros p. split; [auto|].
    by intros [?|?%namesProtocol_nil]. }
  destruct (checkInherited_protocols decl i e st Hcov) as (Hc1 & Hn1 & Hp1).
  destruct (checkInherited decl i e st) as [e1 st1]. simpl in *.
  destruct (IH (S i) st1 Hc1) as (Hc2 & Hn2 & Hp2).
  destruct (checkInheritedFrom decl (S i) rest st1) as [rest1 st2].
  simpl in *. split; [done|]. split; [auto|].
  intros p. rewrite Hp2, Hp1, (namesProtocol_cons e rest). tauto.
Qed.

(** X1. The protocols that [getDirectConformsTo] returns for a
    declaration resolved from its parsed state are the protocols recorded
    on the declaration; the list has no duplicates and holds exactly the
    protocols of the existential types that the entries of the
    inheritance clause validate to. *)
Theorem direct_conformance_protocols decl :
  getProtocols decl = [] → getSuperclass decl = None →
  (getDirectConformsTo decl).1.2 = getProtocols (getDirectConformsTo decl).1.1
  ∧ NoDup (getDirectConformsTo decl).1.2
  ∧ ∀ p, p ∈ (getDirectConformsTo decl).1.2
         ↔ namesProtocol (getInherited decl) p.
Proof.
  intros Hps Hsup.
  pose proof (ConformanceFacts.checkInheritanceClause_protocols decl Hps Hsup)
    as Hprot.
  unfold getDirectConformsTo.
  destruct (checkInheritanceClause decl) as [decl' ds]. simpl in *.
  split; [done|]. rewrite Hprot.
  destruct (checkInheritedFrom_protocols decl (getInherited decl) 0
              (mkClauseState None [] [] [])) as (_ & Hnodup & Hiff).
  { by intros ty ps q Hin%elem_of_nil. }
  split; [apply Hnodup, NoDup_nil_2|].
  intros p. rewrite Hiff. simpl. rewrite elem_of_nil. tauto.
Qed.


Lemma checkInherited_entry decl i e st :
  (checkInherited decl i e st).1 = validated e.
Proof.
  unfold checkInherited, validated.
  destruct (validateType (tlRepr e)) as [ty|]; simpl; [|done].
  repeat (case_match; simpl; try done).
Qed.

(** An iteration reports at most one diagnostic, after the earlier
    ones. *)
Lemma checkInherited_diags decl i e st :
  ∃ new, clauseDiags (checkInherited decl i e st).2 = clauseDiags st ++ new
         ∧ (length new ≤ 1)%nat.
Proof.
  unfold checkInherited.
  destruct (validateType (tlRepr e)) as [ty|]; simpl;
    [|exists []; split; [by rewrite app_nil_r|simpl; lia]].
  repeat (case_match; simpl);
    first [eexists [_]; split; [done|simpl; lia]
          |exists []; split; [by rewrite app_nil_r|simpl; lia]].
Qed.

Lemma checkInheritedFrom_entries decl clause :
  ∀ i st,
    (checkInheritedFrom decl i clause st).1 = validated <$> clause
    ∧ (length (clauseDiags (checkInheritedFrom decl i clause st).2)
       ≤ length (clauseDiags st) + length clause)%nat.
Proof.
  induction clause as [|e rest IH]; intros i st; simpl; [split; [done|lia]|].
  pose proof (checkInherited_entry decl i e st) as He.
  destruct (checkInherited_diags decl i e st) as (new & Hnew & Hlen).
  destruct (checkInherited decl i e st) as [e1 st1]. simpl in *.
  destruct (IH (S i) st1) as [Hrest Hbound].
  destruct (checkInheritedFrom decl (S i) rest st1) as [rest1 st2].
  simpl in *. split; [by subst|].
  rewrite Hnew, length_app in Hbound. lia.
Qed.

(** X2. Resolving the inheritance clause of a declaration that is not
    yet checked leaves every entry of the clause with a type, the type
    it validates to or else the error type, and reports at most one
    diagnostic per entry; an empty clause changes nothing. *)
Theorem entries_validated_once decl :
  alreadyCheckedInheritanceClause decl = false →
  getInherited (checkInheritanceClause decl).1
    = validated <$> getInherited decl
  ∧ (length (checkInheritanceClause decl).2 ≤ length (getInherited decl))%nat
  ∧ (getInherited decl = [] → checkInheritanceClause decl = (decl, [])).
Proof.
  intros Hc.
  rewrite ConformanceFacts.checkInheritanceClause_inherited by done.
  destruct (checkInheritedFrom_entries decl (getInherited decl) 0
              (mkClauseState None [] [] [])) as [Hentries Hbound].
  split; [done|]. unfold checkInheritanceClause. rewrite Hc.
  destruct (checkInheritedFrom decl 0 (getInherited decl) _)
    as [clause st] eqn:Hloop.
  simpl in *. split; [lia|].
  intros Hnil. rewrite Hnil in Hloop. simpl in Hloop.
  injection Hloop as <- <-. simpl. rewrite <- Hnil. by destruct decl.
Qed.


(** The diagnostic for a class type in the clause of a declaration that
    cannot inherit a class. *)
Lemma checkInherited_rejected decl i e st :
  canInheritClass decl = false →
  superclassTy st = None →
  (∀ ty, ty ∈ inheritedTypes st → is_Some (getClassOrBoundGenericClass ty) →
         rejectedSuperclass decl ty ∈ clauseDiags st) →
  superclassTy (checkInherited decl i e st).2 = None
  ∧ (∀ ty, ty ∈ inheritedTypes (checkInherited decl i e st).2 →
           is_Some (getClassOrBoundGenericClass ty) →
           rejectedSuperclass decl ty
             ∈ clauseDiags (checkInherited decl i e st).2)
  ∧ (∀ ty, validateType (tlRepr e) = Some ty ∨ ty ∈ inheritedTypes st →
           ty ∈ inheritedTypes (checkInherited decl i e st).2).
Proof.
  intros Hcan Hsup Hinv. unfold checkInherited. rewrite Hcan, Hsup.
  destruct (validateType (tlRepr e)) as [ty|]; simpl.
  2:{ split; [done|]. split; [done|]. by intros ty [?|?]. }
  destruct (decide (ty ∈ inheritedTypes st)) as [Hdup|Hnew]; simpl.
  { split; [done|]. split.
    - intros ty' Hin Hclass. apply elem_of_app. left. auto.
    - by intros ty' [[= <-]|?]. }
  assert (∀ ty', Some ty = Some ty' ∨ ty' ∈ inheritedTypes st →
                 ty' ∈ inheritedTypes st ++ [ty]) as Hseen.
  { intros ty' [[= <-]|?]; apply elem_of_app;
      [right; apply list_elem_of_here|by left]. }
  destruct (isExistentialType ty) as [protocols|] eqn:Hex; simpl.
  { split; [done|]. split; [|done].
    intros ty' [Hin| ->%list_elem_of_singleton]%elem_of_app Hclass; [auto|].
    destruct ty; simpl in *; try done; by destruct Hclass. }
  destruct (getClassOrBoundGenericClass ty) as [c|] eqn:Hclass; simpl.
  { split; [done|]. split; [|done].
    intros ty' [Hin| ->%list_elem_of_singleton]%elem_of_app Hc';
      apply elem_of_app; [left; auto|right].
    apply list_elem_of_singleton. unfold rejectedSuperclass.
    by destruct (declKind decl). }
  assert (∀ ds, ∀ ty', ty' ∈ inheritedTypes st ++ [ty] →
            is_Some (getClassOrBoundGenericClass ty') →
            rejectedSuperclass decl ty' ∈ clauseDiags st ++ ds) as Hkeep.
  { intros ds ty' [Hin| ->%list_elem_of_singleton]%elem_of_app Hc'.
    - apply elem_of_app. left. auto.
    - rewrite Hclass in Hc'. by destruct Hc'. }
  destruct ty; simpl in *; try done;
    (split; [done|]); (split; [|done]);
    first [apply Hkeep
          |intros ty' Hin Hc';
           specialize (Hkeep [] ty' Hin Hc'); by rewrite app_nil_r in Hkeep].
Qed.

Lemma checkInheritedFrom_rejected decl clause :
  canInheritClass decl = false →
  ∀ i st,
    superclassTy st = None →
    (∀ ty, ty ∈ inheritedTypes st →
           is_Some (getClassOrBoundGenericClass ty) →
           rejectedSuperclass decl ty ∈ clauseDiags st) →
    superclassTy (checkInheritedFrom decl i clause st).2 = None
    ∧ ∀ e ty, e ∈ clause → validateType (tlRepr e) = Some ty →
              is_Some (getClassOrBoundGenericClass ty) →
              rejectedSuperclass decl ty
                ∈ clauseDiags (checkInheritedFrom decl i clause st).2.
Proof.
  intros Hcan.
  enough (∀ i st,
    superclassTy st = None →
    (∀ ty, ty ∈ inheritedTypes st →
           is_Some (getClassOrBoundGenericClass ty) →
           rejectedSuperclass decl ty ∈ clauseDiags st) →
    superclassTy (checkInheritedFrom decl i clause st).2 = None
    ∧ (∀ ty, ty ∈ inheritedTypes (checkInheritedFrom decl i clause st).2 →
             is_Some (getClassOrBoundGenericClass ty) →
             rejectedSuperclass decl ty
               ∈ clauseDiags (checkInheritedFrom decl i clause st).2)
    ∧ (∀ ty, (∃ e, e ∈ clause ∧ validateType (tlRepr e) = Some ty)
             ∨ ty ∈ inheritedTypes st →
             ty ∈ inheritedTypes (checkInheritedFrom decl i clause st).2))
    as Hloop.
  { intros i st Hsup Hinv.
    destruct (Hloop i st Hsup Hinv) as (Hnone & Hdiag & Hseen).
    split; [done|]. intros e ty Hin Hv Hclass. apply Hdiag; [|done].
    apply Hseen. left. eauto. }
  induction clause as [|e rest IH]; intros i st Hsup Hinv; simpl.
  { split; [done|]. split; [done|].
    by intros ty [(e & Hin%elem_of_nil & _)|?]. }
  destruct (checkInherited_rejected decl i e st Hcan Hsup Hinv)
    as (Hsup1 & Hinv1 & Hseen1).
  destruct (checkInherited decl i e st) as [e1 st1]. simpl in *.
  destruct (IH (S i) st1 Hsup1 Hinv1) as (Hsup2 & Hinv2 & Hseen2).
  destruct (checkInheritedFrom decl (S i) rest st1) as [rest1 st2].
  simpl in *. split; [done|]. split; [done|].
  intros ty [(e0 & [->|Hin]%elem_of_cons & Hv)|Hold]; apply Hseen2.
  - right. apply Hseen1. by left.
  - left. eauto.
  - right. apply Hseen1. by right.
Qed.

(** X3. A declaration that cannot inherit a class (anything but a class
    or a generic parameter) keeps its superclass field whatever its
    inheritance clause names, so that the assertion that an extension
    adds no superclass holds; every class type that an entry of the
    clause validates to is reported, as an extension inheriting a class
    or as a non-class type inheriting one. *)
Theorem no_superclass_unless_allowed decl :
  canInheritClass decl = false →
  getSuperclass (checkInheritanceClause decl).1 = getSuperclass decl
  ∧ (alreadyCheckedInheritanceClause decl = false →
     ∀ e ty, e ∈ getInherited decl → validateType (tlRepr e) = Some ty →
             is_Some (getClassOrBoundGenericClass ty) →
             rejectedSuperclass decl ty ∈ (checkInheritanceClause decl).2).
Proof.
  intros Hcan. unfold checkInheritanceClause.
  destruct (alreadyCheckedInheritanceClause decl) eqn:Hc; [done|].
  destruct (checkInheritedFrom_rejected decl (getInherited decl) Hcan 0
              (mkClauseState None [] [] [])) as [Hnone Hdiag];
    [done|by intros ty Hin%elem_of_nil|].
  destruct (checkInheritedFrom decl 0 (getInherited decl) _) as [clause st].
  simpl in *. rewrite Hnone. split; [|by intros _].
  destruct decl as [k gp pc dt inh ps sup cs]; simpl.
  unfold needsNullConformances; simpl.
  by repeat (case_match; simpl).
Qed.


Lemma checkInheritedFrom_app decl clause1 clause2 i st :
  checkInheritedFrom decl i (clause1 ++ clause2) st
  = let '(c1, st1) := checkInheritedFrom decl i clause1 st in
    let '(c2, st2) :=
      checkInheritedFrom decl (i + length clause1) clause2 st1 in
    (c1 ++ c2, st2).
Proof.
  revert i st. induction clause1 as [|e rest IH]; intros i st; simpl.
  - rewrite Nat.add_0_r. by destruct (checkInheritedFrom decl i clause2 st).
  - destruct (checkInherited decl i e st) as [e1 st1].
    rewrite IH, <- Nat.add_succ_comm.
    destruct (checkInheritedFrom decl (S i) rest st1) as [c1 st2].
    by destruct (checkInheritedFrom decl _ clause2 st2).
Qed.

(** Entries that are not class types leave the superclass open. *)
Lemma checkInheritedFrom_no_class decl clause :
  (∀ e ty, e ∈ clause → validateType (tlRepr e) = Some ty →
           getClassOrBoundGenericClass ty = None) →
  ∀ i st,
    superclassTy st = None →
    (∀ ty, ty ∈ inheritedTypes st → getClassOrBoundGenericClass ty = None) →
    superclassTy (checkInheritedFrom decl i clause st).2 = None
    ∧ (∀ ty, ty ∈ inheritedTypes (checkInheritedFrom decl i clause st).2 →
             getClassOrBoundGenericClass ty = None)
    ∧ (∀ ty, superclass_not_first ty
               ∈ clauseDiags (checkInheritedFrom decl i clause st).2 →
             superclass_not_first ty ∈ clauseDiags st).
Proof.
  induction clause as [|e rest IH]; intros Hpre i st Hsup Hseen; simpl;
    [done|].
  assert (superclassTy (checkInherited decl i e st).2 = None
          ∧ (∀ ty, ty ∈ inheritedTypes (checkInherited decl i e st).2 →
                   getClassOrBoundGenericClass ty = None)
          ∧ (∀ ty, superclass_not_first ty
                     ∈ clauseDiags (checkInherited decl i e st).2 →
                   superclass_not_first ty ∈ clauseDiags st)) as Hstep.
  { pose proof (Hpre e) as He. unfold checkInherited. rewrite Hsup.
    destruct (validateType (tlRepr e)) as [ty|]; simpl; [|done].
    specialize (He ty (list_elem_of_here _ _) eq_refl). rewrite He.
    assert (∀ ty', ty' ∈ inheritedTypes st ++ [ty] →
                   getClassOrBoundGenericClass ty' = None) as Hseen'.
    { by intros ty' [Hin| ->%list_elem_of_singleton]%elem_of_app; auto. }
    assert (∀ dg ty', superclass_not_first ty' ∈ clauseDiags st ++ [dg] →
                      (∀ t, dg ≠ superclass_not_first t) →
                      superclass_not_first ty' ∈ clauseDiags st) as Hdg.
    { intros dg ty' Hin Hne. apply elem_of_app in Hin as [Hin|Hin]; [done|].
      apply list_elem_of_singleton in Hin. by destruct (Hne ty'). }
    repeat (case_match; simpl in *; try done);
      (split; [done|]); (split; [done|]);
      intros ty' Hin; eapply Hdg; eauto; by try destruct (canInheritClass _). }
  destruct Hstep as (Hsup1 & Hseen1 & Hdiag1).
  destruct (checkInherited decl i e st) as [e1 st1]. simpl in *.
  destruct (IH (λ e0 ty Hin, Hpre e0 ty (list_elem_of_further _ _ _ Hin))
               (S i) st1 Hsup1 Hseen1) as (Hsup2 & Hseen2 & Hdiag2).
  destruct (checkInheritedFrom decl (S i) rest st1) as [rest1 st2].
  simpl in *. auto.
Qed.

(** Once a superclass is recorded it stays, and the entries after it are
    never reported as a superclass that is not first. *)
Lemma checkInheritedFrom_superclass_kept decl clause superTy :
  ∀ i st,
    superclassTy st = Some superTy →
    superclassTy (checkInheritedFrom decl i clause st).2 = Some superTy
    ∧ (∀ ty, superclass_not_first ty
               ∈ clauseDiags (checkInheritedFrom decl i clause st).2 →
             superclass_not_first ty ∈ clauseDiags st).
Proof.
  induction clause as [|e rest IH]; intros i st Hsup; simpl; [done|].
  assert (superclassTy (checkInherited decl i e st).2 = Some superTy
          ∧ (∀ ty, superclass_not_first ty
                     ∈ clauseDiags (checkInherited decl i e st).2 →
                   superclass_not_first ty ∈ clauseDiags st)) as Hstep.
  { unfold checkInherited. rewrite Hsup.
    assert (∀ dg ty', superclass_not_first ty' ∈ clauseDiags st ++ [dg] →
                      (∀ t, dg ≠ superclass_not_first t) →
                      superclass_not_first ty' ∈ clauseDiags st) as Hdg.
    { intros dg ty' Hin Hne. apply elem_of_app in Hin as [Hin|Hin]; [done|].
      apply list_elem_of_singleton in Hin. by destruct (Hne ty'). }
    repeat (case_match; simpl in *; try done);
      (split; [done|]);
      intros ty' Hin; eapply Hdg; eauto; by try destruct (canInheritClass _). }
  destruct Hstep as (Hsup1 & Hdiag1).
  destruct (checkInherited decl i e st) as [e1 st1]. simpl in *.
  destruct (IH (S i) st1 Hsup1) as (Hsup2 & Hdiag2).
  destruct (checkInheritedFrom decl (S i) rest st1) as [rest1 st2].
  simpl in *. auto.
Qed.

Lemma checkInheritedFrom_diags_grow decl clause :
  ∀ i st dg, dg ∈ clauseDiags st →
             dg ∈ clauseDiags (checkInheritedFrom decl i clause st).2.
Proof.
  induction clause as [|e rest IH]; intros i st dg Hin; simpl; [done|].
  destruct (checkInherited_diags decl i e st) as (new & Hnew & _).
  destruct (checkInherited decl i e st) as [e1 st1]. simpl in *.
  specialize (IH (S i) st1 dg).
  destruct (checkInheritedFrom decl (S i) rest st1) as [rest1 st2].
  simpl in *. apply IH. rewrite Hnew. apply elem_of_app. by left.
Qed.

(** X4. When the first class type in the inheritance clause of a
    declaration that may inherit a class comes after other entries, it
    is still recorded as the superclass; it is reported as a superclass
    that is not first exactly when some entry precedes it. *)
Theorem superclass_after_other_entries decl pre c post classC :
  canInheritClass decl = true →
  getProtocols decl = [] → getSuperclass decl = None →
  getInherited decl = pre ++ c :: post →
  (∀ e ty, e ∈ pre → validateType (tlRepr e) = Some ty →
           getClassOrBoundGenericClass ty = None) →
  validateType (tlRepr c) = Some classC →
  is_Some (getClassOrBoundGenericClass classC) →
  getSuperclass (checkInheritanceClause decl).1 = Some classC
  ∧ (superclass_not_first classC ∈ (checkInheritanceClause decl).2
     ↔ pre ≠ []).
Proof.
  intros Hcan Hps Hsup Hclause Hpre Hc [d Hclass].
  pose proof (checkInheritedFrom_app decl pre (c :: post) 0
                (mkClauseState None [] [] [])) as Happ.
  destruct (checkInheritedFrom_no_class decl pre Hpre 0
              (mkClauseState None [] [] [])) as (Hsup1 & Hseen1 & Hdiag1);
    [done|by intros ty Hin%elem_of_nil|].
  destruct (checkInheritedFrom decl 0 pre _) as [pre1 st1]. simpl in *.
  assert (classC ∉ inheritedTypes st1) as Hnew.
  { intros Hin. apply Hseen1 in Hin. congruence. }
  assert (isExistentialType classC = None) as Hex by (by destruct classC).
  assert (∀ ty, superclass_not_first ty ∉ clauseDiags st1) as Hnone.
  { intros ty Hin. by apply Hdiag1, elem_of_nil in Hin. }
  assert (checkInherited decl (length pre) c st1
          = (mkTypeLoc (tlRepr c) (Some classC),
             mkClauseState (Some classC) (allProtocols st1)
               (inheritedTypes st1 ++ [classC])
               (clauseDiags st1
                  ++ if decide (0 < length pre)
                     then [superclass_not_first classC] else []))) as Hstep.
  { unfold checkInherited. rewrite Hc, decide_False by done. simpl.
    rewrite Hex, Hclass, Hsup1, Hcan. simpl.
    destruct (decide (0 < length pre)); simpl; by rewrite ?app_nil_r. }
  rewrite Hstep in Happ.
  match type of Happ with
  | context [checkInheritedFrom decl ?i post ?st] =>
      destruct (checkInheritedFrom_superclass_kept decl post classC i st)
        as (Hsup2 & Hdiag2); [done|];
      pose proof (checkInheritedFrom_diags_grow decl post i st) as Hgrow;
      destruct (checkInheritedFrom decl i post st) as [post1 st2]
  end.
  unfold checkInheritanceClause.
  rewrite ConformanceFacts.fresh_not_checked, Hclause, Happ by done.
  simpl in *. rewrite Hsup2, andb_false_r.
  split.
  { unfold canInheritClass in Hcan.
    destruct decl as [k gp pc dt inh ps sup cs]; simpl in *.
    unfold needsNullConformances; simpl.
    by repeat (case_match; simpl; try done). }
  destruct (decide (0 < length pre)) as [Hpos|Hzero].
  - split; [intros _ ->; simpl in Hpos; lia|]. intros _.
    apply Hgrow, elem_of_app. right. apply list_elem_of_here.
  - split; [|intros Hne; destruct pre; [done|simpl in Hzero; lia]].
    intros Hin%Hdiag2. rewrite app_nil_r in Hin. by apply Hnone in Hin.
Qed.

Lemma checkInherited_seen decl i e st ty :
  ty ∈ inheritedTypes (checkInherited decl i e st).2
  ↔ ty ∈ inheritedTypes st ∨ validateType (tlRepr e) = Some ty.
Proof.
  unfold checkInherited.
  destruct (validateType (tlRepr e)) as [ty0|]; simpl;
    [|split; [auto|by intros [?|?]]].
  destruct (decide (ty0 ∈ inheritedTypes st)) as [Hdup|Hnew]; simpl.
  { split; [auto|]. by intros [?|[= <-]]. }
  assert (ty ∈ inheritedTypes st ++ [ty0]
          ↔ ty ∈ inheritedTypes st ∨ Some ty0 = Some ty) as Hadd.
  { rewrite elem_of_app, list_elem_of_singleton.
    split; intros [?|?]; auto; [right|right]; congruence. }
  repeat (case_match; simpl; try done).
Qed.

Lemma checkInherited_duplicate decl i e st ty :
  duplicate_inheritance ty ∈ clauseDiags (checkInherited decl i e st).2
  ↔ duplicate_inheritance ty ∈ clauseDiags st
    ∨ (validateType (tlRepr e) = Some ty ∧ ty ∈ inheritedTypes st).
Proof.
  unfold checkInherited.
  destruct (validateType (tlRepr e)) as [ty0|]; simpl;
    [|split; [auto|by intros [?|[? _]]]].
  destruct (decide (ty0 ∈ inheritedTypes st)) as [Hdup|Hnew]; simpl.
  { rewrite elem_of_app, list_elem_of_singleton. split.
    - intros [?|[= ->]]; auto.
    - intros [?|[[= ->] _]]; auto. }
  assert (∀ dg, (∀ t, dg ≠ duplicate_inheritance t) →
            duplicate_inheritance ty ∈ clauseDiags st ++ [dg]
            ↔ duplicate_inheritance ty ∈ clauseDiags st
              ∨ (Some ty0 = Some ty ∧ ty ∈ inheritedTypes st)) as Hother.
  { intros dg Hdg. rewrite elem_of_app, list_elem_of_singleton. split.
    - intros [?|Heq]; [by left|]. by destruct (Hdg ty).
    - intros [?|[[= ->] ?]]; [by left|done]. }
  assert (duplicate_inheritance ty ∈ clauseDiags st
          ↔ duplicate_inheritance ty ∈ clauseDiags st
            ∨ (Some ty0 = Some ty ∧ ty ∈ inheritedTypes st)) as Hsame.
  { split; [auto|]. intros [?|[[= ->] ?]]; done. }
  repeat (case_match; simpl; try done);
    apply Hother; intros dup; by try destruct (declKind decl).
Qed.

Lemma checkInheritedFrom_duplicates decl clause ty :
  ∀ i st,
    (ty ∈ inheritedTypes (checkInheritedFrom decl i clause st).2
     ↔ ty ∈ inheritedTypes st
       ∨ ∃ e, e ∈ clause ∧ validateType (tlRepr e) = Some ty)
    ∧ (duplicate_inheritance ty
         ∈ clauseDiags (checkInheritedFrom decl i clause st).2
       ↔ duplicate_inheritance ty ∈ clauseDiags st
         ∨ ∃ pre e post,
             clause = pre ++ e :: post
             ∧ validateType (tlRepr e) = Some ty
             ∧ (ty ∈ inheritedTypes st
                ∨ ∃ e0, e0 ∈ pre ∧ validateType (tlRepr e0) = Some ty)).
Proof.
  induction clause as [|e rest IH]; intros i st; simpl.
  { split; (split; [auto|]).
    - by intros [?|(e & Hin%elem_of_nil & _)].
    - intros [?|(pre & e & post & Heq & _)]; [done|].
      by destruct pre. }
  pose proof (checkInherited_seen decl i e st ty) as Hseen1.
  pose proof (checkInherited_duplicate decl i e st ty) as Hdup1.
  destruct (checkInherited decl i e st) as [e1 st1]. simpl in *.
  destruct (IH (S i) st1) as [Hseen2 Hdup2].
  destruct (checkInheritedFrom decl (S i) rest st1) as [rest1 st2].
  simpl in *. split.
  - rewrite Hseen2, Hseen1. split.
    + intros [[?|?]|(e0 & Hin & Hv)]; [by left| |].
      * right. exists e. split; [left|done].
      * right. exists e0. split; [by right|done].
    + intros [?|(e0 & [->|Hin]%elem_of_cons & Hv)]; [auto|auto|].
      right. eauto.
  - rewrite Hdup2, Hdup1. setoid_rewrite Hseen1. split.
    + intros [[?|[Hv Hin]]|(pre & e' & post & -> & Hv & Hor)].
      * by left.
      * right. exists [], e, rest. auto.
      * right. exists (e :: pre), e', post. split; [done|]. split; [done|].
        destruct Hor as [[?|?]|(e0 & Hin & Hv0)]; [by left| |].
        -- right. exists e. split; [left|done].
        -- right. exists e0. split; [by right|done].
    + intros [?|(pre & e' & post & Heq & Hv & Hor)]; [by left; left|].
      destruct pre as [|e2 pre]; simpl in Heq; injection Heq as <- ->.
      * destruct Hor as [?|(e0 & Hin%elem_of_nil & _)]; [|done].
        left. right. done.
      * right. exists pre, e', post. split; [done|]. split; [done|].
        destruct Hor as [?|(e0 & [->|Hin]%elem_of_cons & Hv0)]; eauto.
Qed.

(** X24. Resolution reports an inherited type as a duplicate exactly
    when two entries of the clause validate to it. *)
Theorem duplicates_reported decl ty :
  alreadyCheckedInheritanceClause decl = false →
  duplicate_inheritance ty ∈ (checkInheritanceClause decl).2
  ↔ namedTwice (getInherited decl) ty.
Proof.
  intros Hc. unfold checkInheritanceClause. rewrite Hc.
  destruct (checkInheritedFrom_duplicates decl (getInherited decl) ty 0
              (mkClauseState None [] [] [])) as [_ Hdup].
  destruct (checkInheritedFrom decl 0 (getInherited decl) _) as [clause st].
  simpl in *. rewrite Hdup. unfold namedTwice. split.
  - intros [Hin%elem_of_nil|(pre & e & post & Heq & Hv & Hor)]; [done|].
    destruct Hor as [Hin%elem_of_nil|(e0 & Hin & Hv0)]; [done|].
    by exists pre, e, post, e0.
  - intros (pre & e & post & e0 & Heq & Hin & Hv0 & Hv).
    right. exists pre, e, post. split; [done|]. split; [done|].
    right. by exists e0.
Qed.

End Resolution.

Section Gathering.
Context `{ConformanceChecker}.

Lemma listsProtocol_nil p : ¬ listsProtocol [] p.
Proof. by intros (e & ty & ps & Hin%elem_of_nil & _). Qed.

Lemma listsProtocol_cons e clause p :
  listsProtocol (e :: clause) p
  ↔ (∃ ty ps, tlType e = Some ty ∧ isExistentialType ty = Some ps ∧ p ∈ ps)
    ∨ listsProtocol clause p.
Proof.
  unfold listsProtocol. split.
  - intros (e0 & ty & ps & [->|Hin]%elem_of_cons & Hrest).
    + left. by exists ty, ps.
    + right. by exists e0, ty, ps.
  - intros [(ty & ps & Hrest)|(e0 & ty & ps & Hin & Hrest)].
    + exists e, ty, ps. split; [left|done].
    + exists e0, ty, ps. split; [by right|done].
Qed.

(** The gathering loops read of the declaration only its kind. *)
Lemma gatherProtocols_kind D1 D2 T ps st :
  declKind D1 = declKind D2 →
  gatherProtocols D1 T ps st = gatherProtocols D2 T ps st.
Proof.
  intros Hk. revert st. induction ps as [|q ps IH]; intros st; simpl; [done|].
  unfold isNominalTypeDecl. rewrite Hk.
  destruct (decide _); [done|]. by destruct (conformsToProtocol T q).
Qed.

Lemma gatherInherited_kind D1 D2 T clause st :
  declKind D1 = declKind D2 →
  gatherInherited D1 T clause st = gatherInherited D2 T clause st.
Proof.
  intros Hk. revert st.
  induction clause as [|e rest IH]; intros st; simpl; [done|].
  destruct (tlType e) as [ty|]; [|done].
  destruct (isExistentialType ty); [|done].
  by rewrite (gatherProtocols_kind D1 D2).
Qed.

Lemma gatherProtocols_recorded D T ps :
  ∀ st, recordedInv D T st →
    recordedInv D T (gatherProtocols D T ps st)
    ∧ ∀ p, p ∈ knownProtocols (gatherProtocols D T ps st)
           ↔ p ∈ knownProtocols st ∨ p ∈ ps.
Proof.
  induction ps as [|q ps IH]; intros st [Hnodup Hrec]; simpl.
  { split; [done|]. intros p. rewrite elem_of_nil. tauto. }
  destruct (decide (q ∈ knownProtocols st)) as [Hq|Hq].
  { destruct (IH st) as [Hinv Hknown]; [done|]. split; [done|].
    intros p. rewrite Hknown, elem_of_cons. split; [tauto|].
    intros [?|[->|?]]; auto. }
  destruct (conformsToProtocol T q) as [conforms c] eqn:Hc.
  match goal with
  | |- context [gatherProtocols D T ps ?st'] =>
      destruct (IH st') as [Hinv Hknown]
  end.
  { split; simpl.
    - destruct (conforms && _); [|done].
      apply NoDup_app. split; [done|]. split; [|apply NoDup_singleton].
      intros x Hx ->%list_elem_of_singleton.
      apply Hrec in Hx as (_ & _ & Hx). done.
    - intros p. rewrite elem_of_union, elem_of_singleton.
      destruct (isNominalTypeDecl D || _) eqn:Hflag.
      + destruct conforms; simpl.
        * rewrite elem_of_app, list_elem_of_singleton, Hrec. split.
          -- intros [(_ & Hp & Hin)| ->]; [auto|]. by rewrite Hc; auto.
          -- intros (_ & Hp & [->|Hin]); auto.
        * rewrite Hrec. split; [intros (_ & ? & ?); auto|].
          intros (_ & Hp & [->|Hin]); [|done].
          by rewrite Hc in Hp.
      + rewrite andb_false_r, Hrec. split; by intros [? _]. }
  split; [done|]. intros p. rewrite Hknown. simpl.
  rewrite elem_of_union, elem_of_singleton, elem_of_cons. tauto.
Qed.

Lemma gatherInherited_recorded D T clause :
  ∀ st st', recordedInv D T st →
    gatherInherited D T clause st = Some st' →
    recordedInv D T st'
    ∧ ∀ p, p ∈ knownProtocols st'
           ↔ p ∈ knownProtocols st ∨ listsProtocol clause p.
Proof.
  induction clause as [|e rest IH]; intros st st' Hinv; simpl.
  { intros [= <-]. split; [done|]. intros p. split; [auto|].
    by intros [?|?%listsProtocol_nil]. }
  destruct (tlType e) as [ty|] eqn:Hty; [|done].
  destruct (isExistentialType ty) as [ps|] eqn:Hex.
  - destruct (gatherProtocols_recorded D T ps st Hinv) as [Hinv1 Hknown1].
    intros Hrest. destruct (IH _ _ Hinv1 Hrest) as [Hinv2 Hknown2].
    split; [done|]. intros p.
    rewrite Hknown2, Hknown1, listsProtocol_cons. split.
    + intros [[?|?]|?]; auto. right. left. by exists ty, ps.
    + intros [?|[(ty' & ps' & Hty' & Hex' & Hp)|?]]; auto.
      left. right. congruence.
  - intros Hrest. destruct (IH _ _ Hinv Hrest) as [Hinv2 Hknown2].
    split; [done|]. intros p. rewrite Hknown2, listsProtocol_cons.
    split; [tauto|].
    intros [?|[(ty' & ps' & Hty' & Hex' & Hp)|?]]; auto. congruence.
Qed.

(** X5. Gathering explicit conformances records a conformance in the
    context once for each protocol that the validated entries of the
    clause list and to which the type conforms, and only for a nominal
    type declaration or an extension: for a type alias nothing is
    recorded. *)
Theorem conformances_recorded_once D T D' rec :
  gatherExplicitConformances D T = Some (D', rec) →
  NoDup rec
  ∧ (∀ p, p ∈ rec
          ↔ isNominalTypeDecl D || bool_decide (declKind D = ExtensionDecl)
            = true
            ∧ (conformsToProtocol T p).1 = true
            ∧ listsProtocol (getInherited D) p)
  ∧ (declKind D = TypeAliasDecl → rec = []).
Proof.
  intros (st & Hg & _ & _ & ->)%ConformanceFacts.gatherExplicitConformances_result.
  assert (recordedInv D T (mkGatherState ∅ [] [] [])) as Hinit.
  { split; [apply NoDup_nil_2|]. intros p. simpl. rewrite elem_of_nil.
    split; [done|]. intros (_ & _ & Hin). by apply elem_of_empty in Hin. }
  destruct (gatherInherited_recorded D T _ _ _ Hinit Hg)
    as [[Hnodup Hrec] Hknown].
  split; [done|]. split.
  - intros p. rewrite Hrec, Hknown. simpl. rewrite elem_of_empty. tauto.
  - intros Hk. destruct (recorded st) as [|p l] eqn:Hl; [done|].
    destruct (Hrec p) as [Hp _].
    destruct Hp as (Hflag & _); [left|].
    unfold isNominalTypeDecl in Hflag. by rewrite Hk in Hflag.
Qed.

(** X6. Gathering explicit conformances a second time changes nothing:
    the declaration and what is recorded in the context come out as
    after the first run. *)
Theorem gathering_idempotent D T D' rec :
  gatherExplicitConformances D T = Some (D', rec) →
  gatherExplicitConformances D' T = Some (D', rec).
Proof.
  intros Hfirst.
  pose proof (ConformanceFacts.gatherExplicitConformances_result _ _ _ _
                Hfirst) as (st & Hg & Hps & Hcs & ->).
  assert (getInherited D' = getInherited D ∧ declKind D' = declKind D)
    as [Hinh Hkind].
  { revert Hfirst. unfold gatherExplicitConformances. rewrite Hg.
    destruct (decide (length _ = _)); simpl;
      [destruct (decide (getProtocols D = _)); [|done]|];
      simpl; intros [= <-]; done. }
  unfold gatherExplicitConformances.
  rewrite Hinh, (gatherInherited_kind D' D) by done. rewrite Hg.
  rewrite !decide_True by (by rewrite Hps). simpl.
  rewrite <- Hcs. by destruct D'.
Qed.

End Gathering.

Section TypeAliases.
Context `{TypeValidator} `{ConformanceChecker}.

(** After resolution from the parsed state, gathering finds every entry
    typed and aligns the conformances with the recorded protocols. *)
Lemma gather_after_resolution decl T0 :
  getProtocols decl = [] → getSuperclass decl = None →
  ∃ D' rec,
    gatherExplicitConformances (checkInheritanceClause decl).1 T0
      = Some (D', rec)
    ∧ getProtocols D' = getProtocols (checkInheritanceClause decl).1
    ∧ ∀ i p, getProtocols D' !! i = Some p →
             getConformances D' !! i = Some (conformsToProtocol T0 p).2.
Proof.
  intros Hps Hsup. set (checked := (checkInheritanceClause decl).1).
  pose proof (ConformanceFacts.gather_after_checkFrom checked T0 decl 0
                (getInherited decl) (mkClauseState None [] [] [])
                (mkGatherState ∅ [] [] [])) as Hloop.
  pose proof (ConformanceFacts.checkInheritanceClause_inherited decl
                (ConformanceFacts.fresh_not_checked decl Hps Hsup)) as Hinh.
  pose proof (ConformanceFacts.checkInheritanceClause_protocols decl Hps Hsup)
    as Hprot.
  fold checked in Hinh, Hprot.
  destruct (checkInheritedFrom decl 0 (getInherited decl)
              (mkClauseState None [] [] [])) as [clause st].
  simpl in Hinh, Hprot.
  destruct Hloop as (g & Hg & Hgp & Hknown & Hgc).
  { by intros ty ps q Hin%elem_of_nil. }
  { repeat split; try done; simpl; set_solver. }
  unfold gatherExplicitConformances. rewrite Hinh, Hg, Hprot, Hgp.
  rewrite !decide_True by done. eexists _, _. split; [done|]. simpl.
  rewrite Hprot, Hgc. split; [done|].
  intros i p Hi. by rewrite list_lookup_fmap, Hi.
Qed.

(** For a type alias nothing is recorded in the context. *)
Lemma gatherExplicitConformances_typealias D0 T0 D' rec :
  declKind D0 = TypeAliasDecl →
  gatherExplicitConformances D0 T0 = Some (D', rec) → rec = [].
Proof.
  intros Hk. unfold gatherExplicitConformances.
  assert (∀ ps st, recorded (gatherProtocols D0 T0 ps st) = recorded st)
    as Hinner.
  { induction ps as [|q ps IH]; intros st; simpl; [done|].
    destruct (decide _); [done|]. destruct (conformsToProtocol T0 q).
    rewrite IH. simpl. unfold isNominalTypeDecl. rewrite Hk. simpl.
    by rewrite andb_false_r. }
  assert (∀ clause st st', gatherInherited D0 T0 clause st = Some st' →
                           recorded st' = recorded st) as Houter.
  { induction clause as [|e rest IH]; intros st st'; simpl.
    - by intros [= ->].
    - destruct (tlType e) as [ty|]; [|done].
      destruct (isExistentialType ty); intros Hg%IH; [|done].
      by rewrite Hg, Hinner. }
  destruct (gatherInherited D0 T0 _ _) as [st|] eqn:Hg; [|done].
  intros (D1 & _ & [= _ <-])%bind_Some. by apply Houter in Hg.
Qed.

Lemma preCheckMembers_members members :
  (preCheckMembers members).1
  = (λ member,
       match member with
       | TypeAliasMember assocType =>
           TypeAliasMember (checkInheritanceClause assocType).1
       | OtherDeclMember => OtherDeclMember
       end) <$> members.
Proof.
  induction members as [|m rest IH]; simpl; [done|].
  destruct (preCheckMembers rest) as [rest1 ds1]. simpl in IH. subst.
  destruct m as [a|]; simpl; [|done].
  by destruct (checkInheritanceClause a).
Qed.

(** X7. [preCheckProtocol] resolves the inheritance clause of every
    associated type of the protocol.  An associated type that was in its
    parsed state then carries one null conformance per recorded
    protocol; [visitTypeAliasDecl], which does not resolve the clause of
    an associated type itself, leaves it untouched in a first pass and
    otherwise completes without reading an unvalidated entry, keeps the
    recorded protocols, puts the checker's answer for each protocol at
    its index, reports nothing and records nothing in the context. *)
Theorem associated_types_prechecked D members assocType :
  TypeAliasMember assocType ∈ members →
  declKind assocType = TypeAliasDecl → inProtocolContext assocType = true →
  getProtocols assocType = [] → getSuperclass assocType = None →
  getConformances assocType = [] →
  let checked := (checkInheritanceClause assocType).1 in
  TypeAliasMember checked ∈ (preCheckProtocol D members).1.2
  ∧ getConformances checked = replicate (length (getProtocols checked)) None
  ∧ visitTypeAliasDecl true false checked = Some (checked, [], [])
  ∧ ∀ IsSecondPass, ∃ TAD',
      visitTypeAliasDecl false IsSecondPass checked = Some (TAD', [], [])
      ∧ getProtocols TAD' = getProtocols checked
      ∧ ∀ i p, getProtocols TAD' !! i = Some p →
               getConformances TAD' !! i
               = Some (conformsToProtocol (getDeclaredType assocType) p).2.
Proof.
  intros Hin Hkind Hctx Hps Hsup Hcs checked.
  assert (inProtocolContext checked = true
          ∧ declKind checked = TypeAliasDecl
          ∧ getDeclaredType checked = getDeclaredType assocType)
    as (Hctx' & Hkind' & Hty).
  { unfold checked, checkInheritanceClause.
    destruct (alreadyCheckedInheritanceClause assocType); [done|].
    destruct (checkInheritedFrom _ _ _ _) as [clause st]. simpl.
    destruct assocType as [k gp pc dt inh ps sup cs]; simpl in *. subst.
    unfold needsNullConformances; simpl.
    by repeat (case_match; simpl; try done). }
  split; [|split; [|split]].
  - unfold preCheckProtocol.
    destruct (checkInheritanceClause D) as [D1 ds1].
    pose proof (preCheckMembers_members members) as Hm.
    destruct (preCheckMembers members) as [members1 ds2]. simpl in *.
    rewrite Hm. apply list_elem_of_fmap.
    exists (TypeAliasMember assocType). by split.
  - apply ConformanceFacts.checkInheritanceClause_placeholders; try done.
    unfold needsNullConformances. by rewrite Hkind, Hctx.
  - unfold visitTypeAliasDecl. simpl. by rewrite Hctx'.
  - intros IsSecondPass.
    destruct (gather_after_resolution assocType (getDeclaredType assocType)
                Hps Hsup) as (D' & rec & Hg & Hprot & Hconf).
    fold checked in Hg, Hprot.
    rewrite (gatherExplicitConformances_typealias _ _ _ _ Hkind' Hg) in Hg.
    exists D'. split; [|done].
    unfold visitTypeAliasDecl.
    destruct IsSecondPass; simpl; rewrite ?Hctx'; simpl; by rewrite Hty, Hg.
Qed.

End TypeAliases.

End ResolutionFacts.

Module PropagationFacts.
Import ObjC.

(** Where an element of the result of a loop that only adds comes
    from. *)
Lemma foldl_origin {A} (f : gset DeclID → A → gset DeclID) l s w :
  (∀ a s, s ⊆ f s a) →
  w ∈ foldl f s l →
  w ∈ s ∨ ∃ a s0, a ∈ l ∧ (w ∉ s0) ∧ w ∈ f s0 a ∧ f s0 a ⊆ foldl f s l.
Proof.
  intros Hgrow. revert s. induction l as [|a l IH]; intros s; simpl; [auto|].
  intros [Hw|(b & s0 & Hb & Hnew & Hw & Hsub)]%IH.
  - destruct (decide (w ∈ s)) as [?|Hnew]; [by left|]. right.
    exists a, s. split; [left|]. split; [done|]. split; [done|].
    apply ObjCFacts.foldl_grows. by apply Forall_forall.
  - right. exists b, s0. split; [by right|done].
Qed.

(** Propagation marks nothing but witnesses of conformances to
    protocols that are ObjC in the end. *)
Lemma checkNonNullConformance_origin c :
  ∀ protocol s w,
    w ∈ checkNonNullConformance protocol c s →
    w ∈ s
    ∨ ∃ q c' req,
        nested protocol c q c'
        ∧ q ∈ checkNonNullConformance protocol c s
        ∧ (req, w) ∈ getWitnesses c'.
Proof.
  induction c as [witnesses inh IH]
    using ObjCFacts.ProtocolConformance_nested_ind.
  intros protocol s w Hw.
  pose proof (ObjCFacts.checkNonNullConformance_grows
                (mkConformance witnesses inh) protocol s) as Hgrows.
  simpl in *.
  apply foldl_origin in Hw as [Hw|([q oc] & s0 & Hin & Hnew & Hw & Hsub)].
  - destruct (decide (protocol ∈ s)) as [Hp|Hp]; [|by left].
    apply ObjCFacts.mark_witnesses in Hw as [?|[req Hreq]]; [by left|].
    right. exists protocol, (mkConformance witnesses inh), req.
    split; [constructor|]. split; [by eapply elem_of_weaken|done].
  - destruct oc as [c'|]; simpl in *; [|done].
    rewrite Forall_forall in IH.
    destruct (IH _ Hin c' eq_refl q s0 w Hw)
      as [Hold|(q' & c'' & req & Hnested & Hq' & Hreq)]; [done|].
    right. exists q', c'', req.
    split; [|split; [by eapply elem_of_weaken|done]].
    eapply nested_inherited; [exact Hin|done].
  - intros [q' [c'|]] s'; simpl; [|done].
    apply ObjCFacts.checkNonNullConformance_grows.
Qed.

(** X8. Propagating ObjC conformances never clears an ObjC bit, and
    every declaration it newly marks is a witness of a conformance,
    given for the declaration or nested in one through inherited
    conformances, to a protocol that is ObjC when propagation ends. *)
Theorem only_objc_witnesses_marked protocols conformances s s' :
  checkObjCConformances protocols conformances s = Some s' →
  s ⊆ s'
  ∧ ∀ w, w ∈ s' → w ∉ s →
         ∃ i protocol c q c' req,
           protocols !! i = Some protocol
           ∧ conformances !! i = Some (Some c)
           ∧ nested protocol c q c' ∧ q ∈ s'
           ∧ (req, w) ∈ getWitnesses c'.
Proof.
  unfold checkObjCConformances. destruct (decide _) as [Hlen|]; [|done].
  intros [= <-].
  assert (∀ (a : DeclID * option ProtocolConformance) s0,
             s0 ⊆ checkObjCConformance a.1 a.2 s0) as Hgrow.
  { intros [p oc] s0. apply ObjCFacts.checkObjCConformance_grows. }
  split.
  { apply ObjCFacts.foldl_grows, Forall_forall. intros a _ s0. apply Hgrow. }
  intros w Hw Hnot.
  apply foldl_origin in Hw
    as [?|([p oc] & s0 & Hin & Hnew & Hw & Hsub)]; [done| |done].
  destruct oc as [c|]; simpl in *; [|done].
  apply checkNonNullConformance_origin in Hw
    as [?|(q & c' & req & Hnested & Hq & Hreq)]; [done|].
  apply list_elem_of_lookup in Hin as [i Hi].
  apply lookup_zip_with_Some in Hi as (p0 & oc0 & [= <- <-] & Hp & Hc).
  exists i, p, c, q, c', req. repeat split; try done.
  by eapply elem_of_weaken.
Qed.

End PropagationFacts.

Module InitializerFacts.
Import DefaultInit.
Section WithLookup.
Context `{NameLookup}.

Lemma tupleElements_no_initializer fs inits names answer w :
  tupleElements false fs inits names = Some (answer, w) → w = None.
Proof.
  revert inits names. induction fs as [|e fs IH]; intros inits names; simpl.
  - by intros [= _ <-].
  - destruct (eltHasInit e); [done|].
    destruct (isDefaultInitializable (eltType e) false) as [[[] ?]|];
      [apply IH|by intros [= _ <-]|done].
Qed.

Lemma tupleElements_failure b fs inits names w :
  tupleElements b fs inits names = Some (false, w) → w = None.
Proof.
  revert inits names. induction fs as [|e fs IH]; intros inits names; simpl;
    [done|].
  destruct (eltHasInit e); [done|].
  destruct (isDefaultInitializable (eltType e) b) as [[[] [we|]]|], b;
    simpl; try done; first [apply IH|by intros [= <-]].
Qed.

Lemma lookForDefaultConstructor_modes ty :
  (lookForDefaultConstructor ty false).1 = (lookForDefaultConstructor ty true).1
  ∧ (lookForDefaultConstructor ty false).2 = None
  ∧ (is_Some (lookForDefaultConstructor ty true).2
     ↔ (lookForDefaultConstructor ty true).1 = true).
Proof.
  unfold lookForDefaultConstructor.
  destruct (lookupConstructors ty) as [ctors|]; simpl;
    [|by repeat split; try intros [? [=]]].
  destruct (findDefaultConstructor ctors false) as [[]|]; simpl;
    repeat split; try done; try (by intros [? [=]]); eauto.
Qed.

(** The two modes of the tuple loop answer alike and fail alike. *)
Lemma tupleElements_modes fs :
  Forall (λ e, fst <$> isDefaultInitializable (eltType e) false
               = fst <$> isDefaultInitializable (eltType e) true) fs →
  ∀ inits names inits' names',
    fst <$> tupleElements false fs inits names
    = fst <$> tupleElements true fs inits' names'.
Proof.
  induction 1 as [|e fs He _ IH]; intros inits names inits' names'; simpl;
    [done|].
  destruct (eltHasInit e); [done|].
  destruct (isDefaultInitializable (eltType e) true)
    as [[answer w]|] eqn:Ht,
    (isDefaultInitializable (eltType e) false) as [[answer' w']|];
    simpl in He; try done.
  injection He as ->. destruct answer; [|done].
  destruct (DefaultInitFacts.isDefaultInitializable_initializer _ _ Ht)
    as [we ->].
  apply IH.
Qed.

(** X9. Whether a type is default-initializable does not depend on
    whether the caller asks for the initializer expression: the two
    kinds of call answer alike, and fail the assertion on a defaulted
    tuple element alike.  Without the request no expression is built;
    with it, an expression is built exactly when the answer is
    positive. *)
Theorem initializer_request_irrelevant ty :
  fst <$> isDefaultInitializable ty false
  = fst <$> isDefaultInitializable ty true
  ∧ (∀ answer w, isDefaultInitializable ty false = Some (answer, w) →
                 w = None)
  ∧ (∀ answer w, isDefaultInitializable ty true = Some (answer, w) →
                 is_Some w ↔ answer = true).
Proof.
  induction ty as [fields IH|o r IH|ty Ht Hr]
    using DefaultInitFacts.Ty_default_init_ind.
  - rewrite !DefaultInitFacts.isDefaultInitializable_tuple.
    split; [|split].
    + apply tupleElements_modes.
      eapply Forall_impl; [exact IH|]. by intros e [He _].
    + intros answer w. apply tupleElements_no_initializer.
    + intros [] w Hw.
      * split; [done|]. intros _.
        rewrite <- DefaultInitFacts.isDefaultInitializable_tuple in Hw.
        by eapply DefaultInitFacts.isDefaultInitializable_initializer.
      * rewrite (tupleElements_failure _ _ _ _ _ Hw).
        split; [by intros [? [=]]|done].
  - exact IH.
  - pose proof lookForDefaultConstructor_modes as Hlook.
    destruct ty; simpl;
      try (by exfalso; eapply Ht); try (by exfalso; eapply Hr);
      (split; [|split]);
      try (intros answer w [= Heq]);
      try match goal with
          | |- context [lookForDefaultConstructor ?t _] =>
              destruct (Hlook t) as (Hfst & Hnone & Hsome)
          | Heq : lookForDefaultConstructor ?t _ = _ |- _ =>
              destruct (Hlook t) as (Hfst & Hnone & Hsome)
          end;
      try (rewrite Heq in *); simpl in *; simplify_eq;
      first [done|by f_equal|by split; [intros [? [=]]|]|by split; eauto].
Qed.

End WithLookup.
End InitializerFacts.

Module SynthesisFacts.
Import ImplicitCtor.

(** Without a constructor among the members the first loop runs to the
    end and finds an instance variable exactly when there is a stored
    member. *)
Lemma findInstanceVar_stored tc members found :
  (∀ m, m ∈ members → isaConstructorDecl tc m = false) →
  findConstructorOrInstanceVar tc members found
  = (false, found || bool_decide (storedMembers tc members ≠ [])).
Proof.
  revert found. induction members as [|m rest IH]; intros found Hnone; simpl.
  { by rewrite orb_false_r. }
  rewrite (Hnone m) by left.
  rewrite IH by (intros m' Hm'; apply Hnone; by right).
  unfold storedMembers. simpl.
  destruct (dyn_cast_VarDecl tc m) as [var|]; simpl; [|done].
  destruct (isProperty var); simpl; [done|].
  by rewrite orb_true_r.
Qed.

(** What [addImplicitConstructors] does to a struct that has no
    constructor and is not yet queued. *)
Lemma addImplicitConstructors_result tc structDecl sd :
  getStruct tc structDecl = Some sd →
  (∀ m, m ∈ getMembers sd → isaConstructorDecl tc m = false) →
  structDecl ∉ structsNeedingImplicitDefaultConstructor tc →
  let ctor := fresh (dom (decls tc)) in
  let stored := bool_decide (storedMembers tc (getMembers sd) ≠ []) in
  ∃ tc1 node,
    addImplicitConstructors tc structDecl = Some tc1
    ∧ decls tc1
      = <[structDecl := StructDeclNode
                          (mkStructDecl (getMembers sd ++ [ctor])
                                        (hasClangNode sd))]>
          (<[ctor := ConstructorDeclNode node]> (decls tc))
    ∧ structsNeedingImplicitDefaultConstructor tc1
      = (if stored
         then {[structDecl]} ∪ structsNeedingImplicitDefaultConstructor tc
         else structsNeedingImplicitDefaultConstructor tc)
    ∧ structsWithImplicitDefaultConstructor tc1
      = (if stored
         then structsWithImplicitDefaultConstructor tc ++ [structDecl]
         else structsWithImplicitDefaultConstructor tc)
    ∧ implicitlyDefinedFunctions tc1 = implicitlyDefinedFunctions tc
    ∧ Diags tc1 = Diags tc.
Proof.
  intros Hsd Hnone Hqueue ctor stored.
  pose proof (ImplicitCtorFacts.getStruct_ne_fresh _ _ _ Hsd) as Hne.
  unfold addImplicitConstructors. rewrite Hsd. simpl.
  rewrite findInstanceVar_stored by done. simpl. fold stored.
  unfold createImplicitConstructor. rewrite Hsd. simpl. fold ctor.
  set (node := mkConstructorDecl _ _ _).
  assert (∀ tc0, decls tc0 = <[ctor:=ConstructorDeclNode node]> (decls tc) →
            appendMember tc0 structDecl ctor
            = Some (setDecls tc0
                      (<[structDecl :=
                           StructDeclNode
                             (mkStructDecl (getMembers sd ++ [ctor])
                                           (hasClangNode sd))]>
                         (decls tc0)))) as Happend.
  { intros tc0 Htc0. unfold appendMember, getStruct. rewrite Htc0.
    rewrite lookup_insert_ne by done.
    unfold getStruct in Hsd.
    destruct (decls tc !! structDecl) as [[]|]; simplify_eq. done. }
  destruct (hasClangNode sd); (rewrite Happend by done); simpl;
    destruct stored; simpl; rewrite ?decide_False by done;
    eexists _, node; (split; [done|]); done.
Qed.

(** X10. On a struct that is not yet queued for a default constructor
    (the function asserts as much before it queues one),
    [addImplicitConstructors] queues the struct exactly when it has no
    constructor among its members and has a stored member; other
    structs are queued as before.  A second call finds the constructor
    that the first call added and changes nothing, so that a struct
    never gets two memberwise constructors. *)
Theorem default_constructor_queued tc structDecl sd :
  getStruct tc structDecl = Some sd →
  structDecl ∉ structsNeedingImplicitDefaultConstructor tc →
  ∃ tc1,
    addImplicitConstructors tc structDecl = Some tc1
    ∧ (∀ x, x ∈ structsNeedingImplicitDefaultConstructor tc1
            ↔ x ∈ structsNeedingImplicitDefaultConstructor tc
              ∨ (x = structDecl
                 ∧ (∀ m, m ∈ getMembers sd → isaConstructorDecl tc m = false)
                 ∧ storedMembers tc (getMembers sd) ≠ []))
    ∧ addImplicitConstructors tc1 structDecl = Some tc1.
Proof.
  intros Hsd Hqueue.
  pose proof (ImplicitCtorFacts.findConstructor_iff tc (getMembers sd) false)
    as Hfind.
  destruct (findConstructorOrInstanceVar tc (getMembers sd) false)
    as [found ivar] eqn:Hloop.
  simpl in Hfind. destruct found.
  - (* a constructor is declared: nothing happens *)
    assert (addImplicitConstructors tc structDecl = Some tc) as Hsame.
    { unfold addImplicitConstructors. by rewrite Hsd; simpl; rewrite Hloop. }
    exists tc. split; [done|]. split; [|done].
    intros x. split; [auto|]. intros [?|(_ & Hnone & _)]; [done|].
    destruct Hfind as [(m & Hin & Hm) _]; [done|].
    by rewrite Hnone in Hm.
  - assert (∀ m, m ∈ getMembers sd → isaConstructorDecl tc m = false)
      as Hnone.
    { intros m Hin. apply not_true_is_false. intros Hm.
      assert (false = true); [|done]. apply Hfind. eauto. }
    pose proof (ImplicitCtorFacts.getStruct_ne_fresh _ _ _ Hsd) as Hne.
    destruct (addImplicitConstructors_result tc structDecl sd Hsd Hnone
                Hqueue)
      as (tc1 & node & Hadd & Hdecls & Hneeding & _).
    exists tc1. split; [done|]. split.
    + intros x. rewrite Hneeding.
      destruct (bool_decide_reflect (storedMembers tc (getMembers sd) ≠ []))
        as [Hstored|Hstored].
      * rewrite elem_of_union, elem_of_singleton. split; [|tauto].
        intros [->|?]; auto.
      * split; [auto|]. by intros [?|(_ & _ & ?)].
    + unfold addImplicitConstructors, getStruct. rewrite Hdecls.
      rewrite lookup_insert_eq. simpl.
      pose proof (ImplicitCtorFacts.findConstructor_iff tc1
                    (getMembers sd ++ [fresh (dom (decls tc))]) false)
        as Hfind1.
      destruct (findConstructorOrInstanceVar tc1 _ false) as [found1 ivar1].
      simpl in Hfind1. destruct found1; [done|].
      assert (false = true); [|done]. apply Hfind1.
      exists (fresh (dom (decls tc))).
      split; [apply elem_of_app; right; apply list_elem_of_here|].
      unfold isaConstructorDecl. rewrite Hdecls.
      by rewrite lookup_insert_ne, lookup_insert_eq by done.
Qed.

Section FinalPass.
Context `{NameLookup}.

Lemma defineDefaultConstructor_list tc structDecl tc1 :
  defineDefaultConstructor tc structDecl = Some tc1 →
  structsWithImplicitDefaultConstructor tc1
  = structsWithImplicitDefaultConstructor tc.
Proof.
  unfold defineDefaultConstructor. intros Hd.
  destruct (decide (structDecl ∉ _)); [done|].
  apply bind_Some in Hd as (sd & Hsd & Hd).
  apply bind_Some in Hd as (ok & Hok & Hd).
  destruct ok; simpl in Hd; [|by injection Hd as <-].
  apply bind_Some in Hd as ([ctor tc0] & Hc & Hd).
  apply bind_Some in Hd as (tc3 & Happ & Hd).
  injection Hd as <-. simpl.
  assert (structsWithImplicitDefaultConstructor (setBody tc3 ctor [])
          = structsWithImplicitDefaultConstructor tc3) as ->.
  { unfold setBody. by destruct (decls tc3 !! ctor) as [[]|]. }
  unfold appendMember in Happ.
  apply bind_Some in Happ as (sd0 & _ & [= <-]). simpl.
  unfold createImplicitConstructor in Hc.
  apply bind_Some in Hc as (sd1 & _ & Hc).
  by destruct (hasClangNode sd1); injection Hc as <- <-.
Qed.

Lemma definePending_drained tc structs tc' :
  wellFormedPending tc structs →
  definePending tc structs = Some tc' →
  (∀ x, x ∈ structs → x ∉ structsNeedingImplicitDefaultConstructor tc')
  ∧ structsWithImplicitDefaultConstructor tc'
    = structsWithImplicitDefaultConstructor tc.
Proof.
  revert tc. induction structs as [|x rest IH]; intros tc Hwf; simpl.
  { intros [= <-]. split; [|done]. by intros x Hx%elem_of_nil. }
  destruct (decide _) as [Hneed|Hnot].
  - destruct (Hwf x) as (sd & Hsd & Htyped); [left|done|].
    destruct (ImplicitCtorFacts.defineDefaultConstructor_outcome
                tc x sd Hsd Hneed Htyped)
      as (tc1 & Hdef & Huo & Hx & _ & Hframe & _).
    rewrite Hdef. intros Hrest.
    pose proof (ImplicitCtorFacts.outcome_preserves_pending
                  _ _ _ _ Huo Hframe Hx Hwf) as Hwf1.
    pose proof (ImplicitCtorFacts.definePending_unchangedOutside
                  _ _ _ Hwf1 Hrest) as Huo'.
    destruct (IH tc1 Hwf1 Hrest) as [Hgone Hlist].
    split.
    + intros y [->|Hy]%elem_of_cons; [|by apply Hgone].
      intros Hin. apply Hx. by apply (uo_needing _ _ Huo').
    + by rewrite Hlist, (defineDefaultConstructor_list _ _ _ Hdef).
  - intros Hrest.
    assert (wellFormedPending tc rest) as Hwf1.
    { intros y Hy Hyneed. apply Hwf; [by right|done]. }
    pose proof (ImplicitCtorFacts.definePending_unchangedOutside
                  _ _ _ Hwf1 Hrest) as Huo'.
    destruct (IH tc Hwf1 Hrest) as [Hgone Hlist].
    split; [|done].
    intros y [->|Hy]%elem_of_cons; [|by apply Hgone].
    intros Hin. apply Hnot. by apply (uo_needing _ _ Huo').
Qed.

Lemma definePending_settled tc structs :
  (∀ x, x ∈ structs → x ∉ structsNeedingImplicitDefaultConstructor tc) →
  definePending tc structs = Some tc.
Proof.
  induction structs as [|x rest IH]; intros Hnone; simpl; [done|].
  rewrite decide_False by (apply Hnone; left).
  apply IH. intros y Hy. apply Hnone. by right.
Qed.

(** X11. After the final pass none of the structs on its work list is
    still queued for a default constructor, and the work list is what it
    was; running the final pass again changes nothing. *)
Theorem final_pass_settles tc :
  wellFormedPending tc (structsWithImplicitDefaultConstructor tc) →
  ∃ tc',
    definePendingImplicitDecls tc = Some tc'
    ∧ (∀ x, x ∈ structsWithImplicitDefaultConstructor tc →
            x ∉ structsNeedingImplicitDefaultConstructor tc')
    ∧ structsWithImplicitDefaultConstructor tc'
      = structsWithImplicitDefaultConstructor tc
    ∧ definePendingImplicitDecls tc' = Some tc'.
Proof.
  intros Hwf. unfold definePendingImplicitDecls.
  destruct (ImplicitCtorFacts.definePending_total tc _ Hwf) as [tc' Hpass].
  destruct (definePending_drained _ _ _ Hwf Hpass) as [Hgone Hlist].
  exists tc'. split; [done|]. split; [done|]. split; [done|].
  rewrite Hlist. by apply definePending_settled.
Qed.

(** The bindings of a struct are what they were once a constructor has
    been appended to its members. *)
Lemma uninitializedStoredVariables_appended tc tc1 structDecl sd ctor node
    members :
  getStruct tc structDecl = Some sd →
  decls tc !! ctor = None →
  decls tc1
  = <[structDecl := StructDeclNode
                      (mkStructDecl (getMembers sd ++ [ctor])
                                    (hasClangNode sd))]>
      (<[ctor := ConstructorDeclNode node]> (decls tc)) →
  uninitializedStoredVariables tc1 (members ++ [ctor])
  = uninitializedStoredVariables tc members.
Proof.
  intros Hsd Hfresh Hdecls.
  assert (∀ d, dyn_cast_PatternBindingDecl tc1 d
               = dyn_cast_PatternBindingDecl tc d) as Hb.
  { intros d. unfold dyn_cast_PatternBindingDecl. rewrite Hdecls.
    unfold getStruct in Hsd.
    destruct (decide (d = structDecl)) as [->|].
    { rewrite lookup_insert_eq.
      by destruct (decls tc !! structDecl) as [[]|]. }
    rewrite lookup_insert_ne by done.
    destruct (decide (d = ctor)) as [->|].
    { by rewrite lookup_insert_eq, Hfresh. }
    by rewrite lookup_insert_ne. }
  rewrite (ImplicitCtorFacts.uninitializedStoredVariables_bindings tc tc1)
    by done.
  unfold uninitializedStoredVariables. rewrite flat_map_app. simpl.
  unfold dyn_cast_PatternBindingDecl. rewrite Hfresh.
  by rewrite !app_nil_r.
Qed.

(** X12. For a struct without a constructor that is not yet queued and
    whose type checker has an empty work list, the structural pass
    followed by the final pass completes and appends the memberwise
    constructor to the members; the default constructor is appended
    after it exactly when the struct has a stored member and all the
    uninitialized stored variables have a default-initializable type. *)
Theorem struct_constructors_synthesized tc structDecl sd :
  getStruct tc structDecl = Some sd →
  structsWithImplicitDefaultConstructor tc = [] →
  structDecl ∉ structsNeedingImplicitDefaultConstructor tc →
  (∀ m, m ∈ getMembers sd → isaConstructorDecl tc m = false) →
  typedStoredVariables tc sd →
  ∃ tc1 tc2 memberwise,
    addImplicitConstructors tc structDecl = Some tc1
    ∧ definePendingImplicitDecls tc1 = Some tc2
    ∧ decls tc !! memberwise = None
    ∧ isaConstructorDecl tc2 memberwise = true
    ∧ if bool_decide (storedMembers tc (getMembers sd) ≠ [])
         && forallb defaultInitializableVar
              (uninitializedStoredVariables tc (getMembers sd))
      then ∃ ctor,
             ctor ≠ memberwise
             ∧ decls tc !! ctor = None
             ∧ getStruct tc2 structDecl
               = Some (mkStructDecl (getMembers sd ++ [memberwise; ctor])
                                    (hasClangNode sd))
             ∧ decls tc2 !! ctor = Some defaultConstructor
      else getStruct tc2 structDecl
           = Some (mkStructDecl (getMembers sd ++ [memberwise])
                                (hasClangNode sd)).
Proof.
  intros Hsd Hlist Hqueue Hnone Htyped.
  pose proof (ImplicitCtorFacts.getStruct_ne_fresh _ _ _ Hsd) as Hne.
  pose proof (ImplicitCtorFacts.fresh_decl tc) as Hfresh.
  destruct (addImplicitConstructors_result tc structDecl sd Hsd Hnone Hqueue)
    as (tc1 & node & Hadd & Hdecls & Hneeding & Hwith & _).
  set (memberwise := fresh (dom (decls tc))) in *.
  set (sd1 := mkStructDecl (getMembers sd ++ [memberwise]) (hasClangNode sd))
    in *.
  assert (getStruct tc1 structDecl = Some sd1) as Hsd1.
  { unfold getStruct. by rewrite Hdecls, lookup_insert_eq. }
  assert (isaConstructorDecl tc1 memberwise = true) as Hctor1.
  { unfold isaConstructorDecl.
    by rewrite Hdecls, lookup_insert_ne, lookup_insert_eq by done. }
  pose proof (uninitializedStoredVariables_appended tc tc1 structDecl sd
                memberwise node (getMembers sd) Hsd Hfresh Hdecls) as Hvars.
  rewrite Hlist in Hwith. simpl in Hwith.
  exists tc1. unfold definePendingImplicitDecls. rewrite Hwith.
  destruct (bool_decide (storedMembers tc (getMembers sd) ≠ [])); simpl.
  2:{ exists tc1, memberwise. by repeat split. }
  assert (structDecl ∈ structsNeedingImplicitDefaultConstructor tc1)
    as Hqueued.
  { rewrite Hneeding. apply elem_of_union. left. by apply elem_of_singleton. }
  rewrite decide_True by done.
  destruct (ImplicitCtorFacts.defineDefaultConstructor_outcome
              tc1 structDecl sd1 Hsd1)
    as (tc2 & Hdef & Huo & _ & _ & Hframe & Hout).
  { done. }
  { intros var. unfold sd1. simpl. rewrite Hvars. apply Htyped. }
  rewrite Hdef. exists tc2, memberwise.
  split; [done|]. split; [done|]. split; [done|].
  split.
  { unfold isaConstructorDecl in *.
    rewrite Hframe; [done|done|].
    by destruct (decls tc1 !! memberwise). }
  unfold sd1 in Hout. simpl in Hout. rewrite Hvars in Hout.
  destruct (forallb _ _); [|done].
  destruct Hout as (ctor & Hnew & Hstruct & Hdefault & _).
  exists ctor. rewrite <- app_assoc in Hstruct. simpl in Hstruct.
  repeat split; try done.
  - intros ->. unfold isaConstructorDecl in Hctor1. by rewrite Hnew in Hctor1.
  - rewrite Hdecls in Hnew.
    destruct (decide (ctor = structDecl)) as [->|];
      [by rewrite lookup_insert_eq in Hnew|].
    rewrite lookup_insert_ne in Hnew by done.
    destruct (decide (ctor = memberwise)) as [->|];
      [by rewrite lookup_insert_eq in Hnew|].
    by rewrite lookup_insert_ne in Hnew.
Qed.

End FinalPass.

End SynthesisFacts.

Module FunctionAttrFacts.
Import Attributes FunctionAttrs.

(** The function clears the five attributes one after the other and
    reports four of them. *)
Lemma consumed_result FD :
  validateAndConsumeFunctionTypeAttributes FD
  = (setAttrs FD
       (clearAttribute AK_objc_block
          (clearAttribute AK_auto_closure
             (clearAttribute AK_noreturn
                (clearAttribute AK_thin
                   (clearAttribute AK_cc (getAttrs FD)))))),
     mkExtInfo (NoReturn (getAttrs FD)),
     (if isSet AK_cc (getAttrs FD)
      then [invalid_decl_attribute "cc"] else [])
     ++ (if isSet AK_thin (getAttrs FD)
         then [invalid_decl_attribute "thin"] else [])
     ++ (if isSet AK_auto_closure (getAttrs FD)
         then [invalid_decl_attribute "auto_closure"] else [])
     ++ (if isSet AK_objc_block (getAttrs FD)
         then [invalid_decl_attribute "objc_block"] else [])).
Proof.
  destruct FD as [kind name
                    [a1 a2 a3 a4 a5 a6 a7 a8 a9 a10 a11 autoClosure objCBlock
                     a14 callConv thin noReturn]
                    ty dc objc inst].
  unfold validateAndConsumeFunctionTypeAttributes. simpl.
  by destruct callConv as [c|], thin, autoClosure, objCBlock.
Qed.

Lemma consumed_isSet FD k :
  isSet k (getAttrs (validateAndConsumeFunctionTypeAttributes FD).1.1)
  = negb (functionTypeAttribute k) && isSet k (getAttrs FD).
Proof.
  rewrite consumed_result. cbn [fst snd getAttrs setAttrs].
  rewrite !AttributeFacts.isSet_clearAttribute.
  by destruct k.
Qed.

(** X13. [validateAndConsumeFunctionTypeAttributes] leaves none of the
    function type attributes (cc, thin, noreturn, auto_closure,
    objc_block) on the function and touches nothing else.  The noreturn
    attribute is handed over in the returned information and is never
    reported; each of the other four that was set is reported, and
    nothing else is.  A second call reports nothing and returns
    information without noreturn. *)
Theorem function_type_attributes_consumed FD :
  let FD' := (validateAndConsumeFunctionTypeAttributes FD).1.1 in
  let Info := (validateAndConsumeFunctionTypeAttributes FD).1.2 in
  let ds := (validateAndConsumeFunctionTypeAttributes FD).2 in
  FD' = setAttrs FD (getAttrs FD')
  ∧ (∀ k, isSet k (getAttrs FD')
          = negb (functionTypeAttribute k) && isSet k (getAttrs FD))
  ∧ ownership (getAttrs FD') = ownership (getAttrs FD)
  ∧ isNoReturn Info = NoReturn (getAttrs FD)
  ∧ (∀ k, functionTypeAttribute k = true → k ≠ AK_noreturn →
          isSet k (getAttrs FD) = true →
          ∃ dg, dg ∈ ds ∧ diagnosedAttribute dg = Some k)
  ∧ (∀ dg, dg ∈ ds →
           ∃ k, diagnosedAttribute dg = Some k
                ∧ functionTypeAttribute k = true ∧ k ≠ AK_noreturn
                ∧ isSet k (getAttrs FD) = true)
  ∧ validateAndConsumeFunctionTypeAttributes FD' = (FD', mkExtInfo false, []).
Proof.
  pose proof (consumed_isSet FD) as Hset.
  rewrite consumed_result in *. cbn [fst snd getAttrs setAttrs] in *.
  set (A := clearAttribute AK_objc_block _) in *.
  split; [done|]. split; [exact Hset|].
  split; [by destruct (getAttrs FD)|]. split; [done|].
  split; [|split].
  - intros k Hk Hne Hk'.
    exists (invalid_decl_attribute
              match k with
              | AK_cc => "cc"
              | AK_thin => "thin"
              | AK_auto_closure => "auto_closure"
              | _ => "objc_block"
              end).
    rewrite !elem_of_app.
    destruct k; simpl in Hk; try done; rewrite Hk';
      (split; [|done]); rewrite list_elem_of_singleton; auto.
  - intros dg. rewrite !elem_of_app.
    intros [Hin|[Hin|[Hin|Hin]]];
      match type of Hin with
      | _ ∈ (if isSet ?k _ then _ else _) =>
          destruct (isSet k (getAttrs FD)) eqn:Hk;
          [|by apply elem_of_nil in Hin];
          apply list_elem_of_singleton in Hin as ->; by exists k
      end.
  - rewrite consumed_result. cbn [getAttrs setAttrs].
    assert (∀ k, functionTypeAttribute k = true → isSet k A = false)
      as Hoff.
    { intros k Hk. by rewrite Hset, Hk. }
    rewrite (Hoff AK_cc), (Hoff AK_thin), (Hoff AK_auto_closure),
      (Hoff AK_objc_block) by done.
    change (NoReturn A) with (isSet AK_noreturn A).
    rewrite (Hoff AK_noreturn) by done. simpl app.
    assert (clearAttribute AK_objc_block
              (clearAttribute AK_auto_closure
                 (clearAttribute AK_noreturn
                    (clearAttribute AK_thin (clearAttribute AK_cc A)))) = A)
      as ->.
    { unfold A. by destruct (getAttrs FD). }
    by destruct FD.
Qed.


Section WithQueries.
Context `{ASTQueries}.

(** X14. After the function type attributes were consumed, attribute
    validation reports none of them: in particular noreturn, which no
    declaration may carry otherwise, is accepted on a function without
    a diagnostic.  Whatever validation reports then is one of the two
    diagnostics of the operator check, or is about an attribute other
    than these five that was set on the function. *)
Theorem consumed_attributes_not_reported FD VD' ds :
  validateAttributes (validateAndConsumeFunctionTypeAttributes FD).1.1
    = Some (VD', ds) →
  ∀ dg, dg ∈ ds →
    dg = operator_not_func ∨ dg = custom_operator_addressof
    ∨ ∃ k, diagnosedAttribute dg = Some k
           ∧ functionTypeAttribute k = false
           ∧ isSet k (getAttrs FD) = true.
Proof.
  intros Hv dg Hin.
  destruct (AttributeFacts.validateAttributes_reports _ _ _ _ Hv Hin)
    as [?|[?|(k & Hk & Hviol)]]; [by left|by right; left|].
  right. right. exists k. split; [done|].
  apply andb_true_iff in Hviol as [Hset _].
  rewrite consumed_isSet in Hset.
  by apply andb_prop in Hset as [Hf%negb_true_iff Hs].
Qed.

End WithQueries.

End FunctionAttrFacts.

Module ValidationFacts.
Import Attributes FunctionAttrs.

Section WithQueries.
Context `{ASTQueries}.

Ltac outcome_cases :=
  repeat first
    [ progress simplify_option_eq
    | case_match
    | progress (simpl in *) ].

Lemma setAttrs_getAttrs VD : setAttrs VD (getAttrs VD) = VD.
Proof. by destruct VD. Qed.

(** A run of blocks keeps what each block keeps. *)
Lemma runBlocks_keeps (P : ValueDecl → ValueDecl → Prop) blocks :
  (∀ VD, P VD VD) →
  (∀ V1 V2 V3, P V1 V2 → P V2 V3 → P V1 V3) →
  Forall (λ block : ValueDecl → Outcome,
            ∀ VD flow V d, block VD = Some (flow, V, d) → P VD V) blocks →
  ∀ VD flow V d, runBlocks blocks VD = Some (flow, V, d) → P VD V.
Proof.
  intros Hrefl Htrans.
  induction 1 as [|block rest Hblock _ IH]; intros VD flow V d; simpl.
  - intros [= _ <- _]. apply Hrefl.
  - destruct (block VD) as [[[[] V1] d1]|] eqn:Hb; [| |done].
    + intros [= _ <- _]. eauto.
    + destruct (runBlocks rest V1) as [[[f2 V2] d2]|] eqn:Hr; [|done].
      intros [= _ <- _]. eauto.
Qed.

Lemma keepsDecl_refl VD : keepsDecl VD VD.
Proof. split; [by rewrite setAttrs_getAttrs|done]. Qed.

Lemma keepsDecl_trans V1 V2 V3 :
  keepsDecl V1 V2 → keepsDecl V2 V3 → keepsDecl V1 V3.
Proof.
  intros [H12 Ho12] [H23 Ho23]. split; [|congruence].
  rewrite H23. rewrite H12 at 1. done.
Qed.

Lemma keepsDecl_clear k VD : k ≠ AK_ownership → keepsDecl VD (clear k VD).
Proof. intros Hk. split; [done|]. by destruct k. Qed.

Lemma laterBlocks_keep n :
  Forall (λ block : ValueDecl → Outcome,
            ∀ VD flow V d, block VD = Some (flow, V, d) → keepsDecl VD V)
         ([iboutletBlock; ibactionBlock; infixBlock; postfixBlock;
           prefixBlock] ++ clearingBlocks n).
Proof.
  repeat apply Forall_cons_2; [..|apply Forall_nil_2];
    intros VD f V d;
    unfold iboutletBlock, ibactionBlock, infixBlock, postfixBlock,
      prefixBlock, assignmentBlock, conversionBlock, forceInlineBlock,
      invalidBlock, classProtocolBlock;
    intros Hb; outcome_cases;
    first [apply keepsDecl_refl|by apply keepsDecl_clear].
Qed.

Lemma operatorBlock_same VD flow V d :
  operatorBlock VD = Some (flow, V, d) → V = VD.
Proof. by intros [-> _]%AttributeFacts.operatorBlock_spec. Qed.

Lemma objcBlock_cases VD flow V d :
  objcBlock VD = Some (flow, V, d) →
  (flow = Continue ∧ V = VD) ∨ (flow = Return ∧ V = clear AK_objc VD).
Proof. unfold objcBlock. intros Hb. outcome_cases; auto. Qed.

Lemma ownershipBlock_cases VD flow V d :
  ownershipBlock VD = Some (flow, V, d) →
  (flow = Return ∧ V = clear AK_ownership VD)
  ∨ (flow = Continue ∧ V = VD)
  ∨ (flow = Continue
     ∧ ∃ k ty,
         isVarDecl VD = true ∧ ownership (getAttrs VD) = Some k
         ∧ getType VD = Some ty ∧ allowsOwnership ty = true
         ∧ V = overwriteType VD (ReferenceStorageType k ty)).
Proof.
  unfold ownershipBlock. intros Hb. outcome_cases; auto.
  right. right. split; [done|]. eexists _, _.
  repeat match goal with
         | Hn : negb _ = false |- _ => apply negb_false_iff in Hn
         end.
  by repeat split.
Qed.

(** Attribute validation changes the attributes of a declaration and,
    for a valid ownership attribute, its type. *)
Lemma validateAttributes_outcome VD VD' ds :
  validateAttributes VD = Some (VD', ds) →
  VD' = setAttrs VD (getAttrs VD')
  ∨ ∃ k ty,
      isVarDecl VD = true ∧ ownership (getAttrs VD) = Some k
      ∧ getType VD = Some ty ∧ allowsOwnership ty = true
      ∧ VD' = setAttrs (overwriteType VD (ReferenceStorageType k ty))
                       (getAttrs VD')
      ∧ ownership (getAttrs VD') = Some k.
Proof.
  unfold validateAttributes. intros Hv.
  apply bind_Some in Hv as (n & _ & Hv).
  apply bind_Some in Hv as ([[flow V] d] & Hrun & Hv).
  injection Hv as <- <-.
  change (returningBlocks ++ clearingBlocks n)
    with ([operatorBlock; objcBlock; ownershipBlock]
            ++ ([iboutletBlock; ibactionBlock; infixBlock; postfixBlock;
                 prefixBlock] ++ clearingBlocks n)) in Hrun.
  rewrite AttributeFacts.runBlocks_app in Hrun.
  pose proof (runBlocks_keeps keepsDecl _ keepsDecl_refl keepsDecl_trans
                (laterBlocks_keep n)) as Hlater.
  assert (∀ f1 V1 d1,
             runBlocks [operatorBlock; objcBlock; ownershipBlock] VD
               = Some (f1, V1, d1) →
             (f1 = Return ∧ V1 = setAttrs VD (getAttrs V1))
             ∨ V1 = VD
             ∨ ∃ k ty,
                 isVarDecl VD = true ∧ ownership (getAttrs VD) = Some k
                 ∧ getType VD = Some ty ∧ allowsOwnership ty = true
                 ∧ V1 = overwriteType VD (ReferenceStorageType k ty))
    as Hfirst.
  { intros f1 V1 d1. simpl.
    destruct (operatorBlock VD) as [[[f V0] d0]|] eqn:Hop; [|done].
    apply operatorBlock_same in Hop as ->.
    destruct f; [intros [= <- <- <-]; by right; left|].
    destruct (objcBlock VD) as [[[f V0] d0']|] eqn:Hobjc; [|done].
    apply objcBlock_cases in Hobjc as [[-> ->]|[-> ->]];
      [|intros [= <- <- <-]; by left].
    destruct (ownershipBlock VD) as [[[f V0] d0'']|] eqn:Hown; [|done].
    apply ownershipBlock_cases in Hown
      as [[-> ->]|[[-> ->]|(-> & k & ty & Hrest)]];
      intros [= <- <- <-]; [by left|by right; left|].
    right. right. by exists k, ty. }
  destruct (runBlocks [operatorBlock; objcBlock; ownershipBlock] VD)
    as [[[f1 V1] d1]|] eqn:Hthree; [|done].
  destruct (Hfirst _ _ _ eq_refl)
    as [[-> HV1]|[->|(k & ty & Hvar & Hown & Hty & Hallow & ->)]].
  - injection Hrun as <- <- <-. by left.
  - destruct f1.
    { injection Hrun as <- <- <-. left. by rewrite setAttrs_getAttrs. }
    destruct (runBlocks _ VD) as [[[f2 V2] d2]|] eqn:Hrest; [|done].
    injection Hrun as <- <- <-.
    apply Hlater in Hrest as [Hrest _]. by left.
  - right. exists k, ty. do 4 (split; [done|]).
    destruct f1.
    { injection Hrun as <- <- <-. by rewrite setAttrs_getAttrs. }
    destruct (runBlocks _ (overwriteType VD _)) as [[[f2 V2] d2]|] eqn:Hrest;
      [|done].
    injection Hrun as <- <- <-.
    apply Hlater in Hrest as [Hrest Howner]. split; [done|].
    by rewrite Howner.
Qed.



(** X16. An ownership attribute that is not valid is cleared with
    exactly one diagnostic and validation ends there, leaving the type
    of the declaration as it was: on a declaration that is not a
    variable, and on a variable whose type does not allow ownership,
    where the diagnostic tells an existential or archetype type from
    other types. *)
Theorem invalid_ownership_cleared VD k :
  isOperator VD = false → ObjC (getAttrs VD) = false →
  ownership (getAttrs VD) = Some k →
  (isVarDecl VD = false → is_Some (numArguments VD) →
   validateAttributes VD
   = Some (clear AK_ownership VD, [invalid_ownership_decl k]))
  ∧ (isVarDecl VD = true →
     ∀ ty, getType VD = Some ty → allowsOwnership ty = false →
           validateAttributes VD
           = Some (clear AK_ownership VD,
                   [if isExistential ty || isArchetypeType ty
                    then invalid_ownership_opaque_type k ty
                    else invalid_ownership_type k ty])).
Proof.
  intros Hop Hobjc Hown.
  assert (∀ n, runBlocks (returningBlocks ++ clearingBlocks n) VD
               = match ownershipBlock VD with
                 | Some (Return, V, d) => Some (Return, V, d)
                 | _ => runBlocks (returningBlocks ++ clearingBlocks n) VD
                 end) as Hrun.
  { intros n. destruct (ownershipBlock VD) as [[[[] V] d]|] eqn:Hb; try done.
    unfold returningBlocks. simpl.
    unfold operatorBlock, objcBlock. by rewrite Hop, Hobjc, Hb. }
  split.
  - intros Hvar [n Hn]. unfold validateAttributes.
    apply bind_Some. exists n. split; [done|].
    apply bind_Some. eexists (Return, _, _). split; [|done].
    rewrite Hrun. unfold ownershipBlock. by rewrite Hown, Hvar.
  - intros Hvar ty Hty Hallow. unfold validateAttributes.
    apply bind_Some. exists (-1)%Z. split.
    { unfold numArguments, dyn_cast_FuncDecl. unfold isVarDecl in Hvar.
      by destruct (vdKind VD). }
    apply bind_Some. eexists (Return, _, _). split; [|done].
    rewrite Hrun. unfold ownershipBlock.
    rewrite Hown, Hvar. simpl. rewrite Hty. simpl. by rewrite Hallow.
Qed.

(** X17. A declaration that carries no attribute and whose name is not
    an operator passes attribute validation unchanged and without a
    diagnostic. *)
Theorem no_attributes_nothing_to_validate VD :
  getAttrs VD = noAttributes → isOperator VD = false →
  is_Some (numArguments VD) →
  validateAttributes VD = Some (VD, []).
Proof.
  intros Hattrs Hop [n Hn]. unfold validateAttributes. rewrite Hn. simpl.
  unfold operatorBlock, objcBlock, ownershipBlock, iboutletBlock,
    ibactionBlock, infixBlock, postfixBlock, prefixBlock, assignmentBlock,
    conversionBlock, forceInlineBlock, invalidBlock, classProtocolBlock.
  by repeat (progress (rewrite ?Hattrs, ?Hop; simpl)).
Qed.

End WithQueries.
End ValidationFacts.

Module PassFacts.
Import PatternBinding Passes.

Lemma collectVariables_setBoundVarsTypeError p :
  collectVariables (setBoundVarsTypeError p)
  = withTypeError <$> collectVariables p.
Proof.
  induction p as [fields IH|sub IH|sub ty IH|sub IH|sub IH| |sub IH|decl| | |]
    using PatternBindingFacts.Pattern_nested_ind; simpl; try done.
  - induction IH as [|f fs Hf _ IHfs]; simpl; [done|].
    by rewrite fmap_app, Hf, IHfs.
  - unfold withTypeError. by destruct (getType decl).
Qed.

Lemma setBoundVarsTypeError_again p :
  setBoundVarsTypeError (setBoundVarsTypeError p) = setBoundVarsTypeError p.
Proof.
  induction p as [fields IH|sub IH|sub ty IH|sub IH|sub IH| |sub IH|decl| | |]
    using PatternBindingFacts.Pattern_nested_ind; simpl; try congruence.
  - f_equal. induction IH as [|f fs Hf _ IHfs]; simpl; [done|].
    by rewrite Hf, IHfs.
  - by destruct (getType decl) eqn:Hty; simpl; rewrite ?Hty.
Qed.

(** X18. [setBoundVarsTypeError] gives the error type to exactly the
    variables of the pattern that have no type and changes nothing
    else: afterwards every variable of the pattern has a type, and a
    second application changes nothing. *)
Theorem bound_variables_get_error_type p :
  collectVariables (setBoundVarsTypeError p)
    = withTypeError <$> collectVariables p
  ∧ Forall (λ var, is_Some (getType var))
           (collectVariables (setBoundVarsTypeError p))
  ∧ setBoundVarsTypeError (setBoundVarsTypeError p)
    = setBoundVarsTypeError p.
Proof.
  split; [apply collectVariables_setBoundVarsTypeError|].
  split; [|apply setBoundVarsTypeError_again].
  rewrite collectVariables_setBoundVarsTypeError.
  apply Forall_fmap, Forall_forall. intros var _. simpl.
  unfold withTypeError. by destruct (getType var) eqn:Hty; rewrite ?Hty.
Qed.

Section WithCheckers.
Context `{ASTQueries} `{NameLookup} `{ExprChecker}.

Lemma visitPatternVars_kept PBD ds0 PBD' ds :
  visitPatternVars PBD ds0 = Some (PBD', ds) →
  getInit PBD' = getInit PBD ∧ pbdInvalid PBD' = pbdInvalid PBD
  ∧ pbdDeclContext PBD' = pbdDeclContext PBD
  ∧ getPatternType PBD' = getPatternType PBD
  ∧ ∃ ds', ds = ds0 ++ ds'
           ∧ Forall (λ dg, aboutDefaultInit dg = false) ds'.
Proof.
  unfold visitPatternVars.
  destruct (visitBoundVars (getPattern PBD)) as [[p' d]|] eqn:Hv; [|done].
  simpl. intros [= <- <-]. simpl. repeat split.
  exists d. split; [done|].
  by eapply PatternBindingFacts.visitBoundVars_diags.
Qed.

(** X19. The first pass over a pattern binding leaves the initializer
    alone, whatever the kind of translation unit: the binding keeps its
    initializer, or its lack of one, and its invalid bit, and no
    diagnostic of default initialization is reported. *)
Theorem first_pass_defers_initializer TUKind D D' ds :
  typeCheckDecl TUKind D true = Some (D', ds) →
  getInit D' = getInit D ∧ pbdInvalid D' = pbdInvalid D
  ∧ pbdDeclContext D' = pbdDeclContext D
  ∧ Forall (λ dg, aboutDefaultInit dg = false) ds.
Proof.
  unfold typeCheckDecl, visitPatternBindingDecl. simpl.
  rewrite !andb_false_r. simpl.
  destruct (negb _ && negb _ && _); simpl.
  - intros (Hi & Hv & Hc & _ & ds' & -> & Hds)%visitPatternVars_kept.
    done.
  - destruct (typeCheckPattern _ _) as [[pattern ty]|]; [|by intros [= <- <-]].
    intros (Hi & Hv & Hc & _ & ds' & -> & Hds)%visitPatternVars_kept.
    done.
Qed.


End WithCheckers.
End PassFacts.

Module BindingFacts.
Import PatternBinding Passes.

Section WithCheckers.
Context `{ASTQueries} `{NameLookup} `{ExprChecker}.

(** X21. Outside a library or SIL translation unit, or away from module
    scope, checking a binding that has no initializer and whose checked
    pattern is typed and is not a single property, outside a type
    context, asks whether the type of the pattern is
    default-initializable.  If it is not, the binding is marked invalid,
    stays without an initializer and the first diagnostic says that the
    type has no default initializer; if it is, the initializer of the
    binding becomes the checked default initializer, unless its
    conversion to the type fails, which is the one diagnostic then. *)
Theorem default_initializer_provided TUKind D pattern ty D' ds :
  TUKind = Main ∨ TUKind = Repl ∨ isModuleContext (pbdDeclContext D) = false →
  getInit D = None → isaTypedPattern (getPattern D) = true →
  isTypeContext (pbdDeclContext D) = false →
  typeCheckPattern (getPattern D) (pbdDeclContext D) = Some (pattern, ty) →
  isPatternProperty pattern = false →
  typeCheckDecl TUKind D false = Some (D', ds) →
  ∃ answer w,
    DefaultInit.isDefaultInitializable ty true = Some (answer, w)
    ∧ if answer
      then ∃ initializer,
             w = Some initializer
             ∧ match typeCheckExpression initializer (pbdDeclContext D)
                                         (Some ty)
               with
               | Some checked =>
                   getInit D' = Some checked ∧ pbdInvalid D' = pbdInvalid D
                   ∧ Forall (λ dg, aboutDefaultInit dg = false) ds
               | None =>
                   D' = setPattern D pattern (Some ty)
                   ∧ ds = [while_converting_var_init ty]
               end
      else getInit D' = None ∧ pbdInvalid D' = true
           ∧ ∃ ds', ds = decl_no_default_init ty :: ds'
                    ∧ Forall (λ dg, aboutDefaultInit dg = false) ds'.
Proof.
  intros HTU Hinit Htyped Hctx Hcheck Hprop.
  unfold typeCheckDecl, visitPatternBindingDecl.
  rewrite Hinit, Htyped, Hctx, Hcheck. simpl. rewrite Hprop.
  assert (isModuleContext (pbdDeclContext D)
          && negb (negb (bool_decide (TUKind = Library))
                   && negb (bool_decide (TUKind = SIL))
                   && isModuleContext (pbdDeclContext D)) = false) as ->.
  { destruct HTU as [-> |[-> | ->]]; simpl; try done;
      by destruct (isModuleContext _). }
  destruct (DefaultInit.isDefaultInitializable ty true) as [[[] [w|]]|];
    simpl; [| | | |done].
  - destruct (typeCheckExpression w _ _) as [checked|] eqn:Hconv.
    + intros (Hi & Hv & _ & _ & ds' & -> & Hds)%PassFacts.visitPatternVars_kept.
      eexists _, _. split; [done|].
      exists w. split; [done|]. rewrite Hconv. simpl in *. by repeat split.
    + intros [= <- <-]. eexists _, _. split; [done|].
      exists w. split; [done|]. by rewrite Hconv.
  - done.
  - intros (Hi & Hv & _ & _ & ds' & -> & Hds)%PassFacts.visitPatternVars_kept.
    eexists _, _. split; [done|].
    simpl in *. split; [congruence|]. split; [done|]. by exists ds'.
  - intros (Hi & Hv & _ & _ & ds' & -> & Hds)%PassFacts.visitPatternVars_kept.
    eexists _, _. split; [done|].
    simpl in *. split; [congruence|]. split; [done|]. by exists ds'.
Qed.

Lemma validateAttributes_materializable VD VD' ds :
  Attributes.validateAttributes VD = Some (VD', ds) →
  Forall (λ dg, ∀ ty, dg ≠ var_type_not_materializable ty) ds.
Proof.
  unfold Attributes.validateAttributes. intros Hv.
  apply bind_Some in Hv as (n & _ & Hv).
  apply bind_Some in Hv as ([[flow V] d] & Hrun & Hv).
  injection Hv as <- <-.
  revert Hrun. apply AttributeFacts.runBlocks_diags.
  repeat apply Forall_cons_2; [..|apply Forall_nil_2];
    intros V0 f V1 d0;
    unfold Attributes.operatorBlock, Attributes.objcBlock,
      Attributes.ownershipBlock, Attributes.iboutletBlock,
      Attributes.ibactionBlock, Attributes.infixBlock,
      Attributes.postfixBlock, Attributes.prefixBlock,
      Attributes.assignmentBlock, Attributes.conversionBlock,
      Attributes.forceInlineBlock, Attributes.invalidBlock,
      Attributes.classProtocolBlock;
    intros Hb;
    repeat first [progress simplify_option_eq | case_match
                 | progress (simpl in *)];
    repeat constructor; done.
Qed.

Lemma visitBoundVar_visited VD VD' ds :
  visitBoundVar VD = Some (VD', ds) →
  visited VD VD'
  ∧ ∀ ty, var_type_not_materializable ty ∈ ds
          ↔ getType VD = Some ty ∧ isMaterializable ty = false.
Proof.
  unfold visitBoundVar. intros Hv.
  apply bind_Some in Hv as (ty & Hty & Hv).
  set (V0 := if negb (isMaterializable ty)
             then Attributes.overwriteType VD ErrorType else VD).
  set (ds0 := if negb (isMaterializable ty)
              then [var_type_not_materializable ty] else []).
  assert (Attributes.validateAttributes V0 ≫= (λ '(V, ds'),
            Some (match getDeclaredTypeInContext (getDeclContext V) with
                  | Some contextTy =>
                      Attributes.setIsObjC V
                        (ObjC (getAttrs V)
                         || match Attributes.classOrBoundGenericClass
                                    contextTy with
                            | Some c => classIsObjC c
                            | None => false
                            end)
                  | None => V
                  end, ds0 ++ ds')) = Some (VD', ds)) as Hv'.
  { unfold V0, ds0. by destruct (negb (isMaterializable ty)). }
  clear Hv. apply bind_Some in Hv' as ([V d] & Hval & Hv).
  injection Hv as <- <-.
  pose proof (validateAttributes_materializable _ _ _ Hval) as Hnot.
  assert (vdKind V0 = vdKind VD ∧ getName V0 = getName VD
          ∧ getDeclContext V0 = getDeclContext VD ∧ is_Some (getType V0))
    as (Hk0 & Hn0 & Hc0 & Ht0).
  { unfold V0. destruct (negb (isMaterializable ty)); simpl; eauto. }
  assert (vdKind V = vdKind V0 ∧ getName V = getName V0
          ∧ getDeclContext V = getDeclContext V0 ∧ is_Some (getType V))
    as (Hk & Hn & Hc & Ht).
  { destruct (ValidationFacts.validateAttributes_outcome _ _ _ Hval)
      as [->|(k & ty' & _ & _ & _ & _ & -> & _)]; simpl; eauto. }
  split.
  - unfold visited.
    destruct (getDeclaredTypeInContext (getDeclContext V)); simpl;
      rewrite Hty; repeat split; eauto; congruence.
  - intros ty'. rewrite elem_of_app. split.
    + intros [Hin|Hin].
      * unfold ds0 in Hin.
        destruct (negb (isMaterializable ty)) eqn:Hm;
          [|by apply elem_of_nil in Hin].
        apply list_elem_of_singleton in Hin. injection Hin as ->.
        by apply negb_true_iff in Hm.
      * rewrite Forall_forall in Hnot. by destruct (Hnot _ Hin ty').
    + intros [Hty' Hm]. left. unfold ds0.
      assert (ty' = ty) as -> by congruence.
      rewrite Hm. apply list_elem_of_here.
Qed.

(** X22. When [visitBoundVars] completes, the pattern binds the same
    variables as before, by kind, name and context, and each of them had
    a type and has one afterwards; the types reported as not
    materializable are exactly the types of the variables of the pattern
    that are not materializable. *)
Theorem bound_variables_visited P :
  ∀ P' ds, visitBoundVars P = Some (P', ds) →
    Forall2 visited (collectVariables P) (collectVariables P')
    ∧ ∀ ty, var_type_not_materializable ty ∈ ds
            ↔ ∃ var, var ∈ collectVariables P ∧ getType var = Some ty
                     ∧ isMaterializable ty = false.
Proof.
  induction P as [fields IH|sub IH|sub ty IH|sub IH|sub IH| |sub IH|decl| | |]
    using PatternBindingFacts.Pattern_nested_ind; intros P' ds; simpl;
    try (destruct (visitBoundVars sub) as [[sub' d]|]; [|done];
         intros [= <- <-]; simpl; by apply IH);
    try (intros [= <- <-]; split; [constructor|]; intros ty0;
         split; [by intros ?%elem_of_nil|by intros (? & ?%elem_of_nil & _)]).
  - match goal with
    | |- context [?loop fields] =>
        enough (∀ fs' d, loop fields = Some (fs', d) →
                  Forall2 visited (flat_map collectVariables fields)
                          (flat_map collectVariables fs')
                  ∧ ∀ ty, var_type_not_materializable ty ∈ d
                          ↔ ∃ var, var ∈ flat_map collectVariables fields
                                   ∧ getType var = Some ty
                                   ∧ isMaterializable ty = false) as Hloop
    end.
    { destruct (_ fields) as [[fs' d]|]; [|done]. intros [= <- <-]. eauto. }
    induction IH as [|f fs Hf _ IHfs]; intros fs' d.
    + intros [= <- <-]. split; [constructor|]. intros ty0.
      split; [by intros ?%elem_of_nil|by intros (? & ?%elem_of_nil & _)].
    + destruct (visitBoundVars f) as [[f' d1]|] eqn:Hv; [|done].
      destruct (_ fs) as [[fs1 d2]|]; [|done].
      intros [= <- <-]. simpl.
      destruct (Hf _ _ eq_refl) as [Hvars1 Hdiag1].
      destruct (IHfs _ _ eq_refl) as [Hvars2 Hdiag2].
      split; [by apply Forall2_app|].
      intros ty0. rewrite elem_of_app, Hdiag1, Hdiag2. split.
      * intros [(var & Hin & Hrest)|(var & Hin & Hrest)]; exists var;
          (split; [apply elem_of_app; auto|done]).
      * intros (var & [Hin|Hin]%elem_of_app & Hrest); eauto.
  - destruct (visitBoundVar decl) as [[VD' d]|] eqn:Hv; [|done].
    intros [= <- <-]. simpl.
    destruct (visitBoundVar_visited _ _ _ Hv) as [Hvis Hdiag].
    split; [by constructor|].
    intros ty0. rewrite Hdiag. split.
    + intros [Hty Hm]. exists decl. split; [left|done].
    + by intros (var & ->%list_elem_of_singleton & Hrest).
Qed.

Lemma filter_aboutDefaultInit ds0 ds' :
  Forall (λ dg, aboutDefaultInit dg = false) ds' →
  List.filter aboutDefaultInit (ds0 ++ ds')
  = List.filter aboutDefaultInit ds0.
Proof.
  intros Hds. rewrite List.filter_app.
  assert (List.filter aboutDefaultInit ds' = []) as ->.
  { induction Hds as [|dg l Hdg _ IH]; simpl; [done|]. by rewrite Hdg. }
  apply app_nil_r.
Qed.

(** What every path through [visitPatternBindingDecl] keeps. *)
Lemma visitPatternVars_invariants (dc : DeclID) (invalid : bool)
    (hasInit : Prop) PBD ds0 PBD' ds :
  pbdDeclContext PBD = dc →
  (invalid = true → pbdInvalid PBD = true) →
  (hasInit → is_Some (getInit PBD)) →
  (length (List.filter aboutDefaultInit ds0) ≤ 1)%nat →
  visitPatternVars PBD ds0 = Some (PBD', ds) →
  pbdDeclContext PBD' = dc
  ∧ (invalid = true → pbdInvalid PBD' = true)
  ∧ (hasInit → is_Some (getInit PBD'))
  ∧ (length (List.filter aboutDefaultInit ds) ≤ 1)%nat.
Proof.
  intros Hc Hv Hi Hd
    (Hi' & Hv' & Hc' & _ & ds' & -> & Hds)%PassFacts.visitPatternVars_kept.
  rewrite Hi', Hv', Hc', filter_aboutDefaultInit by done. done.
Qed.

(** X23. Whatever the pass and the kind of translation unit, checking a
    pattern binding keeps its declaration context, never clears its
    invalid bit, never takes its initializer away, and reports at most
    one diagnostic of default initialization. *)
Theorem binding_invariants TUKind IsFirstPass IsSecondPass PBD PBD' ds :
  visitPatternBindingDecl TUKind IsFirstPass IsSecondPass PBD
    = Some (PBD', ds) →
  pbdDeclContext PBD' = pbdDeclContext PBD
  ∧ (pbdInvalid PBD = true → pbdInvalid PBD' = true)
  ∧ (is_Some (getInit PBD) → is_Some (getInit PBD'))
  ∧ (length (List.filter aboutDefaultInit ds) ≤ 1)%nat.
Proof.
  unfold visitPatternBindingDecl.
  repeat case_match; simplify_option_eq;
    repeat match goal with
           | |- context [?o ≫= _] => destruct o; simpl
           end;
    repeat case_match;
    first
      [ done
      | intros [= <- <-]; simpl;
        (split; [done|]); (split; [done|]);
        (split; [first [done|by intros [? [=]]|by eauto]|]); simpl; lia
      | eapply visitPatternVars_invariants; simpl;
        first [done|by intros [? [=]]|by eauto|lia] ].
Qed.

End WithCheckers.
End BindingFacts.

(** * Part III: the properties on the sample programs *)

Module Samples.
Import Examples.

Example sample_default_init :
  @DefaultInit.isDefaultInitializable sampleLookup
    (TupleType [mkTupleTypeElt "" Int64 false;
                mkTupleTypeElt "s" (StructType 1) false]) true
  = Some (true,
          Some (TupleExpr
                  [ZeroValueExpr Int64;
                   CallExpr (MetatypeExpr (MetaTypeType (StructType 1)))
                            (TupleExpr [] [])]
                  [""; "s"])).
Proof. reflexivity. Qed.

Example sample_not_default_init :
  @DefaultInit.answers sampleLookup (StructType 2) false false.
Proof. reflexivity. Qed.

(** On a tuple element that carries a default value the assertion
    fails, whatever the type of the element. *)
Example sample_defaulted_element :
  @DefaultInit.isDefaultInitializable sampleLookup
    (TupleType [mkTupleTypeElt "" Int64 true]) true = None.
Proof. reflexivity. Qed.

Lemma C3_nominal_default_constructor_witness :
  DefaultInit.looksForConstructors (StructType 1) = true
  ∧ (@DefaultInit.answers sampleLookup (StructType 1) true true
     ↔ @DefaultInit.defaultConstructorCount sampleLookup (StructType 1) = 1).
Proof.
  split; [reflexivity|].
  exact (proj1 (@DefaultInitFacts.C3_nominal_default_constructor
                  sampleLookup (StructType 1) true eq_refl)).
Defined.

Lemma C4_tuple_and_existential_witness :
  @DefaultInit.isDefaultInitializable sampleLookup (ProtocolType 20) true
    = Some (false, None)
  ∧ (@DefaultInit.answers sampleLookup
       (TupleType [mkTupleTypeElt "" Int64 false;
                   mkTupleTypeElt "s" (StructType 1) false]) true true
     ↔ Forall (λ e, @DefaultInit.answers sampleLookup (eltType e) true true)
              [mkTupleTypeElt "" Int64 false;
               mkTupleTypeElt "s" (StructType 1) false])
  ∧ ∃ ws,
      Forall2 (λ e we,
                 @DefaultInit.isDefaultInitializable sampleLookup
                   (eltType e) true = Some (true, Some we))
              [mkTupleTypeElt "" Int64 false] ws
      ∧ Some (ZeroValueExpr Int64)
        = Some (DefaultInit.tupleWitness [mkTupleTypeElt "" Int64 false] ws).
Proof.
  destruct (@DefaultInitFacts.C4_tuple_and_existential sampleLookup)
    as (Hiff & _ & _ & Hwitness & Hprotocol & _).
  split; [exact (Hprotocol 20%positive true)|].
  split.
  - apply Hiff. repeat constructor.
  - exact (Hwitness [mkTupleTypeElt "" Int64 false]
                    (Some (ZeroValueExpr Int64)) eq_refl).
Defined.

Lemma C6_multiple_inheritance_witness :
  Inheritance.getSuperclass
    (@Inheritance.checkInheritanceClause sampleValidator
       classWithTwoSuperclasses).1 = Some (ClassType 10)
  ∧ (@Inheritance.checkInheritanceClause sampleValidator
       classWithTwoSuperclasses).2
    = [multiple_inheritance (ClassType 10) (ClassType 11)].
Proof.
  pose proof (@InheritanceFacts.C6_multiple_inheritance sampleValidator
                classWithTwoSuperclasses (mkTypeLoc 1 None) (mkTypeLoc 2 None)
                (ClassType 10) (ClassType 11)
                eq_refl eq_refl eq_refl eq_refl eq_refl
                (mk_is_Some _ _ eq_refl) (mk_is_Some _ _ eq_refl)
                ltac:(discriminate)) as (Hsuper & Hdiags & _).
  exact (conj Hsuper Hdiags).
Defined.

Lemma C7_inheritance_idempotent_witness :
  Inheritance.recordedState
    (@Inheritance.checkInheritanceClause sampleValidator
       (@Inheritance.checkInheritanceClause sampleValidator
          structWithProtocol).1).1
  = Inheritance.recordedState
      (@Inheritance.checkInheritanceClause sampleValidator
         structWithProtocol).1.
Proof.
  exact (proj1 (@InheritanceFacts.C7_inheritance_idempotent sampleValidator
                  structWithProtocol)).
Defined.

Lemma C8_objc_propagation_witness :
  (32%positive : DeclID)
  ∈ ObjC.checkObjCConformance 20 (Some nestedConformance)
      ({[22%positive]} : gset DeclID).
Proof.
  refine (proj1 (proj2 ObjCFacts.C8_objc_propagation)
            20%positive nestedConformance {[22%positive]} 22%positive
            (mkConformance [(23%positive, 32%positive)] [])
            23%positive 32%positive _ _ _).
  - eapply ObjC.nested_inherited; [|apply ObjC.nested_here].
    apply list_elem_of_here.
  - apply elem_of_singleton. reflexivity.
  - apply list_elem_of_here.
Defined.

(** After inheritance resolution the struct has a protocol and no
    conformance yet. *)
Lemma C9_counterexample :
  let resolved :=
    (@Inheritance.checkInheritanceClause sampleValidator
       structWithProtocol).1 in
  Inheritance.getProtocols resolved = [20%positive]
  ∧ Inheritance.getConformances resolved = []
  ∧ length (Inheritance.getProtocols resolved)
    ≠ length (Inheritance.getConformances resolved).
Proof. vm_compute. repeat split; discriminate. Qed.

Lemma C9_conformances_after_gathering_witness :
  ∃ D' rec,
    @Inheritance.gatherExplicitConformances sampleChecker
      (@Inheritance.checkInheritanceClause sampleValidator
         structWithProtocol).1 (StructType 5) = Some (D', rec)
    ∧ length (Inheritance.getProtocols D')
      = length (Inheritance.getConformances D').
Proof.
  destruct (proj2 (@ConformanceFacts.C9_conformances_after_gathering
                     sampleValidator sampleChecker)
              structWithProtocol (StructType 5) eq_refl eq_refl eq_refl)
    as (_ & D' & rec & Hgather & _ & Hlen & _).
  exact (ex_intro _ D' (ex_intro _ rec (conj Hgather Hlen))).
Defined.

Lemma pendingStruct_wellFormed :
  ImplicitCtor.wellFormedPending pendingStruct
    (ImplicitCtor.structsWithImplicitDefaultConstructor pendingStruct).
Proof.
  intros x Hx _. apply list_elem_of_singleton in Hx. subst x.
  exists (ImplicitCtor.mkStructDecl [2%positive; 3%positive] false).
  split; [vm_compute; reflexivity|].
  intros var Hvar. vm_compute in Hvar.
  apply list_elem_of_singleton in Hvar. subst var.
  exists Int64. split; reflexivity.
Defined.

Lemma C1_default_constructor_witness :
  ∃ tc',
    @ImplicitCtor.definePendingImplicitDecls sampleLookup pendingStruct
      = Some tc'
    ∧ ImplicitCtor.Diags tc' = ImplicitCtor.Diags pendingStruct
    ∧ ∃ ctor,
        ImplicitCtor.getStruct tc' 1
          = Some (ImplicitCtor.mkStructDecl
                    ([2%positive; 3%positive] ++ [ctor]) false)
        ∧ ImplicitCtor.decls tc' !! ctor
          = Some ImplicitCtor.defaultConstructor
        ∧ ctor ∈ ImplicitCtor.implicitlyDefinedFunctions tc'.
Proof.
  destruct (@ImplicitCtorFacts.C1_default_constructor sampleLookup
              pendingStruct pendingStruct_wellFormed)
    as (tc' & Hpass & Hdiags & Hall).
  exists tc'. split; [exact Hpass|]. split; [exact Hdiags|].
  assert ((1%positive : DeclID)
          ∈ ImplicitCtor.structsWithImplicitDefaultConstructor pendingStruct)
    as Hin by apply list_elem_of_here.
  assert ((1%positive : DeclID)
          ∈ ImplicitCtor.structsNeedingImplicitDefaultConstructor
              pendingStruct)
    as Hneed by (vm_compute; reflexivity).
  specialize (Hall 1%positive
                (ImplicitCtor.mkStructDecl [2%positive; 3%positive] false)
                Hin Hneed eq_refl).
  vm_compute (forallb _ _) in Hall.
  destruct Hall as (ctor & _ & Hstruct & Hctor & Hfun).
  exists ctor. exact (conj Hstruct (conj Hctor Hfun)).
Defined.

Lemma C2_memberwise_constructor_witness :
  ∃ tc' params,
    ImplicitCtor.addImplicitConstructors parsedPair 1 = Some tc'
    ∧ ImplicitCtor.getStruct tc' 1
      = Some (ImplicitCtor.mkStructDecl
                ([2%positive; 3%positive; 4%positive; 5%positive]
                   ++ [fresh (dom (ImplicitCtor.decls parsedPair))])
                false)
    ∧ ImplicitCtor.decls tc' !! fresh (dom (ImplicitCtor.decls parsedPair))
      = Some (ImplicitCtor.ConstructorDeclNode
                (ImplicitCtor.mkConstructorDecl (TuplePattern params) true
                                                None))
    ∧ getName <$> collectVariables (TuplePattern params) = ["x"; "y"]
    ∧ getType <$> collectVariables (TuplePattern params)
      = [Some Int64; Some Int64].
Proof.
  assert (∀ m : DeclID,
            m ∈ [2%positive; 3%positive; 4%positive; 5%positive] →
            ImplicitCtor.isaConstructorDecl parsedPair m = false) as Hnone.
  { intros m Hm.
    repeat (apply elem_of_cons in Hm as [->|Hm]; [reflexivity|]).
    by apply elem_of_nil in Hm. }
  destruct (proj1 (ImplicitCtorFacts.C2_memberwise_constructor parsedPair
                     1%positive
                     (ImplicitCtor.mkStructDecl
                        [2%positive; 3%positive; 4%positive; 5%positive]
                        false)
                     eq_refl) Hnone (not_elem_of_empty _))
    as (tc' & params & Hadd & _ & Hstruct & Hctor & _ & Hnames & Htypes).
  exists tc', params.
  exact (conj Hadd (conj Hstruct (conj Hctor (conj Hnames Htypes)))).
Defined.



(** A property with a weak qualifier and a type that allows no ownership
    meets the conditions of the claim and is diagnosed when its variable
    is visited. *)
Lemma C10_counterexample :
  getInit weakPropertyBinding = None
  ∧ PatternBinding.isaTypedPattern (getPattern weakPropertyBinding) = true
  ∧ @isTypeContext sampleQueries (pbdDeclContext weakPropertyBinding) = false
  ∧ PatternBinding.isPatternProperty (getPattern weakPropertyBinding) = true
  ∧ ∃ PBD',
      @PatternBinding.visitPatternBindingDecl sampleQueries sampleLookup
        sampleExprChecker PatternBinding.Main false true weakPropertyBinding
      = Some (PBD', [invalid_ownership_type Weak Int64]).
Proof.
  repeat split; try reflexivity. eexists. vm_compute. reflexivity.
Qed.

Lemma C10_property_binding_witness :
  ∃ PBD' ds,
    @PatternBinding.visitPatternBindingDecl sampleQueries sampleLookup
      sampleExprChecker PatternBinding.Main false true
      protocolPropertyBinding = Some (PBD', ds)
    ∧ getInit PBD' = None
    ∧ pbdInvalid PBD' = false
    ∧ Forall (λ dg, PatternBinding.aboutDefaultInit dg = false) ds.
Proof.
  eexists _, _.
  assert (∀ pattern ty,
            @typeCheckPattern sampleExprChecker
              (getPattern protocolPropertyBinding)
              (pbdDeclContext protocolPropertyBinding) = Some (pattern, ty) →
            PatternBinding.isPatternProperty pattern = true) as Hprop.
  { intros pattern ty Heq. vm_compute in Heq.
    injection Heq as <- <-. reflexivity. }
  split; [vm_compute; reflexivity|].
  refine (@PatternBindingFacts.C10_property_binding sampleQueries
            sampleLookup sampleExprChecker PatternBinding.Main true
            protocolPropertyBinding _ _ eq_refl eq_refl eq_refl Hprop _).
  vm_compute. reflexivity.
Defined.

End Samples.

Module MoreSamples.
Import Examples MoreExamples.

Lemma direct_conformance_protocols_witness :
  NoDup (@Resolution.getDirectConformsTo sampleValidator
           structWithProtocol).1.2
  ∧ ((20%positive : DeclID)
       ∈ (@Resolution.getDirectConformsTo sampleValidator
            structWithProtocol).1.2
     ↔ @Resolution.namesProtocol sampleValidator
         (Inheritance.getInherited structWithProtocol) 20%positive).
Proof.
  destruct (@ResolutionFacts.direct_conformance_protocols sampleValidator
              structWithProtocol eq_refl eq_refl) as (_ & Hnodup & Hiff).
  exact (conj Hnodup (Hiff 20%positive)).
Defined.

Lemma entries_validated_once_witness :
  Inheritance.getInherited
    (@Inheritance.checkInheritanceClause sampleValidator
       classWithTwoSuperclasses).1
  = @Resolution.validated sampleValidator
      <$> Inheritance.getInherited classWithTwoSuperclasses.
Proof.
  exact (proj1 (@ResolutionFacts.entries_validated_once sampleValidator
                  classWithTwoSuperclasses eq_refl)).
Defined.

Lemma no_superclass_unless_allowed_witness :
  Inheritance.getSuperclass
    (@Inheritance.checkInheritanceClause sampleValidator structWithClass).1
  = None
  ∧ non_class_inheritance (StructType 5) (ClassType 10)
    ∈ (@Inheritance.checkInheritanceClause sampleValidator structWithClass).2.
Proof.
  destruct (@ResolutionFacts.no_superclass_unless_allowed sampleValidator
              structWithClass eq_refl) as [Hsuper Hdiag].
  split; [exact Hsuper|].
  exact (Hdiag eq_refl (mkTypeLoc 1 None) (ClassType 10)
               (list_elem_of_here _ _) eq_refl (mk_is_Some _ _ eq_refl)).
Defined.

Lemma superclass_after_other_entries_witness :
  Inheritance.getSuperclass
    (@Inheritance.checkInheritanceClause sampleValidator
       classAfterProtocol).1
  = Some (ClassType 10)
  ∧ superclass_not_first (ClassType 10)
    ∈ (@Inheritance.checkInheritanceClause sampleValidator
         classAfterProtocol).2.
Proof.
  assert (∀ e ty, e ∈ [mkTypeLoc 3 None] →
                  @validateType sampleValidator (tlRepr e) = Some ty →
                  Inheritance.getClassOrBoundGenericClass ty = None) as Hpre.
  { intros e ty Hin Hv. apply list_elem_of_singleton in Hin. subst e.
    vm_compute in Hv. injection Hv as <-. reflexivity. }
  destruct (@ResolutionFacts.superclass_after_other_entries sampleValidator
              classAfterProtocol [mkTypeLoc 3 None] (mkTypeLoc 1 None) []
              (ClassType 10) eq_refl eq_refl eq_refl eq_refl Hpre eq_refl
              (mk_is_Some _ _ eq_refl)) as [Hsuper Hdiag].
  split; [exact Hsuper|]. apply Hdiag. discriminate.
Defined.

Lemma duplicates_reported_witness :
  duplicate_inheritance (ProtocolType 20)
  ∈ (@Inheritance.checkInheritanceClause sampleValidator
       structWithRepeatedProtocol).2.
Proof.
  apply (proj2 (@ResolutionFacts.duplicates_reported sampleValidator
                  structWithRepeatedProtocol (ProtocolType 20) eq_refl)).
  exists [mkTypeLoc 3 None], (mkTypeLoc 3 None), [], (mkTypeLoc 3 None).
  split; [reflexivity|]. split; [apply list_elem_of_here|].
  split; reflexivity.
Defined.

Lemma conformances_recorded_once_witness :
  ∃ D' rec,
    @Inheritance.gatherExplicitConformances sampleChecker
      (@Inheritance.checkInheritanceClause sampleValidator
         structWithProtocol).1 (StructType 5) = Some (D', rec)
    ∧ NoDup rec.
Proof.
  eexists _, _.
  split; [vm_compute; reflexivity|].
  refine (proj1 (@ResolutionFacts.conformances_recorded_once sampleChecker
                   (@Inheritance.checkInheritanceClause sampleValidator
                      structWithProtocol).1 (StructType 5) _ _ _)).
  vm_compute. reflexivity.
Defined.

Lemma gathering_idempotent_witness :
  ∃ D' rec,
    @Inheritance.gatherExplicitConformances sampleChecker
      (@Inheritance.checkInheritanceClause sampleValidator
         structWithProtocol).1 (StructType 5) = Some (D', rec)
    ∧ @Inheritance.gatherExplicitConformances sampleChecker D' (StructType 5)
      = Some (D', rec).
Proof.
  eexists _, _.
  split; [vm_compute; reflexivity|].
  refine (@ResolutionFacts.gathering_idempotent sampleChecker
            (@Inheritance.checkInheritanceClause sampleValidator
               structWithProtocol).1 (StructType 5) _ _ _).
  vm_compute. reflexivity.
Defined.

Lemma associated_types_prechecked_witness :
  let checked :=
    (@Inheritance.checkInheritanceClause sampleValidator associatedType).1 in
  Resolution.TypeAliasMember checked
  ∈ (@Resolution.preCheckProtocol sampleValidator protocolWithAssociatedType
       [Resolution.TypeAliasMember associatedType]).1.2
  ∧ Inheritance.getConformances checked
    = replicate (length (Inheritance.getProtocols checked)) None
  ∧ @Resolution.visitTypeAliasDecl sampleValidator sampleChecker true false
      checked
    = Some (checked, [], []).
Proof.
  destruct (@ResolutionFacts.associated_types_prechecked sampleValidator
              sampleChecker protocolWithAssociatedType
              [Resolution.TypeAliasMember associatedType] associatedType
              (list_elem_of_here _ _) eq_refl eq_refl eq_refl eq_refl eq_refl)
    as (Hin & Hnull & Hfirst & _).
  exact (conj Hin (conj Hnull Hfirst)).
Defined.

Lemma only_objc_witnesses_marked_witness :
  ∃ s',
    ObjC.checkObjCConformances [20%positive] [Some nestedConformance]
      ({[22%positive]} : gset DeclID) = Some s'
    ∧ ({[22%positive]} : gset DeclID) ⊆ s'.
Proof.
  eexists. split; [reflexivity|].
  exact (proj1 (PropagationFacts.only_objc_witnesses_marked
                  [20%positive] [Some nestedConformance] {[22%positive]} _
                  eq_refl)).
Defined.

Lemma default_constructor_queued_witness :
  ∃ tc1,
    ImplicitCtor.addImplicitConstructors parsedStruct 1 = Some tc1
    ∧ ImplicitCtor.addImplicitConstructors tc1 1 = Some tc1.
Proof.
  destruct (SynthesisFacts.default_constructor_queued parsedStruct 1%positive
              (ImplicitCtor.mkStructDecl [2%positive; 3%positive] false)
              eq_refl (not_elem_of_empty _)) as (tc1 & Hadd & _ & Hagain).
  exists tc1. exact (conj Hadd Hagain).
Defined.

Lemma final_pass_settles_witness :
  ∃ tc',
    @ImplicitCtor.definePendingImplicitDecls sampleLookup pendingStruct
      = Some tc'
    ∧ @ImplicitCtor.definePendingImplicitDecls sampleLookup tc' = Some tc'.
Proof.
  destruct (@SynthesisFacts.final_pass_settles sampleLookup pendingStruct
              Samples.pendingStruct_wellFormed)
    as (tc' & Hpass & _ & _ & Hagain).
  exists tc'. exact (conj Hpass Hagain).
Defined.

Lemma struct_constructors_synthesized_witness :
  ∃ tc1 tc2 memberwise ctor,
    ImplicitCtor.addImplicitConstructors parsedStruct 1 = Some tc1
    ∧ @ImplicitCtor.definePendingImplicitDecls sampleLookup tc1 = Some tc2
    ∧ ImplicitCtor.getStruct tc2 1
      = Some (ImplicitCtor.mkStructDecl
                ([2%positive; 3%positive] ++ [memberwise; ctor]) false).
Proof.
  assert (∀ m : DeclID,
            m ∈ [2%positive; 3%positive] →
            ImplicitCtor.isaConstructorDecl parsedStruct m = false) as Hnone.
  { intros m Hm.
    apply elem_of_cons in Hm as [->|Hm]; [reflexivity|].
    apply list_elem_of_singleton in Hm. subst m. reflexivity. }
  assert (ImplicitCtor.typedStoredVariables parsedStruct
            (ImplicitCtor.mkStructDecl [2%positive; 3%positive] false))
    as Htyped.
  { intros var Hvar. vm_compute in Hvar.
    apply list_elem_of_singleton in Hvar. subst var.
    exists Int64. split; reflexivity. }
  destruct (@SynthesisFacts.struct_constructors_synthesized sampleLookup
              parsedStruct 1%positive
              (ImplicitCtor.mkStructDecl [2%positive; 3%positive] false)
              eq_refl eq_refl (not_elem_of_empty _) Hnone Htyped)
    as (tc1 & tc2 & memberwise & Hadd & Hpass & _ & _ & Hboth).
  vm_compute (bool_decide _ && forallb _ _) in Hboth.
  destruct Hboth as (ctor & _ & _ & Hstruct & _).
  exists tc1, tc2, memberwise, ctor.
  exact (conj Hadd (conj Hpass Hstruct)).
Defined.

Lemma consumed_attributes_not_reported_witness :
  ∃ VD',
    @Attributes.validateAttributes sampleQueries
      (FunctionAttrs.validateAndConsumeFunctionTypeAttributes byrefFunc).1.1
    = Some (VD', [invalid_decl_attribute "byref"])
    ∧ (invalid_decl_attribute "byref" = operator_not_func
       ∨ invalid_decl_attribute "byref" = custom_operator_addressof
       ∨ ∃ k, Attributes.diagnosedAttribute (invalid_decl_attribute "byref")
              = Some k
              ∧ FunctionAttrs.functionTypeAttribute k = false
              ∧ Attributes.isSet k (getAttrs byrefFunc) = true).
Proof.
  eexists.
  split; [vm_compute; reflexivity|].
  refine (@FunctionAttrFacts.consumed_attributes_not_reported sampleQueries
            byrefFunc _ [invalid_decl_attribute "byref"] _
            (invalid_decl_attribute "byref") (list_elem_of_here _ _)).
  vm_compute. reflexivity.
Defined.


Lemma invalid_ownership_cleared_witness :
  @Attributes.validateAttributes sampleQueries weakProperty
  = Some (Attributes.clear Attributes.AK_ownership weakProperty,
          [invalid_ownership_type Weak Int64]).
Proof.
  exact (proj2 (@ValidationFacts.invalid_ownership_cleared sampleQueries
                  weakProperty Weak eq_refl eq_refl eq_refl)
               eq_refl Int64 eq_refl eq_refl).
Defined.

Lemma no_attributes_nothing_to_validate_witness :
  @Attributes.validateAttributes sampleQueries memberX = Some (memberX, []).
Proof.
  exact (@ValidationFacts.no_attributes_nothing_to_validate sampleQueries
           memberX eq_refl eq_refl (mk_is_Some _ _ eq_refl)).
Defined.

Lemma first_pass_defers_initializer_witness :
  ∃ D' ds,
    @Passes.typeCheckDecl sampleQueries sampleLookup sampleExprChecker
      PatternBinding.Library bindingX true = Some (D', ds)
    ∧ getInit D' = getInit bindingX
    ∧ pbdInvalid D' = pbdInvalid bindingX.
Proof.
  eexists _, _.
  split; [vm_compute; reflexivity|].
  destruct (@PassFacts.first_pass_defers_initializer sampleQueries
              sampleLookup sampleExprChecker PatternBinding.Library bindingX
              _ _ ltac:(vm_compute; reflexivity)) as (Hinit & Hinvalid & _).
  exact (conj Hinit Hinvalid).
Defined.


Lemma default_initializer_provided_witness :
  ∃ D' ds,
    @Passes.typeCheckDecl sampleQueries sampleLookup sampleExprChecker
      PatternBinding.Main globalBinding false = Some (D', ds)
    ∧ getInit D' = Some (ZeroValueExpr Int64).
Proof.
  eexists _, _.
  split; [vm_compute; reflexivity|].
  pose proof (@BindingFacts.default_initializer_provided sampleQueries
                sampleLookup sampleExprChecker PatternBinding.Main
                globalBinding (getPattern globalBinding) Int64 _ _
                (or_introl eq_refl) eq_refl eq_refl eq_refl eq_refl eq_refl
                ltac:(vm_compute; reflexivity))
    as (answer & w & Hanswer & Hinit).
  simpl in Hanswer. injection Hanswer as <- <-.
  destruct Hinit as (initializer & Heq & Hset & _).
  injection Heq as <-. exact Hset.
Defined.

Lemma bound_variables_visited_witness :
  ∃ P' ds,
    @PatternBinding.visitBoundVars sampleQueries (getPattern bindingX)
      = Some (P', ds)
    ∧ Forall2 Passes.visited (collectVariables (getPattern bindingX))
              (collectVariables P').
Proof.
  eexists _, _.
  split; [vm_compute; reflexivity|].
  refine (proj1 (@BindingFacts.bound_variables_visited sampleQueries
                   (getPattern bindingX) _ _ _)).
  vm_compute. reflexivity.
Defined.

Lemma binding_invariants_witness :
  ∃ D' ds,
    @PatternBinding.visitPatternBindingDecl sampleQueries sampleLookup
      sampleExprChecker PatternBinding.Library true false bindingX
    = Some (D', ds)
    ∧ pbdDeclContext D' = pbdDeclContext bindingX.
Proof.
  eexists _, _.
  split; [vm_compute; reflexivity|].
  refine (proj1 (@BindingFacts.binding_invariants sampleQueries sampleLookup
                   sampleExprChecker PatternBinding.Library true false
                   bindingX _ _ _)).
  vm_compute. reflexivity.
Defined.

End MoreSamples.
